(** * DailyFluent dictation engine: a shallow embedding of
      [static/js/dictation.js] and the properties of its specification.

    The file follows the source top-down: text utilities, the Levenshtein
    table, word classification, the LCS aligner, the [DictationMode]
    session, the segment loader and the [AudioSeeker] event machinery.
    Definitions come first, theorems after them. *)

From Stdlib Require Import ZArith QArith Qabs Ascii String.
From stdpp Require Import base list numbers option.

Local Open Scope nat_scope.

(** ** JavaScript values used by the dictation code *)

(** A JS string is a sequence of UTF-16 code units; [length], indexing and
    [===] all work on code units. *)
Abbreviation char := N (only parsing).
Abbreviation jsstring := (list N) (only parsing).

(** ASCII literals for worked examples. *)
Definition js (s : string) : jsstring :=
  map N_of_ascii (list_ascii_of_string s).

(** The values a word slot can hold: a string, [null], or [undefined]
    (what an out-of-range array read yields). *)
Inductive jsval :=
| Null
| Undefined
| Str (s : jsstring).

#[global] Instance jsval_eq_dec : EqDecision jsval.
Proof. solve_decision. Defined.

(** [arr[k]] on an array of strings. *)
Definition index (arr : list jsstring) (k : nat) : jsval :=
  match arr !! k with
  | Some w => Str w
  | None => Undefined
  end.

(** [(w || empty)]: every falsy value becomes the empty string. *)
Definition or_empty (w : jsval) : jsstring :=
  match w with
  | Str s => s
  | Null | Undefined => []
  end.

(** String built-ins of the host that the source calls but does not define.
    [toLowerCase] is the full Unicode lowering of ECMAScript; nothing below
    depends on what it does to a string. *)
Class StringHost := { toLowerCase : jsstring -> jsstring }.

(** Lowering of the ASCII letters only, used to run the code on examples. *)
Definition lower_ascii (c : char) : char :=
  if ((65 <=? c) && (c <=? 90))%N then (c + 32)%N else c.

Definition ascii_host : StringHost := {| toLowerCase := map lower_ascii |}.

(** The character class of [normalizeWord], [normalizeForCompare] and
    [hintWord], as code units: full stop, comma, question mark, exclamation
    mark, semicolon, colon, apostrophe, double quote, horizontal ellipsis
    (U+2026), round, square and curly brackets, hyphen-minus, en dash
    (U+2013) and em dash (U+2014). *)
Definition punct_units : list char :=
  [46; 44; 63; 33; 59; 58; 39; 34; 8230; 40; 41; 91; 93; 123; 125; 45;
   8211; 8212]%N.

Definition is_punct (c : char) : bool := existsb (N.eqb c) punct_units.

(** The class [\s] of ECMAScript, which is also what [trim] strips: tab,
    line feed, vertical tab, form feed, carriage return, space, no-break
    space, U+1680, U+2000 to U+200A, the line and paragraph separators,
    U+202F, U+205F, U+3000 and the byte order mark. *)
Definition space_units : list char :=
  [9; 10; 11; 12; 13; 32; 160; 5760;
   8192; 8193; 8194; 8195; 8196; 8197; 8198; 8199; 8200; 8201; 8202;
   8232; 8233; 8239; 8287; 12288; 65279]%N.

Definition is_space (c : char) : bool := existsb (N.eqb c) space_units.

(** [s.replace(/[...]/g, empty)]: the units of the class are deleted. *)
Definition strip_punct (s : jsstring) : jsstring :=
  filter (fun c => is_punct c = false) s.

Fixpoint trim_start (s : jsstring) : jsstring :=
  match s with
  | c :: s' => if is_space c then trim_start s' else s
  | [] => []
  end.

(** [s.trim()] *)
Definition trim (s : jsstring) : jsstring :=
  rev (trim_start (rev (trim_start s))).

(** [s.replace(/\s+/g, space)]: every maximal run of white space becomes one
    space. [inws] records that the previous unit was white space. *)
Fixpoint collapse_ws_from (inws : bool) (s : jsstring) : jsstring :=
  match s with
  | [] => []
  | c :: s' =>
      if is_space c
      then (if inws then collapse_ws_from true s'
            else 32%N :: collapse_ws_from true s')
      else c :: collapse_ws_from false s'
  end.

Definition collapse_ws (s : jsstring) : jsstring := collapse_ws_from false s.

(** [s.split(/\s+/)]: the pieces between maximal runs of white space, the
    empty pieces at both ends included. [cur] is the piece being read, in
    reverse. *)
Fixpoint split_ws_from (inws : bool) (cur : jsstring) (s : jsstring)
  : list jsstring :=
  match s with
  | [] => [rev cur]
  | c :: s' =>
      if is_space c
      then (if inws then split_ws_from true [] s'
            else rev cur :: split_ws_from true [] s')
      else split_ws_from false (c :: cur) s'
  end.

Definition split_ws (s : jsstring) : list jsstring := split_ws_from false [] s.

(** A non-empty string is truthy. *)
Definition truthy (s : jsstring) : bool :=
  match s with [] => false | _ => true end.

(** [s.split(/\s+/).filter(w => w)] *)
Definition words (s : jsstring) : list jsstring :=
  filter (fun w => truthy w = true) (split_ws s).

Section Normalize.
Context `{StringHost}.

(** [normalizeWord(w)] *)
Definition normalizeWord (w : jsval) : jsstring :=
  trim (strip_punct (toLowerCase (or_empty w))).

(** [normalizeForCompare(s)] *)
Definition normalizeForCompare (s : jsval) : jsstring :=
  trim (collapse_ws (strip_punct (toLowerCase (or_empty s)))).
End Normalize.

(** ** Two-dimensional tables

    [Array.from({length: r}, () => Array(c).fill(v))] and the cell
    accesses on it. Every access the source makes is inside the table;
    outside, a JS read of a missing row throws and a write extends the row,
    while here a read returns [d] and a write changes nothing. *)
Abbreviation table A := (list (list A)) (only parsing).

Definition make_table {A} (r c : nat) (v : A) : table A :=
  replicate r (replicate c v).

Definition get2 {A} (d : A) (t : table A) (i j : nat) : A :=
  match t !! i with
  | Some row => match row !! j with Some v => v | None => d end
  | None => d
  end.

Definition set2 {A} (t : table A) (i j : nat) (v : A) : table A :=
  match t !! i with
  | Some row => <[i := <[j := v]> row]> t
  | None => t
  end.

(** [for (let k = lo; k < hi; k++) body], threading the loop state [s]. *)
Definition for_lt {St} (lo hi : nat) (body : nat -> St -> St) (s : St) : St :=
  foldl (fun s k => body k s) s (seq lo (hi - lo)).

(** [for (let k = lo; k <= hi; k++) body] *)
Definition for_le {St} (lo hi : nat) (body : nat -> St -> St) (s : St) : St :=
  for_lt lo (hi + 1) body s.

(** ** Levenshtein distance *)

Definition min3 (x y z : nat) : nat := Nat.min (Nat.min x y) z.

(** The cell update of the inner loop of [levenshtein]. *)
Definition lev_cell (a b : jsstring) (i j : nat) (dp : table nat) : table nat :=
  set2 dp i j
    (if decide (a !! (i - 1) = b !! (j - 1))
     then get2 0 dp (i - 1) (j - 1)
     else 1 + min3 (get2 0 dp (i - 1) (j - 1))
                   (get2 0 dp (i - 1) j)
                   (get2 0 dp i (j - 1))).

(** The filled table of [levenshtein], for non-empty [a] and [b]. *)
Definition lev_table (a b : jsstring) : table nat :=
  let m := length a in
  let n := length b in
  let dp := make_table (m + 1) (n + 1) 0 in
  let dp := for_le 0 m (fun i dp => set2 dp i 0 i) dp in
  let dp := for_le 0 n (fun j dp => set2 dp 0 j j) dp in
  for_le 1 m (fun i dp => for_le 1 n (fun j dp => lev_cell a b i j dp) dp) dp.

(** [levenshtein(a, b)] *)
Definition levenshtein (a b : jsstring) : nat :=
  let m := length a in
  let n := length b in
  if m =? 0 then n
  else if n =? 0 then m
  else get2 0 (lev_table a b) m n.

(** ** Word classification *)

(** The string tags of the aligner: the three results of [wordMatchType]
    and the four [type]s of an alignment item. *)
Inductive tag := exact | near | wrong | missing | extra.

#[global] Instance tag_eq_dec : EqDecision tag.
Proof. solve_decision. Defined.

(** [c.length <= 3 ? 0 : c.length <= 5 ? 1 : 2] *)
Definition threshold_of (len : nat) : nat :=
  if len <=? 3 then 0 else if len <=? 5 then 1 else 2.

Section Classify.
Context `{StringHost}.

(** [wordMatchType(userWord, correctWord)] *)
Definition wordMatchType (userWord correctWord : jsval) : tag :=
  let u := normalizeWord userWord in
  let c := normalizeWord correctWord in
  if negb (truthy u) || negb (truthy c) then wrong
  else if decide (u = c) then exact
  else
    let threshold := threshold_of (length c) in
    if threshold =? 0 then wrong
    else if levenshtein u c <=? threshold then near else wrong.
End Classify.

(** ** LCS alignment *)

(** An alignment item [{ type, userWord, correctWord }]. *)
Record item := Item { type : tag; userWord : jsval; correctWord : jsval }.

#[global] Instance item_eq_dec : EqDecision item.
Proof. solve_decision. Defined.

(** The loop variables of the backtrack: [i], [j] and [result]. *)
Record cursor := Cursor { cur_i : nat; cur_j : nat; cur_result : list item }.

Section Align.
Context `{StringHost}.
Variables userWords correctWords : list jsstring.

(** The table [mt] of match types between all word pairs. *)
Definition match_table : table tag :=
  let m := length userWords in
  let n := length correctWords in
  let mt := make_table m n wrong in
  for_lt 0 m (fun i mt =>
    for_lt 0 n (fun j mt =>
      set2 mt i j (wordMatchType (index userWords i) (index correctWords j)))
      mt) mt.

Variable mt : table tag.

(** The cell update of the LCS loop. *)
Definition lcs_cell (i j : nat) (dp : table nat) : table nat :=
  set2 dp i j
    (if decide (get2 wrong mt (i - 1) (j - 1) <> wrong)
     then get2 0 dp (i - 1) (j - 1) + 1
     else Nat.max (get2 0 dp (i - 1) j) (get2 0 dp i (j - 1))).

(** The LCS table [dp]. *)
Definition lcs_table : table nat :=
  let m := length userWords in
  let n := length correctWords in
  let dp := make_table (m + 1) (n + 1) 0 in
  for_le 1 m (fun i dp => for_le 1 n (fun j dp => lcs_cell i j dp) dp) dp.

Variable dp : table nat.

(** The loop condition [i > 0 || j > 0]. *)
Definition backtrack_guard (s : cursor) : bool :=
  (0 <? cur_i s) || (0 <? cur_j s).

(** The test of the first branch: the cell was reached through a match. *)
Definition via_match (i j : nat) : bool :=
  (0 <? i) && (0 <? j)
  && bool_decide (get2 wrong mt (i - 1) (j - 1) <> wrong)
  && (get2 0 dp i j =? get2 0 dp (i - 1) (j - 1) + 1).

(** The test of the second branch. For [i = 0] the source does not read
    [dp[i - 1][j]]; here the disjunction is already true. *)
Definition prefer_missing (i j : nat) : bool :=
  (0 <? j) && ((i =? 0) || (get2 0 dp (i - 1) j <=? get2 0 dp i (j - 1))).

(** One iteration of the body of the [while] loop. [result.unshift(x)]
    puts [x] in front. Inside the loop the last branch is only entered
    with [i > 0], so [i - 1] never truncates there. *)
Definition backtrack_step (s : cursor) : cursor :=
  let i := cur_i s in
  let j := cur_j s in
  if via_match i j then
    Cursor (i - 1) (j - 1)
      (Item (get2 wrong mt (i - 1) (j - 1))
            (index userWords (i - 1)) (index correctWords (j - 1))
       :: cur_result s)
  else if prefer_missing i j then
    Cursor i (j - 1)
      (Item missing Null (index correctWords (j - 1)) :: cur_result s)
  else
    Cursor (i - 1) j
      (Item extra (index userWords (i - 1)) Null :: cur_result s).

(** The [while] loop, for at most [fuel] iterations; [None] when the
    iterations do not suffice. *)
Fixpoint backtrack (fuel : nat) (s : cursor) : option (list item) :=
  if backtrack_guard s then
    match fuel with
    | 0 => None
    | S fuel' => backtrack fuel' (backtrack_step s)
    end
  else Some (cur_result s).
End Align.

(** [lcsAlign(userWords, correctWords)]: each iteration consumes a word, so
    [m + n] iterations are allowed. *)
Definition lcsAlign `{StringHost} (userWords correctWords : list jsstring)
  : option (list item) :=
  let m := length userWords in
  let n := length correctWords in
  let mt := match_table userWords correctWords in
  let dp := lcs_table userWords correctWords mt in
  backtrack userWords correctWords mt dp (m + n) (Cursor m n []).

(** [alignment.filter(a => a.type === t).length] *)
Definition count_type (t : tag) (alignment : list item) : nat :=
  length (filter (fun a => type a = t) alignment).

(** [hintWord(word)]: first unit, then one middle dot (U+00B7) for each
    further unit; a single underscore for at most one unit. *)
Definition hintWord (word : jsstring) : jsstring :=
  let clean := strip_punct word in
  match clean with
  | [] | [_] => [95%N]
  | c :: rest => c :: replicate (length rest) 183%N
  end.

(** [diffString(userText, correctText)], before the rendering to HTML: the
    alignment whose items are rendered one by one. *)
Definition diffString `{StringHost} (userText correctText : jsstring)
  : option (list item) :=
  lcsAlign (words (trim userText)) (words (trim correctText)).

(** ** The dictation session: [DictationMode] *)

(** A segment as the loader builds it. The field [words] of the source is
    copied through and never read; it is left out. Times are seconds. *)
Record Segment := {
  start_time : Q;
  end_time : Q;
  correct_text : jsstring;
  hint : jsstring;
  order : nat
}.

(** What [feedbackContent.innerHTML] is set to, with the data each message
    interpolates. *)
Inductive feedback :=
| NoFeedback
| AskForAnswer
| ExactlyCorrect (answer : jsstring)
| NearlyCorrect (nearCount : nat) (diff : list item)
| Incorrect (matchedWords total : nat) (diff : list item)
| Revealed (answer : jsstring).

(** The part of [this.elements] that the scoring methods write; the play
    button, the visualiser, the hint and the progress bar, which mirror the
    audio element and the current segment, are left out. A [true] flag
    means that the element carries the class [hidden]. The reveal button is
    optional in the page: [None] when [elements.btnReveal] is missing.
    [finalScore] holds [correctCount] and [segments.length]. *)
Record Elements := {
  userInput_value : jsstring;
  userInput_disabled : bool;
  feedback_hidden : bool;
  feedbackContent : feedback;
  btnCheck_hidden : bool;
  btnNext_hidden : bool;
  btnReveal_hidden : option bool;
  exerciseApp_hidden : bool;
  summaryScreen_hidden : bool;
  finalScore : option (nat * nat)
}.

Record DictationMode := {
  segments : list Segment;
  elements : Elements;
  currentIndex : Z;
  isChecked : bool;
  correctCount : nat;
  attempts : nat
}.

Definition MAX_ATTEMPTS : nat := 3.

(** [this.segments[k]] for an integer [k]: [None] stands for [undefined]. *)
Definition segment_at (segs : list Segment) (k : Z) : option Segment :=
  if (k <? 0)%Z then None else segs !! Z.to_nat k.

(** [this.currentIndex >= this.segments.length] *)
Definition at_end (d : DictationMode) : bool :=
  (Z.of_nat (length (segments d)) <=? currentIndex d)%Z.

(** [opts.initialIndex || 0] for an integer or missing option. *)
Definition or_zero (k : option Z) : Z :=
  match k with Some k => k | None => 0%Z end.

(** The constructor of [DictationMode]; [els] is the page as it is handed
    to it and [initialIndex] is [opts.initialIndex]. *)
Definition new_DictationMode (segs : list Segment) (els : Elements)
    (initialIndex : option Z) : DictationMode :=
  {| segments := segs;
     elements := els;
     currentIndex :=
       Z.max 0 (Z.min (or_zero initialIndex)
                      (Z.max 0 (Z.of_nat (length segs) - 1)));
     isChecked := false;
     correctCount := 0;
     attempts := 0 |}.

Definition with_elements (d : DictationMode) (e : Elements) : DictationMode :=
  {| segments := segments d; elements := e; currentIndex := currentIndex d;
     isChecked := isChecked d; correctCount := correctCount d;
     attempts := attempts d |}.

(** [if (this.elements.btnReveal) this.elements.btnReveal.classList...] *)
Definition set_reveal_hidden (h : bool) (r : option bool) : option bool :=
  match r with Some _ => Some h | None => None end.

(** [showSummary()] *)
Definition showSummary (d : DictationMode) : DictationMode :=
  let e := elements d in
  with_elements d
    {| userInput_value := userInput_value e;
       userInput_disabled := userInput_disabled e;
       feedback_hidden := feedback_hidden e;
       feedbackContent := feedbackContent e;
       btnCheck_hidden := btnCheck_hidden e;
       btnNext_hidden := btnNext_hidden e;
       btnReveal_hidden := btnReveal_hidden e;
       exerciseApp_hidden := true;
       summaryScreen_hidden := false;
       finalScore := Some (correctCount d, length (segments d)) |}.

(** [render()] *)
Definition render (d : DictationMode) : DictationMode :=
  if at_end d then showSummary d
  else
    let e := elements d in
    {| segments := segments d;
       elements :=
         {| userInput_value := [];
            userInput_disabled := false;
            feedback_hidden := true;
            feedbackContent := feedbackContent e;
            btnCheck_hidden := false;
            btnNext_hidden := true;
            btnReveal_hidden := set_reveal_hidden true (btnReveal_hidden e);
            exerciseApp_hidden := exerciseApp_hidden e;
            summaryScreen_hidden := summaryScreen_hidden e;
            finalScore := finalScore e |};
       currentIndex := currentIndex d;
       isChecked := false;
       correctCount := correctCount d;
       attempts := 0 |}.

(** The writes to the page shared by the accepted branch of [checkAnswer]
    and by [revealAnswer]. *)
Definition done_elements (e : Elements) (value : jsstring) (fb : feedback)
  : Elements :=
  {| userInput_value := value;
     userInput_disabled := true;
     feedback_hidden := false;
     feedbackContent := fb;
     btnCheck_hidden := true;
     btnNext_hidden := false;
     btnReveal_hidden := set_reveal_hidden true (btnReveal_hidden e);
     exerciseApp_hidden := exerciseApp_hidden e;
     summaryScreen_hidden := summaryScreen_hidden e;
     finalScore := finalScore e |}.

(** The writes to the page of the branches of [checkAnswer] that leave the
    answer open: the feedback is shown, the input is enabled when [enable]
    is set, the reveal button is shown when [reveal] is set and it exists. *)
Definition retry_elements (e : Elements) (fb : feedback) (enable reveal : bool)
  : Elements :=
  {| userInput_value := userInput_value e;
     userInput_disabled := if enable then false else userInput_disabled e;
     feedback_hidden := false;
     feedbackContent := fb;
     btnCheck_hidden := btnCheck_hidden e;
     btnNext_hidden := btnNext_hidden e;
     btnReveal_hidden :=
       if reveal then set_reveal_hidden false (btnReveal_hidden e)
       else btnReveal_hidden e;
     exerciseApp_hidden := exerciseApp_hidden e;
     summaryScreen_hidden := summaryScreen_hidden e;
     finalScore := finalScore e |}.

Section Session.
Context `{StringHost}.

(** [isExactCorrect] *)
Definition isExactCorrect (userText : jsstring) (seg : Segment) : bool :=
  bool_decide (normalizeForCompare (Str userText)
               = normalizeForCompare (Str (correct_text seg))).

(** [isNearCorrect] *)
Definition isNearCorrect (alignment : list item) : bool :=
  (count_type missing alignment =? 0)
  && (count_type extra alignment =? 0)
  && (0 <? count_type near alignment).

(** [checkAnswer()]. [None] stands for a call that does not return
    normally: reading [seg.correct_text] of an [undefined] segment throws.
    The empty-input branch returns before the segment is dereferenced. *)
Definition checkAnswer (d : DictationMode) : option DictationMode :=
  if isChecked d then Some d
  else
    let seg := segment_at (segments d) (currentIndex d) in
    let userText := trim (userInput_value (elements d)) in
    if negb (truthy userText) then
      Some (with_elements d
              (retry_elements (elements d) AskForAnswer false false))
    else
      seg ← seg;
      let uWords := words userText in
      let cWords := words (trim (correct_text seg)) in
      alignment ← lcsAlign uWords cWords;
      let exactCount := count_type exact alignment in
      let nearCount := count_type near alignment in
      if isExactCorrect userText seg || isNearCorrect alignment then
        fb ← (if isExactCorrect userText seg
              then Some (ExactlyCorrect (correct_text seg))
              else NearlyCorrect nearCount
                     <$> diffString userText (correct_text seg));
        Some {| segments := segments d;
                elements :=
                  done_elements (elements d)
                    (userInput_value (elements d)) fb;
                currentIndex := currentIndex d;
                isChecked := true;
                correctCount := correctCount d + 1;
                attempts := attempts d |}
      else
        let attempts' := attempts d + 1 in
        let matchedWords := exactCount + nearCount in
        diff ← diffString userText (correct_text seg);
        Some {| segments := segments d;
                elements :=
                  retry_elements (elements d)
                    (Incorrect matchedWords (length cWords) diff)
                    true (MAX_ATTEMPTS <=? attempts');
                currentIndex := currentIndex d;
                isChecked := false;
                correctCount := correctCount d;
                attempts := attempts' |}.
End Session.

(** [revealAnswer()]; [None] when the current segment is [undefined] and
    the read of its text throws. *)
Definition revealAnswer (d : DictationMode) : option DictationMode :=
  seg ← segment_at (segments d) (currentIndex d);
  Some {| segments := segments d;
          elements :=
            done_elements (elements d) (correct_text seg)
              (Revealed (correct_text seg));
          currentIndex := currentIndex d;
          isChecked := true;
          correctCount := correctCount d;
          attempts := attempts d |}.

(** [nextSegment()], as far as the session state goes. The closing call of
    [playCurrentSegment()] only talks to the audio element. *)
Definition nextSegment (d : DictationMode) : DictationMode :=
  render {| segments := segments d; elements := elements d;
            currentIndex := (currentIndex d + 1)%Z;
            isChecked := isChecked d; correctCount := correctCount d;
            attempts := attempts d |}.

(** The user types [text] into the answer box. *)
Definition type_answer (text : jsstring) (d : DictationMode) : DictationMode :=
  let e := elements d in
  with_elements d
    {| userInput_value := text;
       userInput_disabled := userInput_disabled e;
       feedback_hidden := feedback_hidden e;
       feedbackContent := feedbackContent e;
       btnCheck_hidden := btnCheck_hidden e;
       btnNext_hidden := btnNext_hidden e;
       btnReveal_hidden := btnReveal_hidden e;
       exerciseApp_hidden := exerciseApp_hidden e;
       summaryScreen_hidden := summaryScreen_hidden e;
       finalScore := finalScore e |}.

(** A page before the first render, with or without a reveal button. *)
Definition blank_page (with_reveal : bool) : Elements :=
  {| userInput_value := [];
     userInput_disabled := false;
     feedback_hidden := true;
     feedbackContent := NoFeedback;
     btnCheck_hidden := false;
     btnNext_hidden := true;
     btnReveal_hidden := if with_reveal then Some true else None;
     exerciseApp_hidden := false;
     summaryScreen_hidden := true;
     finalScore := None |}.

(** ** Loading the segments: the [DOMContentLoaded] handler *)

(** A numeric field of a raw segment, by what the handler can see of it:
    [Missing] is [null] or [undefined], [Numeric q] a value that
    [parseFloat] reads as [q], [NotNumeric] one it reads as [NaN]. *)
Inductive rawnum := Missing | NotNumeric | Numeric (q : Q).

(** A segment as parsed from the JSON of the page. *)
Record RawSegment := {
  raw_type : jsval;
  raw_start_time : rawnum;
  raw_start : rawnum;
  raw_end_time : rawnum;
  raw_end : rawnum;
  raw_correct_text : jsval;
  raw_text : jsval;
  raw_hint : jsval
}.

(** [x != null ? x : y] on numeric fields. *)
Definition coalesce_num (x y : rawnum) : rawnum :=
  match x with Missing => y | _ => x end.

(** [parseFloat(x) || 0]: [NaN] and zero are falsy. *)
Definition parseFloat_or_zero (x : rawnum) : Q :=
  match x with
  | Numeric q => if Qeq_bool q 0 then 0%Q else q
  | Missing | NotNumeric => 0%Q
  end.

Section Loader.
Context `{StringHost}.

(** The callback of [filter]: segments without a type, and those of type
    [content] in any letter case, pass. *)
Definition is_content (s : RawSegment) : bool :=
  let t := toLowerCase (or_empty (raw_type s)) in
  if negb (truthy t) then true
  else bool_decide (t = js "content").

(** The callback of [map]. *)
Definition to_segment (idx : nat) (s : RawSegment) : Segment :=
  {| start_time :=
       parseFloat_or_zero (coalesce_num (raw_start_time s) (raw_start s));
     end_time :=
       parseFloat_or_zero (coalesce_num (raw_end_time s) (raw_end s));
     correct_text :=
       match raw_correct_text s with
       | Str t => t
       | Null | Undefined => or_empty (raw_text s)
       end;
     hint := or_empty (raw_hint s);
     order := idx + 1 |}.

(** [(rawSegments || []).filter(...).map(...)] *)
Definition load_segments (rawSegments : list RawSegment) : list Segment :=
  imap to_segment (filter (fun s => is_content s = true) rawSegments).

(** The rest of the handler, with the audio element present: no session
    without segments, otherwise the [DictationApp] constructor builds the
    [DictationMode] and renders it. *)
Definition start_session (rawSegments : list RawSegment) (els : Elements)
    (initialIndex : Z) : option DictationMode :=
  let segs := load_segments rawSegments in
  if length segs =? 0 then None
  else Some (render (new_DictationMode segs els (Some initialIndex))).
End Loader.


(** ** Segment playback: [AudioSeeker] on an event loop

    The closures that [seekAndPlay] leaves behind (listeners, timers,
    promise reactions) are kept as data; an [event] is one turn of the event
    loop. The callbacks [onPlay] and [onEnd] of a request are recorded in a
    log when they are called. *)

Record Request := {
  rid : nat;
  targetTime : Q;
  endTime : Q;
  continuous : bool
}.

(** The media element: [has_url] says that the source child or the element
    carries a URL, [src_set] that [audio.src] itself is usable; a [duration]
    of zero stands for an unknown one. *)
Record Audio := {
  has_url : bool;
  src_set : bool;
  duration : Q;
  readyState : nat;
  networkState : nat;
  currentTime : Q;
  paused : bool
}.

(** The closure state of one pass of [seekAndPlayInternal] that got to the
    seek: [seekCompleted], [attempts], and whether the [seeked] listener
    and the poll interval are still registered. *)
Record SeekJob := {
  job_req : Request;
  seekCompleted : bool;
  poll_attempts : nat;
  listening : bool;
  polling : bool
}.

(** Pending [setTimeout] callbacks. *)
Inductive timeout :=
| RetryInternal (r : Request)
| SetTimeThenStart (r : Request)
| StartLater (r : Request).

(** Pending reactions on the promise of [audio.play()]. *)
Inductive reaction :=
| ThenStarted (r : Request)
| AwaitInPlayThenSeek (r : Request).

Inductive callback := Started (id : nat) | Ended (id : nat).

#[global] Instance callback_eq_dec : EqDecision callback.
Proof. solve_decision. Defined.

Record Seeker := {
  audio : Audio;
  canplay_listeners : list Request;
  jobs : list SeekJob;
  timeouts : list (option timeout);
  plays : list (option reaction);
  checks : list (option Request);
  log : list callback
}.

Definition with_audio (s : Seeker) (a : Audio) : Seeker :=
  {| audio := a; canplay_listeners := canplay_listeners s; jobs := jobs s;
     timeouts := timeouts s; plays := plays s; checks := checks s;
     log := log s |}.

Definition set_time (a : Audio) (t : Q) : Audio :=
  {| has_url := has_url a; src_set := src_set a; duration := duration a;
     readyState := readyState a; networkState := networkState a;
     currentTime := t; paused := paused a |}.

Definition set_paused (a : Audio) (p : bool) : Audio :=
  {| has_url := has_url a; src_set := src_set a; duration := duration a;
     readyState := readyState a; networkState := networkState a;
     currentTime := currentTime a; paused := p |}.

(** [this.audio.load()]: the element starts over, paused at position zero
    and without data. *)
Definition load (a : Audio) : Audio :=
  {| has_url := has_url a; src_set := src_set a; duration := 0;
     readyState := 0; networkState := 2; currentTime := 0; paused := true |}.

(** [checkAudioReady(targetTime)]: the answer and the element, whose [src]
    the second test may assign. *)
Definition checkAudioReady (a : Audio) (target : Q) : bool * Audio :=
  if negb (has_url a) then (false, a)
  else if negb (src_set a) then
    (false,
     {| has_url := has_url a; src_set := true; duration := duration a;
        readyState := readyState a; networkState := networkState a;
        currentTime := currentTime a; paused := paused a |})
  else if Qeq_bool (duration a) 0 then (false, a)
  else if negb (Qle_bool 0 target) || Qle_bool (duration a) target
       then (false, a)
  else if readyState a <? 2 then (false, a)
  else (true, a).

(** [Math.abs(this.audio.currentTime - targetTime) < 0.5] *)
Definition near_target (a : Audio) (target : Q) : bool :=
  negb (Qle_bool (1 # 2) (Qabs (currentTime a - target))).

Definition add_timeout (t : timeout) (s : Seeker) : Seeker :=
  {| audio := audio s; canplay_listeners := canplay_listeners s;
     jobs := jobs s; timeouts := timeouts s ++ [Some t]; plays := plays s;
     checks := checks s; log := log s |}.

(** [this.audio.play()] with a reaction [k] left on its promise: the
    element stops being paused at once. *)
Definition play_with (k : reaction) (s : Seeker) : Seeker :=
  {| audio := set_paused (audio s) false;
     canplay_listeners := canplay_listeners s; jobs := jobs s;
     timeouts := timeouts s; plays := plays s ++ [Some k];
     checks := checks s; log := log s |}.

(** [startPlayback(endTime, onPlay, onEnd, continuous)] *)
Definition startPlayback (r : Request) (s : Seeker) : Seeker :=
  play_with (ThenStarted r) s.

(** [playThenSeek(...)] up to its [await]. *)
Definition playThenSeek (r : Request) (s : Seeker) : Seeker :=
  play_with (AwaitInPlayThenSeek r) s.

(** [seekAndPlayInternal()] for the request [r]. *)
Definition seekAndPlayInternal (r : Request) (s : Seeker) : Seeker :=
  let '(ready, a) := checkAudioReady (audio s) (targetTime r) in
  if ready then
    {| audio := set_time a (targetTime r);
       canplay_listeners := canplay_listeners s;
       jobs := jobs s ++ [{| job_req := r; seekCompleted := false;
                             poll_attempts := 0; listening := true;
                             polling := true |}];
       timeouts := timeouts s; plays := plays s; checks := checks s;
       log := log s |}
  else
    {| audio := if (networkState a =? 0) || (networkState a =? 3)
                then load a else a;
       canplay_listeners := canplay_listeners s ++ [r];
       jobs := jobs s; timeouts := timeouts s; plays := plays s;
       checks := checks s; log := log s |}.

Definition with_jobs (s : Seeker) (l : list SeekJob) : Seeker :=
  {| audio := audio s; canplay_listeners := canplay_listeners s; jobs := l;
     timeouts := timeouts s; plays := plays s; checks := checks s;
     log := log s |}.

(** The listener [onSeeked] of job number [k]. *)
Definition onSeeked (k : nat) (s : Seeker) : Seeker :=
  match jobs s !! k with
  | Some j =>
      if listening j then
        let s := with_jobs s
                   (<[k := {| job_req := job_req j; seekCompleted := true;
                              poll_attempts := poll_attempts j;
                              listening := false; polling := polling j |}]>
                      (jobs s)) in
        if near_target (audio s) (targetTime (job_req j))
        then startPlayback (job_req j) s
        else playThenSeek (job_req j) s
      else s
  | None => s
  end.

(** One tick of the poll interval of job number [k]. *)
Definition poll (k : nat) (s : Seeker) : Seeker :=
  match jobs s !! k with
  | Some j =>
      if negb (polling j) then s
      else if seekCompleted j then
        with_jobs s
          (<[k := {| job_req := job_req j; seekCompleted := true;
                     poll_attempts := poll_attempts j;
                     listening := listening j; polling := false |}]> (jobs s))
      else
        let n := poll_attempts j + 1 in
        if near_target (audio s) (targetTime (job_req j)) || (30 <=? n) then
          startPlayback (job_req j)
            (with_jobs s
               (<[k := {| job_req := job_req j; seekCompleted := true;
                          poll_attempts := n; listening := false;
                          polling := false |}]> (jobs s)))
        else
          with_jobs s
            (<[k := {| job_req := job_req j; seekCompleted := false;
                       poll_attempts := n; listening := listening j;
                       polling := true |}]> (jobs s))
  | None => s
  end.

Definition with_timeouts (s : Seeker) (l : list (option timeout)) : Seeker :=
  {| audio := audio s; canplay_listeners := canplay_listeners s;
     jobs := jobs s; timeouts := l; plays := plays s; checks := checks s;
     log := log s |}.

Definition with_plays (s : Seeker) (l : list (option reaction)) : Seeker :=
  {| audio := audio s; canplay_listeners := canplay_listeners s;
     jobs := jobs s; timeouts := timeouts s; plays := l; checks := checks s;
     log := log s |}.

(** The body of a [setTimeout] callback. *)
Definition run_timeout (t : timeout) (s : Seeker) : Seeker :=
  match t with
  | RetryInternal r => seekAndPlayInternal r s
  | SetTimeThenStart r =>
      add_timeout (StartLater r)
        (with_audio s (set_time (audio s) (targetTime r)))
  | StartLater r => startPlayback r s
  end.

(** The reaction to a settled [play()] promise: fulfilled when [ok]. In
    [startPlayback] the callback [onPlay] runs and, for a bounded request
    with a truthy end time, the interval [checkInterval] is started; a
    rejection is only written to the console. In [playThenSeek] the code
    after the [await] runs, or the [catch] block. *)
Definition run_reaction (k : reaction) (ok : bool) (s : Seeker) : Seeker :=
  match k with
  | ThenStarted r =>
      if ok then
        {| audio := audio s; canplay_listeners := canplay_listeners s;
           jobs := jobs s; timeouts := timeouts s; plays := plays s;
           checks :=
             if negb (continuous r) && negb (Qeq_bool (endTime r) 0)
             then checks s ++ [Some r] else checks s;
           log := log s ++ [Started (rid r)] |}
      else s
  | AwaitInPlayThenSeek r =>
      if ok then
        add_timeout (SetTimeThenStart r)
          (with_audio s (set_paused (audio s) true))
      else startPlayback r s
  end.

(** One tick of the interval [checkInterval] in slot [k]. *)
Definition check_end (k : nat) (s : Seeker) : Seeker :=
  match checks s !! k with
  | Some (Some r) =>
      if negb (paused (audio s)) && Qle_bool (endTime r) (currentTime (audio s))
      then
        {| audio := set_paused (audio s) true;
           canplay_listeners := canplay_listeners s; jobs := jobs s;
           timeouts := timeouts s; plays := plays s;
           checks := <[k := None]> (checks s);
           log := log s ++ [Ended (rid r)] |}
      else s
  | _ => s
  end.

(** One turn of the event loop. *)
Inductive event :=
| PlaySegment (r : Request)
| Stop
| SeekedEvent
| CanPlayEvent
| TimeoutFires (k : nat)
| PollFires (k : nat)
| PlaySettles (k : nat) (ok : bool)
| CheckFires (k : nat)
| Position (t : Q).

(** [DictationMode.playCurrentSegment()] on the seeker: the guarded
    [clearInterval(this.checkInterval)] never runs, since the field keeps
    the [null] of the constructor; the element is paused and the request
    handed to [seekAndPlay]. [DictationMode.stop()] likewise only pauses. *)
Definition playCurrentSegment (r : Request) (s : Seeker) : Seeker :=
  seekAndPlayInternal r (with_audio s (set_paused (audio s) true)).

Definition stop (s : Seeker) : Seeker :=
  with_audio s (set_paused (audio s) true).

Definition step (e : event) (s : Seeker) : Seeker :=
  match e with
  | PlaySegment r => playCurrentSegment r s
  | Stop => stop s
  | SeekedEvent =>
      (* every listener registered at dispatch runs, oldest first *)
      foldl (fun s k => onSeeked k s) s (seq 0 (length (jobs s)))
  | CanPlayEvent =>
      foldl (fun s r => add_timeout (RetryInternal r) s)
        {| audio := audio s; canplay_listeners := []; jobs := jobs s;
           timeouts := timeouts s; plays := plays s; checks := checks s;
           log := log s |}
        (canplay_listeners s)
  | TimeoutFires k =>
      match timeouts s !! k with
      | Some (Some t) =>
          run_timeout t (with_timeouts s (<[k := None]> (timeouts s)))
      | _ => s
      end
  | PollFires k => poll k s
  | PlaySettles k ok =>
      match plays s !! k with
      | Some (Some c) =>
          run_reaction c ok (with_plays s (<[k := None]> (plays s)))
      | _ => s
      end
  | CheckFires k => check_end k s
  | Position t =>
      if paused (audio s) then s else with_audio s (set_time (audio s) t)
  end.

Definition run (es : list event) (s : Seeker) : Seeker :=
  foldl (fun s e => step e s) s es.

(** A seeker on a loaded track of [d] seconds, at rest. *)
Definition idle_seeker (d : Q) : Seeker :=
  {| audio := {| has_url := true; src_set := true; duration := d;
                 readyState := 4; networkState := 1; currentTime := 0;
                 paused := true |};
     canplay_listeners := []; jobs := []; timeouts := []; plays := [];
     checks := []; log := [] |}.

Definition requestA : Request :=
  {| rid := 1; targetTime := 10; endTime := 13; continuous := false |}.

Definition requestB : Request :=
  {| rid := 2; targetTime := 20; endTime := 23; continuous := false |}.

(** * Vocabulary of the specification and worked data *)

(** The tolerance of the specification, by the length of the normalized
    reference word. *)
Definition spec_threshold (len t : nat) : Prop :=
  (len <= 3 /\ t = 0) \/ (4 <= len <= 5 /\ t = 1) \/ (6 <= len /\ t = 2).

(** A table of [r] rows of [c] cells. *)
Definition dims {A} (t : table A) (r c : nat) : Prop :=
  length t = r /\ Forall (fun row => length row = c) t.

(** The recurrence that the table of [levenshtein] tabulates, on two
    strings read from their last unit backwards: the first unit of [x]
    and [y] here is the last unit of a prefix there. *)
Fixpoint lev_rec (x : jsstring) : jsstring -> nat :=
  match x with
  | [] => fun y => length y
  | a :: x' =>
      fix inner (y : jsstring) : nat :=
        match y with
        | [] => length x
        | b :: y' =>
            if decide (a = b) then lev_rec x' y'
            else 1 + min3 (lev_rec x' y') (lev_rec x' y) (inner y')
        end
  end.

(** The entry the table of [levenshtein a b] should hold at [(i, j)]: the
    recurrence on the prefixes of [i] and [j] units. *)
Definition lev_entry (a b : jsstring) (i j : nat) : nat :=
  lev_rec (rev (take i a)) (rev (take j b)).

(** The cells that hold their final value when the inner loop is about to
    write [(i, k)]: the borders, the rows above, and the row [i] to the left
    of [k]. *)
Definition lev_filled (a b : jsstring) (i k : nat) (dp : table nat) : Prop :=
  dims dp (length a + 1) (length b + 1) /\
  forall i' j', i' <= length a -> j' <= length b ->
    i' = 0 \/ j' = 0 \/ i' < i \/ (i' = i /\ j' < k) ->
    get2 0 dp i' j' = lev_entry a b i' j'.

(** The three results of [wordMatchType]. *)
Definition is_match_tag (t : tag) : Prop := t = exact \/ t = near \/ t = wrong.

(** The shape of an alignment item, by its type. *)
Definition item_shape (it : item) : Prop :=
  (type it = missing -> userWord it = Null /\ correctWord it <> Null)
  /\ (type it = extra -> correctWord it = Null /\ userWord it <> Null)
  /\ (type it = exact \/ type it = near ->
      userWord it <> Null /\ correctWord it <> Null).

(** The [userWord] fields of the items that have one, in order, and the
    same for [correctWord]. *)
Definition user_words_of (r : list item) : list jsval :=
  map userWord (filter (fun it => userWord it <> Null) r).

Definition correct_words_of (r : list item) : list jsval :=
  map correctWord (filter (fun it => correctWord it <> Null) r).

(** A one-segment exercise for worked examples. *)
Definition fox : Segment :=
  {| start_time := 0; end_time := 2; correct_text := js "The quick fox";
     hint := []; order := 1 |}.

Definition fox_session (with_reveal : bool) : DictationMode :=
  render (new_DictationMode [fox] (blank_page with_reveal) None).

(** The acceptance rule of the specification, for the trimmed answer and
    the alignment of its words. *)
Definition spec_accepts `{StringHost} (userText : jsstring) (seg : Segment)
    (alignment : list item) : Prop :=
  normalizeForCompare (Str userText) = normalizeForCompare (Str (correct_text seg))
  \/ (count_type missing alignment = 0
      /\ count_type extra alignment = 0
      /\ 0 < count_type near alignment).

(** An answer that is not empty and that [checkAnswer] does not accept. *)
Definition rejected `{StringHost} (seg : Segment) (text : jsstring) : Prop :=
  trim text <> []
  /\ forall alignment,
       lcsAlign (words (trim text)) (words (trim (correct_text seg)))
         = Some alignment ->
       ~ spec_accepts (trim text) seg alignment.


Definition sound_raw : RawSegment :=
  {| raw_type := Str (js "Content");
     raw_start_time := Numeric 0; raw_start := Missing;
     raw_end_time := Numeric 2; raw_end := Missing;
     raw_correct_text := Str (js "The quick fox"); raw_text := Undefined;
     raw_hint := Undefined |}.


(** * Vocabulary of the further properties *)

(** ** Text helpers used to state properties *)

(** All units of [s] are white space. *)
Definition blank (s : jsstring) : Prop := Forall (fun c => is_space c = true) s.

(** No unit of [s] is white space. *)
Definition spaceless (s : jsstring) : Prop :=
  Forall (fun c => is_space c = false) s.

(** [ws.join(space)]: the strings of [ws] with one U+0020 between them. *)
Fixpoint join_sp (ws : list jsstring) : jsstring :=
  match ws with
  | [] => []
  | [w] => w
  | w :: ws' => w ++ 32%N :: join_sp ws'
  end.

(** The strings of [ws] that are not empty. *)
Definition nonempty_of (ws : list jsstring) : list jsstring :=
  filter (fun w => truthy w = true) ws.

(** The second half of [trim]: white space is dropped at the end. *)
Definition trim_end (s : jsstring) : jsstring := rev (trim_start (rev s)).

(** ** Alignments in general *)

Section Alignments.
Context `{StringHost}.

(** Word pairs that the aligner may link: [wordMatchType] does not answer
    [wrong]. *)
Definition matchable (w v : jsstring) : Prop :=
  wordMatchType (Str w) (Str v) <> wrong.

(** All the alignments of two word lists: every word of either list appears
    once, in order; a user word and a reference word share an item only when
    they are matchable, and the item carries their classification. *)
Inductive alignment_of : list jsstring -> list jsstring -> list item -> Prop :=
| al_nil : alignment_of [] [] []
| al_match w v u c r :
    matchable w v -> alignment_of u c r ->
    alignment_of (w :: u) (v :: c)
      (Item (wordMatchType (Str w) (Str v)) (Str w) (Str v) :: r)
| al_missing v u c r :
    alignment_of u c r ->
    alignment_of u (v :: c) (Item missing Null (Str v) :: r)
| al_extra w u c r :
    alignment_of u c r ->
    alignment_of (w :: u) c (Item extra (Str w) Null :: r).

(** The recurrence that the LCS table tabulates, on two word lists read
    from their last word backwards. *)
Fixpoint lcs_rec (x : list jsstring) : list jsstring -> nat :=
  match x with
  | [] => fun _ => 0
  | w :: x' =>
      fix inner (y : list jsstring) : nat :=
        match y with
        | [] => 0
        | v :: y' =>
            if decide (wordMatchType (Str w) (Str v) <> wrong)
            then lcs_rec x' y' + 1
            else Nat.max (lcs_rec x' y) (inner y')
        end
  end.

(** The entry the LCS table should hold at [(i, j)]. *)
Definition lcs_entry (u c : list jsstring) (i j : nat) : nat :=
  lcs_rec (rev (take i u)) (rev (take j c)).
End Alignments.

(** The number of linked pairs of an alignment: [exactCount + nearCount]. *)
Definition matched (r : list item) : nat :=
  count_type exact r + count_type near r.

(** The cells of the LCS table that hold their final value when the inner
    loop is about to write [(i, k)]. *)
Definition lcs_filled `{StringHost} (u c : list jsstring) (i k : nat)
    (dp : table nat) : Prop :=
  dims dp (length u + 1) (length c + 1) /\
  forall i' j', i' <= length u -> j' <= length c ->
    i' = 0 \/ j' = 0 \/ i' < i \/ (i' = i /\ j' < k) ->
    get2 0 dp i' j' = lcs_entry u c i' j'.

(** A host whose [toLowerCase] works unit by unit and turns no unit into or
    out of white space, as the lowering of ASCII letters does. *)
Definition unitwise (H : StringHost) : Prop :=
  exists f : char -> char,
    (forall s, @toLowerCase H s = map f s)
    /\ (forall c, is_space (f c) = is_space c).

(** ** The session driven by its event handlers *)

(** The session after a handler has run [checkAnswer()]: when the call
    throws, the fields are as before, since nothing is written ahead of the
    read of the missing segment. *)
Definition after_checkAnswer `{StringHost} (d : DictationMode)
  : DictationMode :=
  match checkAnswer d with
  | Some d' => d'
  | None => d
  end.

(** The session after a handler has run [revealAnswer()]: [isChecked] is
    assigned before the read of the segment's text, so it is set even when
    that read throws. *)
Definition after_revealAnswer (d : DictationMode) : DictationMode :=
  match revealAnswer d with
  | Some d' => d'
  | None =>
      {| segments := segments d; elements := elements d;
         currentIndex := currentIndex d; isChecked := true;
         correctCount := correctCount d; attempts := attempts d |}
  end.

(** What the user can do to the page, as wired by [setupEventListeners]:
    type into the answer box, click the three buttons, press Enter in the
    box. The reveal handler exists only when the page has the button; Enter
    advances on a checked segment and checks otherwise. A handler can run
    whether or not its button is shown. *)
Inductive action :=
| TypeText (text : jsstring)
| ClickCheck
| ClickReveal
| ClickNext
| PressEnter.

Definition do_action `{StringHost} (a : action) (d : DictationMode)
  : DictationMode :=
  match a with
  | TypeText text => type_answer text d
  | ClickCheck => after_checkAnswer d
  | ClickReveal =>
      match btnReveal_hidden (elements d) with
      | Some _ => after_revealAnswer d
      | None => d
      end
  | ClickNext => nextSegment d
  | PressEnter => if isChecked d then nextSegment d else after_checkAnswer d
  end.

Definition session_run `{StringHost} (actions : list action)
    (d : DictationMode) : DictationMode :=
  foldl (fun d a => do_action a d) d actions.

(** What holds of a session at every moment. *)
Definition session_inv (d : DictationMode) : Prop :=
  (0 <= currentIndex d)%Z
  /\ correctCount d
     <= (if at_end d then length (segments d)
         else Z.to_nat (currentIndex d) + (if isChecked d then 1 else 0))
  /\ (at_end d = true ->
      finalScore (elements d) = Some (correctCount d, length (segments d))
      /\ summaryScreen_hidden (elements d) = false)
  /\ (btnReveal_hidden (elements d) = Some false ->
      MAX_ATTEMPTS <= attempts d).

(** ** Counting what a seeker has in flight *)

Fixpoint count_if {A} (p : A -> bool) (l : list A) : nat :=
  match l with
  | [] => 0
  | x :: l' => (if p x then 1 else 0) + count_if p l'
  end.

Definition timeout_request (t : timeout) : Request :=
  match t with
  | RetryInternal r | SetTimeThenStart r | StartLater r => r
  end.

Definition reaction_request (k : reaction) : Request :=
  match k with
  | ThenStarted r | AwaitInPlayThenSeek r => r
  end.

(** A slot of a timer or promise list that is still pending, for a request
    selected by [q]. *)
Definition slot_for {A} (req : A -> Request) (q : Request -> bool)
    (o : option A) : bool :=
  match o with
  | Some x => q (req x)
  | None => false
  end.

(** The requests with the number [id]. *)
Definition has_id (id : nat) (r : Request) : bool := rid r =? id.

(** The closures in flight that can still lead to [onPlay] of a request
    selected by [q]: [canplay] listeners, seek jobs that have not completed,
    timers, and reactions on [play()] promises. *)
Definition pending_starts (q : Request -> bool) (s : Seeker) : nat :=
  count_if q (canplay_listeners s)
  + count_if (fun j => negb (seekCompleted j) && q (job_req j)) (jobs s)
  + count_if (slot_for timeout_request q) (timeouts s)
  + count_if (slot_for reaction_request q) (plays s).

(** The end checks still running for the requests selected by [q]. *)
Definition active_checks (q : Request -> bool) (s : Seeker) : nat :=
  count_if (slot_for (fun r : Request => r) q) (checks s).

Definition count_cb (c : callback) (l : list callback) : nat :=
  count_if (fun x => bool_decide (x = c)) l.

(** The requests of number [id] among the events. *)
Definition requests_for (id : nat) (es : list event) : nat :=
  count_if (fun e => match e with
                     | PlaySegment r => has_id id r
                     | _ => false
                     end) es.

(** A seek job whose [seeked] listener is still attached has not
    completed. *)
Definition jobs_ok (s : Seeker) : Prop :=
  Forall (fun j => listening j = true -> seekCompleted j = false) (jobs s).

(** In every prefix of the log, [onEnd] of a request has been called at
    most as often as its [onPlay]. *)
Definition ends_follow_starts (id : nat) (l : list callback) : Prop :=
  forall p, p `prefix_of` l -> count_cb (Ended id) p <= count_cb (Started id) p.

(** The invariant of the seeker for the request number [id], with [n]
    requests of that number issued so far. *)
Definition seeker_inv (id n : nat) (s : Seeker) : Prop :=
  jobs_ok s
  /\ pending_starts (has_id id) s + count_cb (Started id) (log s) <= n
  /\ active_checks (has_id id) s + count_cb (Ended id) (log s)
     <= count_cb (Started id) (log s)
  /\ ends_follow_starts id (log s).

(** [s'] has the log and the end checks of [s], keeps the seek jobs in
    order, and has [up] more and [down] fewer closures that can lead to
    [onPlay] of a request selected by [q]. *)
Definition moves_pending (q : Request -> bool) (up down : nat)
    (s s' : Seeker) : Prop :=
  pending_starts q s' + down = pending_starts q s + up
  /\ log s' = log s
  /\ checks s' = checks s
  /\ (jobs_ok s -> jobs_ok s').

(** A request for which [startPlayback] installs the end check: not
    continuous, and with a truthy end time. *)
Definition bounded (r : Request) : bool :=
  negb (continuous r) && negb (Qeq_bool (endTime r) 0).

Definition is_started (c : callback) : bool :=
  match c with Started _ => true | Ended _ => false end.

(** The invariant of a seeker that has only seen requests that are not
    [bounded]. *)
Definition unbounded_inv (s : Seeker) : Prop :=
  jobs_ok s
  /\ pending_starts bounded s = 0
  /\ checks s = []
  /\ Forall (fun c => is_started c = true) (log s).

(** The invariant of a seeker that has only seen requests with a negative
    start time: they wait for [canplay], or for the retry timer. *)
Definition waiting_inv (s : Seeker) : Prop :=
  jobs s = [] /\ plays s = [] /\ checks s = [] /\ log s = []
  /\ (paused (audio s) = true /\ currentTime (audio s) = 0%Q)
  /\ Forall (fun r => (targetTime r < 0)%Q) (canplay_listeners s)
  /\ Forall (fun o => match o with
                      | Some (RetryInternal r) => (targetTime r < 0)%Q
                      | Some _ => False
                      | None => True
                      end) (timeouts s).

(** ** The transcript view: navigation of [TranscriptMode]

    The part of [TranscriptMode] that decides which segment is active. The
    audio side of [playSegment] (the request to the seeker and its
    callbacks) does not write [activeIndex] and is left out. *)

Record TranscriptMode := {
  tr_segments : list Segment;
  activeIndex : Z
}.

(** The constructor: no segment is active. *)
Definition new_TranscriptMode (segs : list Segment) : TranscriptMode :=
  {| tr_segments := segs; activeIndex := -1 |}.

(** [highlightItem(idx)] *)
Definition highlightItem (idx : Z) (t : TranscriptMode) : TranscriptMode :=
  if (activeIndex t =? idx)%Z then t
  else {| tr_segments := tr_segments t; activeIndex := idx |}.

(** [playSegment(idx, continuous)] *)
Definition playSegment (idx : Z) (t : TranscriptMode) : TranscriptMode :=
  if (idx <? 0)%Z || (Z.of_nat (length (tr_segments t)) <=? idx)%Z then t
  else highlightItem idx t.

(** [cur >= s.start_time && cur < s.end_time] *)
Definition contains_time (cur : Q) (s : Segment) : bool :=
  Qle_bool (start_time s) cur && negb (Qle_bool (end_time s) cur).

(** [segments.findIndex(p)] from position [k] on; [-1] when no segment
    passes. *)
Fixpoint findIndex_from (k : nat) (p : Segment -> bool) (segs : list Segment)
  : Z :=
  match segs with
  | [] => (-1)%Z
  | s :: rest => if p s then Z.of_nat k else findIndex_from (S k) p rest
  end.

Definition findIndex (p : Segment -> bool) (segs : list Segment) : Z :=
  findIndex_from 0 p segs.

(** The listener of [timeupdate], with the transcript view visible or
    [hidden], at the position [cur]. *)
Definition on_timeupdate (hidden : bool) (cur : Q) (t : TranscriptMode)
  : TranscriptMode :=
  if hidden then t
  else
    let idx := findIndex (contains_time cur) (tr_segments t) in
    if negb (idx =? -1)%Z && negb (idx =? activeIndex t)%Z
    then highlightItem idx t
    else t.

(** What moves the active segment: the buttons, the arrow keys outside of
    input fields, [play()] (from the play button or a click on the progress
    bar), the [timeupdate] listener, and any other call of [playSegment] (a
    click on a list item, the timer of [handleEnd], [autoStartIfNeeded]). *)
Inductive nav :=
| NavPrev
| NavNext
| NavArrowRight
| NavArrowLeft
| NavReplay
| NavPlay
| NavPlaySegment (idx : Z)
| NavTimeUpdate (hidden : bool) (cur : Q).

Definition nav_step (e : nav) (t : TranscriptMode) : TranscriptMode :=
  let n := Z.of_nat (length (tr_segments t)) in
  match e with
  | NavPrev | NavArrowLeft =>
      let target := (activeIndex t - 1)%Z in
      playSegment (if (target <? 0)%Z then 0%Z else target) t
  | NavNext =>
      let target := (activeIndex t + 1)%Z in
      playSegment (if (n <=? target)%Z then 0%Z else target) t
  | NavArrowRight =>
      let target := (activeIndex t + 1)%Z in
      playSegment (if (n <=? target)%Z then (n - 1)%Z else target) t
  | NavReplay =>
      if (0 <=? activeIndex t)%Z then playSegment (activeIndex t) t else t
  | NavPlay =>
      if (activeIndex t <? 0)%Z then playSegment 0 t
      else playSegment (activeIndex t) t
  | NavPlaySegment idx => playSegment idx t
  | NavTimeUpdate hidden cur => on_timeupdate hidden cur t
  end.

Definition nav_run (es : list nav) (t : TranscriptMode) : TranscriptMode :=
  foldl (fun t e => nav_step e t) t es.

(** The active index is [-1] or the index of a segment. *)
Definition active_valid (t : TranscriptMode) : Prop :=
  activeIndex t = (-1)%Z
  \/ (0 <= activeIndex t < Z.of_nat (length (tr_segments t)))%Z.

(** * Properties *)

(** ** Word classification *)

Lemma threshold_of_spec len t : spec_threshold len t -> threshold_of len = t.
Proof.
  unfold spec_threshold, threshold_of. intros Ht.
  destruct (Nat.leb_spec len 3), (Nat.leb_spec len 5); lia.
Qed.

Lemma truthy_false_iff (s : jsstring) : truthy s = false <-> s = [].
Proof. destruct s; simpl; split; congruence. Qed.

(** C2. [wordMatchType] answers [wrong] when a normalized form is empty,
    [exact] when the two forms are equal, and otherwise [near] exactly when
    the tolerance for the length of the normalized reference word is
    positive and bounds the Levenshtein distance of the forms; [wrong] in
    the remaining case. *)
Theorem wordMatchType_classification `{StringHost}
    (userWord correctWord : jsval) (threshold : nat) :
  let u := normalizeWord userWord in
  let c := normalizeWord correctWord in
  spec_threshold (length c) threshold ->
  wordMatchType userWord correctWord =
    if decide (u = [] \/ c = []) then wrong
    else if decide (u = c) then exact
    else if decide (0 < threshold /\ levenshtein u c <= threshold) then near
    else wrong.
Proof.
  intros u c Ht. apply threshold_of_spec in Ht.
  unfold wordMatchType. fold u c. rewrite Ht.
  destruct (truthy u) eqn:Hu, (truthy c) eqn:Hc; cbn [negb orb];
    try (apply truthy_false_iff in Hu); try (apply truthy_false_iff in Hc);
    try (rewrite (decide_True (P := u = [] \/ c = []))
           by (first [left; assumption | right; assumption]);
         reflexivity).
  assert (Hu' : u <> []) by (intros E; rewrite E in Hu; discriminate).
  assert (Hc' : c <> []) by (intros E; rewrite E in Hc; discriminate).
  rewrite (decide_False (P := u = [] \/ c = []))
    by (intros [E|E]; [exact (Hu' E) | exact (Hc' E)]).
  destruct (decide (u = c)); [reflexivity|].
  destruct (Nat.eqb_spec threshold 0).
  - destruct (decide (0 < threshold /\ _)); [lia | reflexivity].
  - destruct (Nat.leb_spec (levenshtein u c) threshold);
      destruct (decide (0 < threshold /\ _)); reflexivity || lia.
Qed.

Lemma wordMatchType_classification_witness :
  spec_threshold (length (@normalizeWord ascii_host (Str (js "happy")))) 1 /\
  @wordMatchType ascii_host (Str (js "hapy")) (Str (js "happy")) = near.
Proof.
  split.
  - right; left. vm_compute. repeat split; lia.
  - rewrite (@wordMatchType_classification ascii_host
               (Str (js "hapy")) (Str (js "happy")) 1).
    + vm_compute. reflexivity.
    + right; left. vm_compute. repeat split; lia.
Defined.

(** ** The session *)

(** C10. The constructor clamps the resume index into the segment list: it
    is [max 0 (min initialIndex (length - 1))], zero when the index is
    missing or there are no segments, and for a non-empty list it is a valid
    position, never the terminal [segments.length]. *)
Theorem constructor_clamps_currentIndex
    (segs : list Segment) (els : Elements) (initialIndex : option Z) :
  let n := Z.of_nat (length segs) in
  let d := new_DictationMode segs els initialIndex in
  currentIndex d
    = Z.max 0 (Z.min (match initialIndex with Some k => k | None => 0 end)
                     (n - 1))
  /\ (initialIndex = None -> currentIndex d = 0%Z)
  /\ (segs = [] -> currentIndex d = 0%Z)
  /\ (segs <> [] ->
      (0 <= currentIndex d < n)%Z /\ currentIndex d <> n /\ at_end d = false).
Proof.
  intros n d. unfold d, at_end, new_DictationMode, or_zero; simpl. fold n.
  assert (0 <= n)%Z by (unfold n; lia).
  repeat split.
  - destruct initialIndex; lia.
  - intros ->. lia.
  - intros ->. simpl in *. destruct initialIndex; lia.
  - lia.
  - assert (n <> 0%Z) by (unfold n; destruct segs; simpl; [congruence | lia]).
    destruct initialIndex; lia.
  - assert (n <> 0%Z) by (unfold n; destruct segs; simpl; [congruence | lia]).
    destruct initialIndex; lia.
  - assert (n <> 0%Z) by (unfold n; destruct segs; simpl; [congruence | lia]).
    apply Z.leb_gt. destruct initialIndex; lia.
Qed.

(** C6. A submission that trims to the empty string returns before the
    segment is read and before any alignment: the call succeeds, the
    counters, the checked flag, the position and the reveal button keep
    their values, and on an unchecked segment only the request to enter an
    answer is shown. *)
Theorem checkAnswer_empty_input `{StringHost} (d : DictationMode) :
  trim (userInput_value (elements d)) = [] ->
  exists d',
    checkAnswer d = Some d'
    /\ attempts d' = attempts d
    /\ correctCount d' = correctCount d
    /\ isChecked d' = isChecked d
    /\ currentIndex d' = currentIndex d
    /\ segments d' = segments d
    /\ btnReveal_hidden (elements d') = btnReveal_hidden (elements d)
    /\ (isChecked d = false ->
        d' = with_elements d
               (retry_elements (elements d) AskForAnswer false false)).
Proof.
  intros Hempty. unfold checkAnswer.
  destruct (isChecked d) eqn:Hc.
  - exists d. repeat split; try reflexivity; try assumption. discriminate.
  - rewrite Hempty. simpl. eexists. split; [reflexivity|].
    simpl. repeat split; assumption || reflexivity.
Qed.

Lemma checkAnswer_empty_input_witness :
  exists d',
    @checkAnswer ascii_host
      (type_answer (js "   ") (new_DictationMode [] (blank_page true) None))
    = Some d' /\ attempts d' = 0.
Proof.
  destruct (@checkAnswer_empty_input ascii_host
              (type_answer (js "   ")
                 (new_DictationMode [] (blank_page true) None)))
    as (d' & Hd & Ha & _).
  - vm_compute. reflexivity.
  - exists d'. split; [exact Hd | exact Ha].
Defined.

(** ** Loops and tables *)

(** The invariant rule of a counting loop. *)
Lemma for_lt_invariant {St} (P : nat -> St -> Prop) lo hi body (s : St) :
  lo <= hi ->
  P lo s ->
  (forall k s, lo <= k < hi -> P k s -> P (k + 1) (body k s)) ->
  P hi (for_lt lo hi body s).
Proof.
  intros Hle H0 Hstep. unfold for_lt.
  replace hi with (lo + (hi - lo)) at 1 by lia.
  assert (Hn : hi - lo <= hi - lo) by lia. revert Hn.
  generalize (hi - lo) at 1 3 4 as n.
  induction n as [|n IH]; intros Hn.
  - simpl. rewrite Nat.add_0_r. exact H0.
  - rewrite seq_S, foldl_app. simpl.
    replace (lo + S n) with (lo + n + 1) by lia.
    apply Hstep; [lia|]. apply IH. lia.
Qed.

Lemma for_le_invariant {St} (P : nat -> St -> Prop) lo hi body (s : St) :
  lo <= hi + 1 ->
  P lo s ->
  (forall k s, lo <= k <= hi -> P k s -> P (k + 1) (body k s)) ->
  P (hi + 1) (for_le lo hi body s).
Proof.
  intros Hle H0 Hstep. unfold for_le.
  apply for_lt_invariant; [assumption.. |].
  intros k s' Hk. apply Hstep. lia.
Qed.

Lemma dims_make_table {A} r c (v : A) : dims (make_table r c v) r c.
Proof.
  split.
  - apply length_replicate.
  - apply Forall_replicate. apply length_replicate.
Qed.

Lemma get2_make_table {A} (d v : A) r c i j :
  i < r -> j < c -> get2 d (make_table r c v) i j = v.
Proof.
  intros Hi Hj. unfold get2, make_table.
  rewrite lookup_replicate_2 by assumption. cbv iota.
  rewrite lookup_replicate_2 by assumption. reflexivity.
Qed.

Lemma dims_row {A} (t : table A) r c i row :
  dims t r c -> t !! i = Some row -> i < r /\ length row = c.
Proof.
  intros [Hr Hc] Hrow. split.
  - rewrite <- Hr. eapply lookup_lt_Some; eassumption.
  - rewrite Forall_lookup in Hc. eapply Hc; eassumption.
Qed.

Lemma dims_set2 {A} (t : table A) r c i j v :
  dims t r c -> dims (set2 t i j v) r c.
Proof.
  intros Hd. unfold set2. destruct (t !! i) as [row|] eqn:Hrow; [|assumption].
  destruct (dims_row _ _ _ _ _ Hd Hrow) as [Hi Hlen].
  destruct Hd as [Hr Hc]. split.
  - rewrite length_insert. assumption.
  - apply Forall_insert; [assumption|]. rewrite length_insert. assumption.
Qed.

Lemma get2_set2_eq {A} (d : A) (t : table A) r c i j v :
  dims t r c -> i < r -> j < c -> get2 d (set2 t i j v) i j = v.
Proof.
  intros Hd Hi Hj. unfold get2, set2.
  destruct (lookup_lt_is_Some_2 t i) as [row Hrow]; [destruct Hd; lia|].
  rewrite Hrow.
  destruct (dims_row _ _ _ _ _ Hd Hrow) as [_ Hlen].
  rewrite list_lookup_insert_eq by (destruct Hd; lia). cbv iota.
  rewrite list_lookup_insert_eq by lia. reflexivity.
Qed.

Lemma get2_set2_ne {A} (d : A) (t : table A) i j i' j' v :
  i <> i' \/ j <> j' -> get2 d (set2 t i j v) i' j' = get2 d t i' j'.
Proof.
  intros Hne. unfold get2, set2.
  destruct (t !! i) as [row|] eqn:Hrow; [|reflexivity].
  destruct (decide (i = i')) as [<-|Hi].
  - rewrite list_lookup_insert_eq by (eapply lookup_lt_Some; eassumption).
    rewrite Hrow. cbv iota.
    rewrite list_lookup_insert_ne by (destruct Hne; congruence). reflexivity.
  - rewrite list_lookup_insert_ne by assumption. reflexivity.
Qed.

(** Writing a value with the property [P] keeps every cell in [P]. *)
Lemma set2_cells {A} (P : A -> Prop) (d : A) (t : table A) i j v :
  P v ->
  (forall i' j', P (get2 d t i' j')) ->
  forall i' j', P (get2 d (set2 t i j v) i' j').
Proof.
  intros Hv Ht i' j'.
  destruct (decide (i = i' /\ j = j')) as [[<- <-]|Hne].
  - unfold get2, set2. destruct (t !! i) as [row|] eqn:Hrow.
    + rewrite list_lookup_insert_eq by (eapply lookup_lt_Some; eassumption).
      cbv iota. destruct (decide (j < length row)).
      * rewrite list_lookup_insert_eq by assumption. assumption.
      * rewrite list_insert_ge by lia.
        specialize (Ht i j). unfold get2 in Ht. rewrite Hrow in Ht. exact Ht.
    + specialize (Ht i j). unfold get2 in Ht. rewrite Hrow in *. exact Ht.
  - rewrite get2_set2_ne; [apply Ht|].
    destruct (decide (i = i')); [right|left]; [|assumption].
    intros ->. apply Hne. split; [assumption | reflexivity].
Qed.

(** ** Levenshtein distance *)

Lemma lev_rec_nil_r x : lev_rec x [] = length x.
Proof. destruct x; reflexivity. Qed.

Lemma lev_rec_cons a b x y :
  lev_rec (a :: x) (b :: y) =
    if decide (a = b) then lev_rec x y
    else 1 + min3 (lev_rec x y) (lev_rec x (b :: y)) (lev_rec (a :: x) y).
Proof. reflexivity. Qed.

Lemma min3_swap x y z : min3 x y z = min3 x z y.
Proof. unfold min3. lia. Qed.

Lemma lev_rec_sym x : forall y, lev_rec x y = lev_rec y x.
Proof.
  induction x as [|a x IHx]; intros y.
  - rewrite lev_rec_nil_r. reflexivity.
  - induction y as [|b y IHy].
    + rewrite lev_rec_nil_r. reflexivity.
    + rewrite !lev_rec_cons.
      destruct (decide (a = b)) as [->|Hab].
      * rewrite decide_True by reflexivity. apply IHx.
      * rewrite decide_False by congruence.
        rewrite (IHx y), (IHx (b :: y)), IHy. rewrite min3_swap. reflexivity.
Qed.

Lemma lev_rec_refl x : lev_rec x x = 0.
Proof.
  induction x as [|a x IH]; [reflexivity|].
  rewrite lev_rec_cons, decide_True by reflexivity. exact IH.
Qed.

Section LevTable.
Variables a b : jsstring.

Local Abbreviation entry := (lev_entry a b).
Local Abbreviation filled := (lev_filled a b).

Lemma lev_entry_0_l j : j <= length b -> entry 0 j = j.
Proof.
  intros Hj. unfold lev_entry. simpl.
  rewrite length_rev, length_take. lia.
Qed.

Lemma lev_entry_0_r i : i <= length a -> entry i 0 = i.
Proof.
  intros Hi. unfold lev_entry. rewrite take_0. simpl.
  rewrite lev_rec_nil_r, length_rev, length_take. lia.
Qed.

Lemma rev_take_S {A} (l : list A) k x :
  l !! k = Some x -> rev (take (S k) l) = x :: rev (take k l).
Proof.
  intros Hk. erewrite take_S_r by eassumption.
  rewrite rev_app_distr. reflexivity.
Qed.

Lemma lev_entry_S i j :
  i < length a -> j < length b ->
  entry (S i) (S j) =
    if decide (a !! i = b !! j) then entry i j
    else 1 + min3 (entry i j) (entry i (S j)) (entry (S i) j).
Proof.
  intros Hi Hj. unfold lev_entry.
  destruct (lookup_lt_is_Some_2 a i Hi) as [ca Ha].
  destruct (lookup_lt_is_Some_2 b j Hj) as [cb Hb].
  rewrite (rev_take_S a i ca Ha), (rev_take_S b j cb Hb).
  rewrite lev_rec_cons, Ha, Hb.
  destruct (decide (ca = cb)) as [->|Hne].
  - rewrite decide_True by reflexivity. reflexivity.
  - rewrite decide_False by congruence. reflexivity.
Qed.

Lemma lev_entry_pred i j :
  1 <= i <= length a -> 1 <= j <= length b ->
  entry i j =
    if decide (a !! (i - 1) = b !! (j - 1)) then entry (i - 1) (j - 1)
    else 1 + min3 (entry (i - 1) (j - 1)) (entry (i - 1) j)
                  (entry i (j - 1)).
Proof.
  intros Hi Hj. destruct i as [|i]; [lia|]. destruct j as [|j]; [lia|].
  replace (S i - 1) with i by lia. replace (S j - 1) with j by lia.
  apply lev_entry_S; lia.
Qed.

Lemma lev_cell_filled i k dp :
  1 <= i <= length a -> 1 <= k <= length b ->
  filled i k dp -> filled i (k + 1) (lev_cell a b i k dp).
Proof.
  intros Hi Hk [Hd Hf]. split; [apply dims_set2; assumption|].
  intros i' j' Hi' Hj' Hcell. unfold lev_cell.
  destruct (decide (i = i' /\ k = j')) as [[<- <-]|Hne].
  - erewrite get2_set2_eq by (try eassumption; lia).
    rewrite !Hf by lia. symmetry. apply lev_entry_pred; assumption.
  - rewrite get2_set2_ne by lia. apply Hf; lia.
Qed.

Lemma lev_row_filled i dp :
  1 <= i <= length a ->
  filled i 1 dp ->
  filled (i + 1) 1
    (for_le 1 (length b) (fun j dp => lev_cell a b i j dp) dp).
Proof.
  intros Hi Hf.
  assert (Hrow : filled i (length b + 1)
            (for_le 1 (length b) (fun j dp => lev_cell a b i j dp) dp)).
  { apply (for_le_invariant (fun k dp => filled i k dp)); [lia | exact Hf |].
    intros k s Hk Hs. apply lev_cell_filled; assumption || lia. }
  destruct Hrow as [Hd Hrow]. split; [exact Hd|].
  intros i' j' Hi' Hj' Hcell. apply Hrow; lia.
Qed.

Lemma lev_borders_filled :
  filled 1 1
    (for_le 0 (length b) (fun j dp => set2 dp 0 j j)
       (for_le 0 (length a) (fun i dp => set2 dp i 0 i)
          (make_table (length a + 1) (length b + 1) 0))).
Proof.
  set (m := length a). set (n := length b).
  set (col k (dp : table nat) :=
         dims dp (m + 1) (n + 1) /\
         forall i, i < k -> get2 0 dp i 0 = i).
  assert (Hcol : col (m + 1)
            (for_le 0 m (fun i dp => set2 dp i 0 i)
               (make_table (m + 1) (n + 1) 0))).
  { apply (for_le_invariant col); [lia | |].
    - split; [apply dims_make_table|]. intros i Hi. lia.
    - intros k s Hk [Hd Hs]. split; [apply dims_set2; assumption|].
      intros i Hi. destruct (decide (k = i)) as [<-|Hne].
      + erewrite get2_set2_eq by (try eassumption; lia). reflexivity.
      + rewrite get2_set2_ne by lia. apply Hs. lia. }
  set (row k (dp : table nat) :=
         col (m + 1) dp /\ forall j, j < k -> get2 0 dp 0 j = j).
  assert (Hrow : row (n + 1)
            (for_le 0 n (fun j dp => set2 dp 0 j j)
               (for_le 0 m (fun i dp => set2 dp i 0 i)
                  (make_table (m + 1) (n + 1) 0)))).
  { apply (for_le_invariant row); [lia | |].
    - split; [exact Hcol|]. intros j Hj. lia.
    - intros k s Hk [[Hd Hc] Hr]. split; [split|].
      + apply dims_set2; assumption.
      + intros i Hi. destruct (decide (0 = i /\ k = 0)) as [[<- ->]|Hne].
        * erewrite get2_set2_eq by (try eassumption; lia). reflexivity.
        * rewrite get2_set2_ne by lia. apply Hc. lia.
      + intros j Hj. destruct (decide (k = j)) as [<-|Hne].
        * erewrite get2_set2_eq by (try eassumption; lia). reflexivity.
        * rewrite get2_set2_ne by lia. apply Hr. lia. }
  destruct Hrow as [[Hd Hc] Hr]. split; [exact Hd|].
  intros i' j' Hi' Hj' Hcell.
  destruct (decide (i' = 0)) as [->|Hi0].
  - rewrite Hr by lia. rewrite lev_entry_0_l; [reflexivity | assumption].
  - assert (j' = 0) as -> by lia.
    rewrite Hc by lia. rewrite lev_entry_0_r; [reflexivity | assumption].
Qed.

Lemma lev_table_filled :
  filled (length a + 1) 1 (lev_table a b).
Proof.
  unfold lev_table.
  apply (for_le_invariant (fun i dp => filled i 1 dp)); [lia | |].
  - apply lev_borders_filled.
  - intros i dp Hi Hf. apply lev_row_filled; assumption.
Qed.

(** The source computes the recurrence on the two strings read
    backwards. *)
Lemma levenshtein_lev_rec : levenshtein a b = lev_rec (rev a) (rev b).
Proof.
  unfold levenshtein.
  destruct (Nat.eqb_spec (length a) 0) as [Ha|Ha].
  - apply length_zero_iff_nil in Ha. subst a. simpl.
    rewrite length_rev. reflexivity.
  - destruct (Nat.eqb_spec (length b) 0) as [Hb|Hb].
    + apply length_zero_iff_nil in Hb. subst b. simpl.
      rewrite lev_rec_nil_r, length_rev. reflexivity.
    + destruct lev_table_filled as [_ Hf].
      rewrite Hf by lia. unfold lev_entry.
      rewrite !firstn_all. reflexivity.
Qed.
End LevTable.

(** C5. [levenshtein] gives zero on equal strings, the length of the other
    string when one is empty, and the same distance in both directions. *)
Theorem levenshtein_properties (a b s : jsstring) :
  levenshtein a a = 0
  /\ levenshtein [] s = length s
  /\ levenshtein s [] = length s
  /\ levenshtein a b = levenshtein b a.
Proof.
  split; [|split; [|split]].
  - rewrite levenshtein_lev_rec. apply lev_rec_refl.
  - reflexivity.
  - unfold levenshtein. destruct s; reflexivity.
  - rewrite !levenshtein_lev_rec. apply lev_rec_sym.
Qed.

(** ** The aligner *)

Lemma user_words_of_app r1 r2 :
  user_words_of (r1 ++ r2) = user_words_of r1 ++ user_words_of r2.
Proof. unfold user_words_of. rewrite list.filter_app, map_app. reflexivity. Qed.

Lemma correct_words_of_app r1 r2 :
  correct_words_of (r1 ++ r2) = correct_words_of r1 ++ correct_words_of r2.
Proof. unfold correct_words_of. rewrite list.filter_app, map_app. reflexivity. Qed.

Lemma index_pred (ws : list jsstring) k :
  1 <= k <= length ws ->
  exists w, index ws (k - 1) = Str w /\ take k ws = take (k - 1) ws ++ [w].
Proof.
  intros Hk. destruct (lookup_lt_is_Some_2 ws (k - 1)) as [w Hw]; [lia|].
  exists w. unfold index. rewrite Hw. split; [reflexivity|].
  replace k with (S (k - 1)) at 1 by lia. apply take_S_r. exact Hw.
Qed.

Lemma get2_make_table_any {A} (v : A) r c i j :
  get2 v (make_table r c v) i j = v.
Proof.
  unfold get2, make_table.
  destruct (replicate r (replicate c v) !! i) as [row|] eqn:Hrow;
    [|reflexivity].
  apply lookup_replicate in Hrow as [-> _].
  destruct (replicate c v !! j) as [x|] eqn:Hx; [|reflexivity].
  apply lookup_replicate in Hx as [-> _]. reflexivity.
Qed.

Section AlignProofs.
Context `{StringHost}.
Variables userWords correctWords : list jsstring.

Lemma wordMatchType_tag u c : is_match_tag (wordMatchType u c).
Proof.
  unfold wordMatchType, is_match_tag.
  repeat match goal with
         | |- context [if ?b then _ else _] => destruct b
         end; tauto.
Qed.

Lemma match_table_dims :
  dims (match_table userWords correctWords)
    (length userWords) (length correctWords).
Proof.
  unfold match_table.
  apply (for_lt_invariant (fun _ t => dims t _ _)); [lia | |].
  - apply dims_make_table.
  - intros i t _ Ht.
    apply (for_lt_invariant (fun _ t => dims t _ _)); [lia | exact Ht |].
    intros j t' _ Ht'. apply dims_set2. exact Ht'.
Qed.

Lemma match_table_cells i j :
  is_match_tag (get2 wrong (match_table userWords correctWords) i j).
Proof.
  revert i j. unfold match_table.
  apply (for_lt_invariant
           (fun _ t => forall i j, is_match_tag (get2 wrong t i j)));
    [lia | |].
  - intros i j. rewrite get2_make_table_any. right; right; reflexivity.
  - intros i t _ Ht.
    apply (for_lt_invariant
             (fun _ t => forall i j, is_match_tag (get2 wrong t i j)));
      [lia | exact Ht |].
    intros j t' _ Ht'. apply set2_cells; [apply wordMatchType_tag | exact Ht'].
Qed.

Lemma lcs_table_dims mt :
  dims (lcs_table userWords correctWords mt)
    (length userWords + 1) (length correctWords + 1).
Proof.
  unfold lcs_table.
  apply (for_le_invariant (fun _ t => dims t _ _)); [lia | |].
  - apply dims_make_table.
  - intros i t _ Ht.
    apply (for_le_invariant (fun _ t => dims t _ _)); [lia | exact Ht |].
    intros j t' _ Ht'. apply dims_set2. exact Ht'.
Qed.

Section Backtrack.
Variable mt : table tag.
Variable dp : table nat.
Hypothesis mt_cells : forall i j, is_match_tag (get2 wrong mt i j).

Local Abbreviation loop := (backtrack userWords correctWords mt dp).

Lemma via_match_true i j :
  via_match mt dp i j = true ->
  0 < i /\ 0 < j
  /\ (get2 wrong mt (i - 1) (j - 1) = exact
      \/ get2 wrong mt (i - 1) (j - 1) = near)
  /\ get2 0 dp i j = get2 0 dp (i - 1) (j - 1) + 1.
Proof.
  unfold via_match. rewrite !andb_true_iff, !Nat.ltb_lt, Nat.eqb_eq.
  rewrite bool_decide_eq_true.
  intros [[[Hi Hj] Hw] Hdp]. repeat split; try assumption.
  destruct (mt_cells (i - 1) (j - 1)) as [E|[E|E]]; [left | right |];
    try exact E. contradiction.
Qed.

Lemma prefer_missing_true i j :
  prefer_missing dp i j = true ->
  0 < j /\ (i = 0 \/ get2 0 dp (i - 1) j <= get2 0 dp i (j - 1)).
Proof.
  unfold prefer_missing.
  rewrite andb_true_iff, orb_true_iff, Nat.ltb_lt, Nat.eqb_eq, Nat.leb_le.
  tauto.
Qed.

Lemma prefer_missing_false i j :
  prefer_missing dp i j = false ->
  j = 0 \/ (0 < i /\ get2 0 dp i (j - 1) < get2 0 dp (i - 1) j).
Proof.
  unfold prefer_missing.
  rewrite andb_false_iff, orb_false_iff, Nat.ltb_ge, Nat.eqb_neq,
    Nat.leb_gt.
  lia.
Qed.

(** From a cursor inside the tables the loop returns, and what it puts
    in front of [res] spells out the first [i] user words and the first
    [j] reference words. *)
Lemma backtrack_shape fuel : forall i j res,
  i <= length userWords -> j <= length correctWords -> i + j <= fuel ->
  exists pre,
    loop fuel (Cursor i j res) = Some (pre ++ res)
    /\ user_words_of pre = map Str (take i userWords)
    /\ correct_words_of pre = map Str (take j correctWords)
    /\ Forall item_shape pre.
Proof.
  induction fuel as [|fuel IH]; intros i j res Hi Hj Hfuel.
  - assert (i = 0) as -> by lia. assert (j = 0) as -> by lia.
    exists []. simpl. repeat split; constructor.
  - simpl. unfold backtrack_guard; simpl.
    destruct ((0 <? i) || (0 <? j)) eqn:Hguard.
    2:{ apply orb_false_iff in Hguard as [Hi0 Hj0].
        apply Nat.ltb_ge in Hi0, Hj0.
        assert (i = 0) as -> by lia. assert (j = 0) as -> by lia.
        exists []. simpl. repeat split; constructor. }
    apply orb_true_iff in Hguard. rewrite !Nat.ltb_lt in Hguard.
    unfold backtrack_step; simpl.
    destruct (via_match mt dp i j) eqn:Hvia;
      [|destruct (prefer_missing dp i j) eqn:Hmiss].
    + apply via_match_true in Hvia as (Hi0 & Hj0 & Htag & _).
      destruct (index_pred userWords i) as (u & Hu & Htu); [lia|].
      destruct (index_pred correctWords j) as (c & Hc & Htc); [lia|].
      rewrite Hu, Hc.
      edestruct (IH (i - 1) (j - 1)) as (pre & Hrun & Hpu & Hpc & Hshape);
        [lia | lia | lia |].
      rewrite Hrun. eexists (pre ++ [_]).
      rewrite <- app_assoc. split; [reflexivity|].
      rewrite user_words_of_app, correct_words_of_app, Hpu, Hpc, Htu, Htc.
      rewrite !map_app. repeat split.
      apply Forall_app. split; [exact Hshape|].
      constructor; [|constructor].
      unfold item_shape; simpl.
      repeat split; intros; try discriminate;
        destruct Htag; congruence.
    + apply prefer_missing_true in Hmiss as [Hj0 _].
      destruct (index_pred correctWords j) as (c & Hc & Htc); [lia|].
      rewrite Hc.
      edestruct (IH i (j - 1)) as (pre & Hrun & Hpu & Hpc & Hshape);
        [lia | lia | lia |].
      rewrite Hrun. eexists (pre ++ [_]).
      rewrite <- app_assoc. split; [reflexivity|].
      rewrite user_words_of_app, correct_words_of_app, Hpu, Hpc, Htc.
      rewrite !map_app. unfold user_words_of. simpl.
      rewrite app_nil_r. repeat split.
      apply Forall_app. split; [exact Hshape|].
      constructor; [|constructor].
      unfold item_shape; simpl.
      repeat split; intros; try discriminate; try tauto.
      destruct H0; discriminate.
    + apply prefer_missing_false in Hmiss.
      assert (Hi0 : 0 < i) by lia.
      destruct (index_pred userWords i) as (u & Hu & Htu); [lia|].
      rewrite Hu.
      edestruct (IH (i - 1) j) as (pre & Hrun & Hpu & Hpc & Hshape);
        [lia | lia | lia |].
      rewrite Hrun. eexists (pre ++ [_]).
      rewrite <- app_assoc. split; [reflexivity|].
      rewrite user_words_of_app, correct_words_of_app, Hpu, Hpc, Htu.
      rewrite !map_app. unfold correct_words_of. simpl.
      rewrite app_nil_r. repeat split.
      apply Forall_app. split; [exact Hshape|].
      constructor; [|constructor].
      unfold item_shape; simpl.
      repeat split; intros; try discriminate; try tauto.
      destruct H0; discriminate.
Qed.
End Backtrack.

(** [lcsAlign] returns, and the alignment has the shape of the
    specification. *)
Lemma lcsAlign_returns :
  exists r,
    lcsAlign userWords correctWords = Some r
    /\ user_words_of r = map Str userWords
    /\ correct_words_of r = map Str correctWords
    /\ Forall item_shape r.
Proof.
  unfold lcsAlign.
  edestruct (backtrack_shape (match_table userWords correctWords)
               (lcs_table userWords correctWords
                  (match_table userWords correctWords))
               match_table_cells
               (length userWords + length correctWords)
               (length userWords) (length correctWords) [])
    as (pre & Hrun & Hu & Hc & Hshape); [lia..|].
  exists pre. rewrite app_nil_r in Hrun. rewrite !firstn_all in *.
  repeat split; assumption.
Qed.
End AlignProofs.

(** C3. For any two word arrays, empty ones included, [lcsAlign] returns an
    alignment; its items with a user word spell out [userWords] in order,
    its items with a reference word spell out [correctWords] in order, and
    every item has the fields its type requires. *)
Theorem lcsAlign_total_and_shaped `{StringHost}
    (userWords correctWords : list jsstring) :
  exists r,
    lcsAlign userWords correctWords = Some r
    /\ map userWord (filter (fun it => userWord it <> Null) r)
       = map Str userWords
    /\ map correctWord (filter (fun it => correctWord it <> Null) r)
       = map Str correctWords
    /\ Forall (fun it =>
         (type it = missing -> userWord it = Null /\ correctWord it <> Null)
         /\ (type it = extra -> correctWord it = Null /\ userWord it <> Null)
         /\ (type it = exact \/ type it = near ->
             userWord it <> Null /\ correctWord it <> Null)) r.
Proof. apply lcsAlign_returns. Qed.

(** C4. In the backtrack of [lcsAlign], at a step that is not taken through
    a match and with words left on both sides, [dp[i][j-1] >= dp[i-1][j]]
    makes the step emit a [missing] item for the reference word and keep the
    user word; a step emits an [extra] item only with [i > 0] and either
    [j = 0] or [dp[i][j-1] < dp[i-1][j]], and then it consumes the user
    word. *)
Theorem backtrack_prefers_missing `{StringHost}
    (userWords correctWords : list jsstring) (s : cursor) :
  let mt := match_table userWords correctWords in
  let dp := lcs_table userWords correctWords mt in
  let i := cur_i s in
  let j := cur_j s in
  let s' := backtrack_step userWords correctWords mt dp s in
  backtrack_guard s = true ->
  (via_match mt dp i j = false -> 0 < i -> 0 < j ->
   get2 0 dp i (j - 1) >= get2 0 dp (i - 1) j ->
   s' = Cursor i (j - 1)
          (Item missing Null (index correctWords (j - 1)) :: cur_result s))
  /\ (forall it rest, cur_result s' = it :: rest -> type it = extra ->
      0 < i
      /\ (j = 0 \/ get2 0 dp i (j - 1) < get2 0 dp (i - 1) j)
      /\ s' = Cursor (i - 1) j
                (Item extra (index userWords (i - 1)) Null :: cur_result s)).
Proof.
  intros mt dp i j s' Hguard. subst s'. unfold backtrack_step. fold i j.
  unfold backtrack_guard in Hguard. fold i j in Hguard.
  apply orb_true_iff in Hguard. rewrite !Nat.ltb_lt in Hguard.
  split.
  - intros Hvia Hi Hj Hdp. rewrite Hvia.
    assert (Hmiss : prefer_missing dp i j = true).
    { unfold prefer_missing.
      apply andb_true_iff. split; [apply Nat.ltb_lt; assumption|].
      apply orb_true_iff. right. apply Nat.leb_le. lia. }
    rewrite Hmiss. reflexivity.
  - intros it rest Hres Htype.
    destruct (via_match mt dp i j) eqn:Hvia.
    + apply via_match_true in Hvia as (_ & _ & Htag & _);
        [|apply match_table_cells].
      simpl in Hres. injection Hres as <- _. simpl in Htype.
      destruct Htag; congruence.
    + destruct (prefer_missing dp i j) eqn:Hmiss.
      * simpl in Hres. injection Hres as <- _. discriminate.
      * apply prefer_missing_false in Hmiss.
        repeat split; lia || reflexivity.
Qed.

Lemma backtrack_prefers_missing_witness :
  let u := words (js "a b") in
  let c := words (js "c a") in
  let mt := @match_table ascii_host u c in
  let dp := lcs_table u c mt in
  backtrack_step u c mt dp (Cursor 2 1 [])
  = Cursor 2 0 [Item missing Null (Str (js "c"))].
Proof.
  intros u c mt dp.
  apply (proj1 (@backtrack_prefers_missing ascii_host u c (Cursor 2 1 [])
                  eq_refl)).
  - vm_compute. reflexivity.
  - simpl. lia.
  - simpl. lia.
  - vm_compute. lia.
Defined.

(** ** Scoring an answer *)

Section Scoring.
Context `{StringHost}.

Lemma accepts_true_iff userText seg alignment :
  isExactCorrect userText seg || isNearCorrect alignment = true
  <-> spec_accepts userText seg alignment.
Proof.
  unfold spec_accepts, isExactCorrect, isNearCorrect.
  rewrite orb_true_iff, !andb_true_iff, bool_decide_eq_true,
    !Nat.eqb_eq, Nat.ltb_lt.
  tauto.
Qed.

Lemma truthy_true (s : jsstring) : s <> [] -> truthy s = true.
Proof. destruct s; [congruence | reflexivity]. Qed.

(** What [checkAnswer] does on an unchecked segment with an answer. *)
Lemma checkAnswer_unchecked (d : DictationMode) (seg : Segment) :
  let userText := trim (userInput_value (elements d)) in
  let cWords := words (trim (correct_text seg)) in
  isChecked d = false ->
  segment_at (segments d) (currentIndex d) = Some seg ->
  userText <> [] ->
  exists alignment diff,
    lcsAlign (words userText) cWords = Some alignment
    /\ checkAnswer d = Some
         (if isExactCorrect userText seg || isNearCorrect alignment then
            {| segments := segments d;
               elements :=
                 done_elements (elements d) (userInput_value (elements d))
                   (if isExactCorrect userText seg
                    then ExactlyCorrect (correct_text seg)
                    else NearlyCorrect (count_type near alignment) diff);
               currentIndex := currentIndex d;
               isChecked := true;
               correctCount := correctCount d + 1;
               attempts := attempts d |}
          else
            {| segments := segments d;
               elements :=
                 retry_elements (elements d)
                   (Incorrect
                      (count_type exact alignment + count_type near alignment)
                      (length cWords) diff)
                   true (MAX_ATTEMPTS <=? attempts d + 1);
               currentIndex := currentIndex d;
               isChecked := false;
               correctCount := correctCount d;
               attempts := attempts d + 1 |}).
Proof.
  intros userText cWords Hc Hseg Hne.
  destruct (lcsAlign_returns (words userText) cWords) as (al & Hal & _).
  destruct (lcsAlign_returns (words (trim userText)) cWords)
    as (diff & Hdiff & _).
  exists al, diff. split; [exact Hal|].
  unfold checkAnswer. rewrite Hc. fold userText.
  rewrite (truthy_true _ Hne). cbn [negb]. rewrite Hseg. cbn [mbind option_bind].
  fold cWords. rewrite Hal. cbn [mbind option_bind].
  unfold diffString. fold cWords. rewrite Hdiff.
  destruct (isExactCorrect userText seg); destruct (isNearCorrect al);
    reflexivity.
Qed.
End Scoring.

(** C1, as the code has it. On a segment that is not yet checked, an answer
    that is not empty after trimming is accepted exactly when the normalized
    answer equals the normalized reference or the alignment of the words has
    no [missing] item, no [extra] item and at least one [near] item; an
    accepted answer sets [isChecked] and adds one to [correctCount]; a
    rejected one reports the [exact] plus [near] items over the number of
    reference words. On a checked segment the call changes nothing. *)
Theorem checkAnswer_decision `{StringHost} (d : DictationMode) (seg : Segment) :
  let userText := trim (userInput_value (elements d)) in
  let cWords := words (trim (correct_text seg)) in
  segment_at (segments d) (currentIndex d) = Some seg ->
  userText <> [] ->
  (isChecked d = true -> checkAnswer d = Some d)
  /\ (isChecked d = false ->
      exists alignment d',
        lcsAlign (words userText) cWords = Some alignment
        /\ checkAnswer d = Some d'
        /\ (isChecked d' = true <-> spec_accepts userText seg alignment)
        /\ (spec_accepts userText seg alignment ->
            correctCount d' = correctCount d + 1 /\ attempts d' = attempts d)
        /\ (~ spec_accepts userText seg alignment ->
            correctCount d' = correctCount d
            /\ exists diff,
                 feedbackContent (elements d')
                 = Incorrect
                     (count_type exact alignment + count_type near alignment)
                     (length cWords) diff)).
Proof.
  intros userText cWords Hseg Hne. split.
  { intros Hc. unfold checkAnswer. rewrite Hc. reflexivity. }
  intros Hc.
  destruct (checkAnswer_unchecked d seg Hc Hseg Hne) as (al & diff & Hal & Hd).
  fold userText cWords in Hal, Hd.
  exists al. eexists. split; [exact Hal|]. split; [exact Hd|].
  pose proof (accepts_true_iff userText seg al) as Hacc.
  destruct (isExactCorrect userText seg || isNearCorrect al); simpl.
  - repeat split; tauto.
  - assert (Hn : ~ spec_accepts userText seg al)
      by (intros Ha; apply Hacc in Ha; discriminate).
    repeat split; try tauto; try discriminate.
    exists diff. reflexivity.
Qed.

Lemma checkAnswer_decision_witness :
  exists alignment d',
    @checkAnswer ascii_host (type_answer (js "the quik fox") (fox_session true))
    = Some d'
    /\ count_type near alignment = 1
    /\ isChecked d' = true.
Proof.
  destruct (@checkAnswer_decision ascii_host
              (type_answer (js "the quik fox") (fox_session true)) fox)
    as (_ & Hopen).
  - reflexivity.
  - vm_compute. discriminate.
  - destruct (Hopen eq_refl) as (al & d' & Hal & Hd & Hiff & _).
    exists al, d'. split; [exact Hd|].
    vm_compute in Hal. injection Hal as <-.
    split; [reflexivity|].
    apply Hiff. right. vm_compute. repeat split. lia.
Defined.

(** C1 as stated does not hold on a checked segment: after an accepted
    answer, a second call with the same answer, still equal to the reference
    after normalization, changes nothing and [correctCount] stays. *)
Lemma checkAnswer_checked_counterexample :
  exists d1 d2,
    @checkAnswer ascii_host
       (type_answer (js "the Quick fox") (fox_session true)) = Some d1
    /\ trim (userInput_value (elements d1)) <> []
    /\ @normalizeForCompare ascii_host
         (Str (trim (userInput_value (elements d1))))
       = @normalizeForCompare ascii_host (Str (correct_text fox))
    /\ @checkAnswer ascii_host d1 = Some d2
    /\ correctCount d2 = correctCount d1
    /\ correctCount d2 <> correctCount d1 + 1.
Proof.
  eexists. eexists. split; [vm_compute; reflexivity|].
  split; [vm_compute; discriminate|].
  split; [vm_compute; reflexivity|].
  split; [vm_compute; reflexivity|].
  split; [reflexivity | vm_compute; lia].
Qed.

(** ** Retry, reveal and advance *)

Section Reveal.
Context `{StringHost}.

(** A rejected answer on an unchecked segment: one more attempt, and the
    reveal button, if the page has one, is shown from the third on. *)
Lemma checkAnswer_rejected (d : DictationMode) (seg : Segment)
    (text : jsstring) :
  isChecked d = false ->
  segment_at (segments d) (currentIndex d) = Some seg ->
  rejected seg text ->
  exists d',
    checkAnswer (type_answer text d) = Some d'
    /\ segments d' = segments d
    /\ currentIndex d' = currentIndex d
    /\ isChecked d' = false
    /\ correctCount d' = correctCount d
    /\ attempts d' = attempts d + 1
    /\ btnReveal_hidden (elements d')
       = if MAX_ATTEMPTS <=? attempts d + 1
         then set_reveal_hidden false (btnReveal_hidden (elements d))
         else btnReveal_hidden (elements d).
Proof.
  intros Hc Hseg [Hne Hrej].
  destruct (checkAnswer_unchecked (type_answer text d) seg)
    as (al & diff & Hal & Hd); [assumption.. |].
  simpl in Hal, Hd. specialize (Hrej al Hal).
  destruct (isExactCorrect (trim text) seg || isNearCorrect al) eqn:Hacc.
  - apply accepts_true_iff in Hacc. contradiction.
  - eexists. split; [exact Hd|]. simpl. repeat split.
Qed.
End Reveal.

(** [nextSegment] moves on by one; the render resets the attempt state
    unless the position is now past the last segment. *)
Lemma nextSegment_spec (d : DictationMode) :
  currentIndex (nextSegment d) = (currentIndex d + 1)%Z
  /\ (at_end (nextSegment d) = false ->
      attempts (nextSegment d) = 0 /\ isChecked (nextSegment d) = false)
  /\ (at_end (nextSegment d) = true ->
      attempts (nextSegment d) = attempts d
      /\ isChecked (nextSegment d) = isChecked d
      /\ summaryScreen_hidden (elements (nextSegment d)) = false).
Proof.
  unfold nextSegment, render.
  match goal with |- context [if at_end ?x then _ else _] =>
    destruct (at_end x) eqn:Hend end.
  - split; [reflexivity|]. split.
    + intros Hno. unfold at_end in *. simpl in *. congruence.
    + intros _. repeat split.
  - split; [reflexivity|]. split.
    + intros _. split; reflexivity.
    + intros Hyes. unfold at_end in *. simpl in *. congruence.
Qed.

(** C7, as the code has it. Three rejected answers on a fresh segment bring
    [attempts] to [MAX_ATTEMPTS = 3] and show the reveal button when the
    page has one; [revealAnswer] then sets [isChecked] and keeps
    [correctCount] and [currentIndex]; [nextSegment] adds one to
    [currentIndex], and the render that follows resets [attempts] and
    [isChecked] when a segment is left, while past the last segment it shows
    the summary and keeps both. *)
Theorem three_rejections_then_reveal `{StringHost}
    (d : DictationMode) (seg : Segment) (t1 t2 t3 : jsstring) :
  isChecked d = false ->
  attempts d = 0 ->
  segment_at (segments d) (currentIndex d) = Some seg ->
  rejected seg t1 -> rejected seg t2 -> rejected seg t3 ->
  exists d1 d2 d3 d4,
    checkAnswer (type_answer t1 d) = Some d1
    /\ checkAnswer (type_answer t2 d1) = Some d2
    /\ checkAnswer (type_answer t3 d2) = Some d3
    /\ attempts d3 = MAX_ATTEMPTS /\ MAX_ATTEMPTS = 3
    /\ (forall h, btnReveal_hidden (elements d) = Some h ->
        btnReveal_hidden (elements d3) = Some false)
    /\ (btnReveal_hidden (elements d) = None ->
        btnReveal_hidden (elements d3) = None)
    /\ revealAnswer d3 = Some d4
    /\ isChecked d4 = true
    /\ correctCount d4 = correctCount d
    /\ currentIndex d4 = currentIndex d
    /\ currentIndex (nextSegment d4) = (currentIndex d + 1)%Z
    /\ (at_end (nextSegment d4) = false ->
        attempts (nextSegment d4) = 0 /\ isChecked (nextSegment d4) = false)
    /\ (at_end (nextSegment d4) = true ->
        attempts (nextSegment d4) = 3 /\ isChecked (nextSegment d4) = true
        /\ summaryScreen_hidden (elements (nextSegment d4)) = false).
Proof.
  intros Hc Ha Hseg H1 H2 H3.
  destruct (checkAnswer_rejected d seg t1 Hc Hseg H1)
    as (d1 & Hd1 & Hs1 & Hi1 & Hc1 & Hn1 & Ha1 & Hr1).
  rewrite <- Hs1, <- Hi1 in Hseg.
  destruct (checkAnswer_rejected d1 seg t2 Hc1 Hseg H2)
    as (d2 & Hd2 & Hs2 & Hi2 & Hc2 & Hn2 & Ha2 & Hr2).
  rewrite <- Hs2, <- Hi2 in Hseg.
  destruct (checkAnswer_rejected d2 seg t3 Hc2 Hseg H3)
    as (d3 & Hd3 & Hs3 & Hi3 & Hc3 & Hn3 & Ha3 & Hr3).
  rewrite <- Hs3, <- Hi3 in Hseg.
  rewrite Ha in Ha1. rewrite Ha1 in Ha2, Hr2. rewrite Ha2 in Ha3, Hr3.
  rewrite Ha in Hr1. simpl in Ha1, Ha2, Ha3, Hr1, Hr2, Hr3.
  rewrite Hr2, Hr1 in Hr3.
  exists d1, d2, d3. eexists.
  split; [exact Hd1|]. split; [exact Hd2|]. split; [exact Hd3|].
  split; [exact Ha3|]. split; [reflexivity|].
  split; [intros h Hh; rewrite Hr3, Hh; reflexivity|].
  split; [intros Hh; rewrite Hr3, Hh; reflexivity|].
  split; [unfold revealAnswer; rewrite Hseg; reflexivity|].
  split; [reflexivity|].
  split; [simpl; congruence|].
  split; [simpl; congruence|].
  destruct (nextSegment_spec
              {| segments := segments d3;
                 elements := done_elements (elements d3) (correct_text seg)
                               (Revealed (correct_text seg));
                 currentIndex := currentIndex d3; isChecked := true;
                 correctCount := correctCount d3; attempts := attempts d3 |})
    as (Hidx & Hmore & Hlast).
  simpl in Hidx, Hmore, Hlast.
  split; [rewrite Hidx; congruence|].
  split; [exact Hmore|].
  intros Hend. destruct (Hlast Hend) as (Hx & Hy & Hz).
  split; [rewrite Hx; exact Ha3|]. split; assumption.
Qed.

Lemma three_rejections_then_reveal_witness :
  exists d1 d2 d3,
    @checkAnswer ascii_host (type_answer (js "a dog") (fox_session true))
      = Some d1
    /\ @checkAnswer ascii_host (type_answer (js "a cat") d1) = Some d2
    /\ @checkAnswer ascii_host (type_answer (js "a cow") d2) = Some d3
    /\ attempts d3 = 3
    /\ btnReveal_hidden (elements d3) = Some false.
Proof.
  assert (Hrej : forall w, In w [js "a dog"; js "a cat"; js "a cow"] ->
                           @rejected ascii_host fox w).
  { intros w Hw. simpl in Hw.
    destruct Hw as [<-|[<-|[<-|[]]]];
      (split; [vm_compute; discriminate|];
       intros al Hal; vm_compute in Hal; injection Hal as <-;
       intros [Hx | (Hm & _)]; vm_compute in *; discriminate). }
  destruct (@three_rejections_then_reveal ascii_host (fox_session true) fox
              (js "a dog") (js "a cat") (js "a cow")
              eq_refl eq_refl eq_refl
              (Hrej _ (or_introl eq_refl))
              (Hrej _ (or_intror (or_introl eq_refl)))
              (Hrej _ (or_intror (or_intror (or_introl eq_refl)))))
    as (d1 & d2 & d3 & d4 & H1 & H2 & H3 & Ha & _ & Hb & _).
  exists d1, d2, d3.
  split; [exact H1|]. split; [exact H2|]. split; [exact H3|].
  split; [exact Ha|]. apply (Hb true). reflexivity.
Defined.

(** C7 as stated fails on a page without a reveal button and on the last
    segment: after three rejected answers nothing is there to show, and
    after the reveal [nextSegment] moves past the end, where the render
    shows the summary and leaves [attempts] at 3 and [isChecked] set. *)
Lemma reveal_last_segment_counterexample :
  exists d1 d2 d3 d4,
    @checkAnswer ascii_host (type_answer (js "a dog") (fox_session false))
      = Some d1
    /\ @checkAnswer ascii_host (type_answer (js "a cat") d1) = Some d2
    /\ @checkAnswer ascii_host (type_answer (js "a cow") d2) = Some d3
    /\ attempts d3 = 3
    /\ btnReveal_hidden (elements d3) = None
    /\ revealAnswer d3 = Some d4
    /\ currentIndex (nextSegment d4) = 1%Z
    /\ attempts (nextSegment d4) = 3
    /\ isChecked (nextSegment d4) = true.
Proof.
  do 4 eexists.
  split; [vm_compute; reflexivity|].
  split; [vm_compute; reflexivity|].
  split; [vm_compute; reflexivity|].
  split; [reflexivity|].
  split; [reflexivity|].
  split; [vm_compute; reflexivity|].
  repeat split.
Qed.

(** ** Loading *)

Section LoaderProofs.
Context `{StringHost}.

End LoaderProofs.



(** ** Playback requests *)

(** Neither a new request nor a stop takes anything back: the timers,
    promise reactions and end checks in flight stay as they are, and the
    seek jobs and [canplay] listeners of earlier requests stay registered. *)
Lemma request_cancels_nothing (r : Request) (s : Seeker) :
  timeouts (playCurrentSegment r s) = timeouts s
  /\ plays (playCurrentSegment r s) = plays s
  /\ checks (playCurrentSegment r s) = checks s
  /\ jobs s `prefix_of` jobs (playCurrentSegment r s)
  /\ canplay_listeners s `prefix_of` canplay_listeners (playCurrentSegment r s)
  /\ timeouts (stop s) = timeouts s
  /\ plays (stop s) = plays s
  /\ checks (stop s) = checks s
  /\ jobs (stop s) = jobs s
  /\ canplay_listeners (stop s) = canplay_listeners s.
Proof.
  unfold playCurrentSegment, seekAndPlayInternal, stop.
  destruct (checkAudioReady _ _) as [[|] a']; simpl;
    repeat split; try reflexivity; try apply prefix_app_r; reflexivity.
Qed.

(** C9, where the code departs from it. Request B is issued right after
    request A, before A has started. The [seeked] event reaches the
    listeners of both; A finds the position off its target and goes through
    [playThenSeek], B starts. Once the promises and timers of A have run,
    A's [onPlay] has fired as well, the position is back at A's start, and
    A's end check fires A's [onEnd]: two started callbacks, and the pair
    that completes is the one of the superseded request. *)
Theorem superseded_request_still_fires :
  log (run [PlaySegment requestA; PlaySegment requestB; SeekedEvent;
            PlaySettles 0 true; PlaySettles 1 true;
            TimeoutFires 0; TimeoutFires 1; PlaySettles 2 true;
            Position 13; CheckFires 1; CheckFires 0]
         (idle_seeker 60))
  = [Started 2; Started 1; Ended 1].
Proof. vm_compute. reflexivity. Qed.

(** Without any [seeked] event the polls alone give the same outcome. *)
Example superseded_request_polls :
  log (run ([PlaySegment requestA; PlaySegment requestB;
             PollFires 1; PlaySettles 0 true]
            ++ replicate 30 (PollFires 0) ++ [PlaySettles 1 true])
         (idle_seeker 60))
  = [Started 2; Started 1].
Proof. vm_compute. reflexivity. Qed.

(** ** The examples of the specification *)

Example levenshtein_kitten : levenshtein (js "kitten") (js "sitting") = 3.
Proof. vm_compute. reflexivity. Qed.

Example wordMatchType_P2 :
  @wordMatchType ascii_host (Str (js "cat")) (Str (js "cat")) = exact
  /\ @wordMatchType ascii_host (Str (js "cet")) (Str (js "cat")) = wrong
  /\ @wordMatchType ascii_host (Str (js "hapy")) (Str (js "happy")) = near
  /\ @wordMatchType ascii_host (Str (js "definately")) (Str (js "definitely"))
     = near.
Proof. vm_compute. repeat split. Qed.

Example lcsAlign_P4_near :
  @lcsAlign ascii_host (words (js "the quik fox")) (words (js "The quick fox"))
  = Some [Item exact (Str (js "the")) (Str (js "The"));
          Item near (Str (js "quik")) (Str (js "quick"));
          Item exact (Str (js "fox")) (Str (js "fox"))].
Proof. vm_compute. reflexivity. Qed.

Example lcsAlign_P4_missing :
  @lcsAlign ascii_host (words (js "the fox")) (words (js "The quick fox"))
  = Some [Item exact (Str (js "the")) (Str (js "The"));
          Item missing Null (Str (js "quick"));
          Item exact (Str (js "fox")) (Str (js "fox"))].
Proof. vm_compute. reflexivity. Qed.

Example lcsAlign_P5 :
  @lcsAlign ascii_host [] [js "alpha"; js "beta"]
  = Some [Item missing Null (Str (js "alpha"));
          Item missing Null (Str (js "beta"))].
Proof. vm_compute. reflexivity. Qed.

Example checkAnswer_P4_partial_score :
  feedbackContent <$>
    (elements <$>
       @checkAnswer ascii_host (type_answer (js "the fox") (fox_session true)))
  = Some (Incorrect 2 3
            [Item exact (Str (js "the")) (Str (js "The"));
             Item missing Null (Str (js "quick"));
             Item exact (Str (js "fox")) (Str (js "fox"))]).
Proof. vm_compute. reflexivity. Qed.

Example split_ws_keeps_empty_ends :
  split_ws (js " a  b ") = [[]; js "a"; js "b"; []]
  /\ words (js " a  b ") = [js "a"; js "b"]
  /\ split_ws [] = [[]].
Proof. vm_compute. repeat split. Qed.

Example single_request_P6 :
  log (run [PlaySegment requestA; SeekedEvent; PlaySettles 0 true;
            Position 11; CheckFires 0; Position 12; CheckFires 0;
            Position 13; CheckFires 0; CheckFires 0; PollFires 0]
         (idle_seeker 60))
  = [Started 1; Ended 1].
Proof. vm_compute. reflexivity. Qed.

(** * Further properties of the code *)

(** ** White space: [trim] and the split into words *)

Lemma trim_start_split s :
  exists p, s = p ++ trim_start s /\ blank p.
Proof.
  induction s as [|c s IH]; simpl.
  - exists []. split; [reflexivity | constructor].
  - destruct (is_space c) eqn:Hc.
    + destruct IH as (p & Hp & Hb). exists (c :: p). split.
      * simpl. congruence.
      * constructor; assumption.
    + exists []. split; [reflexivity | constructor].
Qed.

Lemma trim_start_head s c t :
  trim_start s = c :: t -> is_space c = false.
Proof.
  induction s as [|d s IH]; simpl; [discriminate|].
  destruct (is_space d) eqn:Hd; [exact IH|].
  intros [= <- <-]. exact Hd.
Qed.

Lemma trim_start_keep c s : is_space c = false -> trim_start (c :: s) = c :: s.
Proof. intros Hc. simpl. rewrite Hc. reflexivity. Qed.

Lemma trim_start_blank p s : blank p -> trim_start (p ++ s) = trim_start s.
Proof.
  induction 1 as [|c p Hc _ IH]; simpl; [reflexivity|]. rewrite Hc. exact IH.
Qed.

Lemma trim_start_nil_iff s : trim_start s = [] <-> blank s.
Proof.
  split.
  - intros Hs. destruct (trim_start_split s) as (p & Hp & Hb).
    rewrite Hs, app_nil_r in Hp. subst p. exact Hb.
  - intros Hb. rewrite <- (app_nil_r s). rewrite trim_start_blank by assumption.
    reflexivity.
Qed.

Lemma blank_rev s : blank (rev s) <-> blank s.
Proof.
  unfold blank. split; intros Hb.
  - rewrite <- (rev_involutive s). apply List.Forall_rev. exact Hb.
  - apply List.Forall_rev. exact Hb.
Qed.

Lemma trim_trim_end s : trim s = trim_end (trim_start s).
Proof. reflexivity. Qed.

Lemma trim_end_split s : exists q, s = trim_end s ++ q /\ blank q.
Proof.
  destruct (trim_start_split (rev s)) as (p & Hp & Hb).
  exists (rev p). split.
  - unfold trim_end. rewrite <- rev_app_distr, <- Hp, rev_involutive.
    reflexivity.
  - apply blank_rev. exact Hb.
Qed.

Lemma trim_end_blank s q : blank q -> trim_end (s ++ q) = trim_end s.
Proof.
  intros Hb. unfold trim_end. rewrite rev_app_distr.
  rewrite trim_start_blank by (apply blank_rev; exact Hb). reflexivity.
Qed.

Lemma trim_end_nil_iff s : trim_end s = [] <-> blank s.
Proof.
  unfold trim_end. split.
  - intros Hs. apply (f_equal (@rev _)) in Hs. rewrite rev_involutive in Hs.
    simpl in Hs. apply trim_start_nil_iff in Hs. apply blank_rev. exact Hs.
  - intros Hb. apply blank_rev in Hb. apply trim_start_nil_iff in Hb.
    rewrite Hb. reflexivity.
Qed.

Lemma trim_end_snoc s c : is_space c = false -> trim_end (s ++ [c]) = s ++ [c].
Proof.
  intros Hc. unfold trim_end. rewrite rev_app_distr. simpl. rewrite Hc.
  simpl. rewrite rev_involutive. reflexivity.
Qed.

Lemma trim_end_app a b :
  trim_end b <> [] -> trim_end (a ++ b) = a ++ trim_end b.
Proof.
  intros Hne. destruct (trim_end_split b) as (q & Hq & Hb).
  replace (a ++ b) with ((a ++ trim_end b) ++ q)
    by (rewrite <- app_assoc, <- Hq; reflexivity).
  rewrite trim_end_blank by assumption.
  destruct (trim_end b) as [|x t _] eqn:Ht using rev_ind; [congruence|].
  rewrite app_assoc. apply trim_end_snoc.
  unfold trim_end in Ht. apply (f_equal (@rev _)) in Ht.
  rewrite rev_involutive, rev_app_distr in Ht. simpl in Ht.
  eapply trim_start_head. exact Ht.
Qed.

Lemma trim_end_last s t c : trim_end s = t ++ [c] -> is_space c = false.
Proof.
  unfold trim_end. intros Ht. apply (f_equal (@rev _)) in Ht.
  rewrite rev_involutive, rev_app_distr in Ht. simpl in Ht.
  eapply trim_start_head. exact Ht.
Qed.

Lemma trim_end_keeps_head c s :
  is_space c = false -> exists t, trim_end (c :: s) = c :: t.
Proof.
  intros Hc. destruct (trim_end_split (c :: s)) as (q & Hq & Hb).
  destruct (trim_end (c :: s)) as [|d t] eqn:Ht.
  - simpl in Hq. subst q. inversion Hb; congruence.
  - simpl in Hq. injection Hq as <- _. exists t. reflexivity.
Qed.

Lemma trim_nil_iff s : trim s = [] <-> blank s.
Proof.
  rewrite trim_trim_end. split.
  - intros Hb. apply trim_end_nil_iff in Hb. apply trim_start_nil_iff.
    destruct (trim_start s) as [|c t] eqn:Ht; [reflexivity|].
    apply trim_start_head in Ht. inversion Hb; congruence.
  - intros Hb. apply trim_start_nil_iff in Hb. rewrite Hb. reflexivity.
Qed.

Lemma trim_infix s :
  exists p q, s = p ++ trim s ++ q /\ blank p /\ blank q.
Proof.
  destruct (trim_start_split s) as (p & Hp & Hbp).
  destruct (trim_end_split (trim_start s)) as (q & Hq & Hbq).
  exists p, q. rewrite trim_trim_end, <- Hq. auto.
Qed.

Lemma trim_spaceless s : spaceless s -> trim s = s.
Proof.
  intros Hs. rewrite trim_trim_end.
  assert (Hst : trim_start s = s).
  { destruct Hs as [|c s Hc _]; [reflexivity|]. apply trim_start_keep, Hc. }
  rewrite Hst. destruct s as [|x s _] using rev_ind; [reflexivity|].
  apply trim_end_snoc. apply Forall_app in Hs as [_ Hx].
  inversion Hx; assumption.
Qed.

Lemma trim_end_idem s : trim_end (trim_end s) = trim_end s.
Proof.
  destruct (trim_end s) as [|x t _] eqn:Ht using rev_ind; [reflexivity|].
  apply trim_end_snoc. eapply trim_end_last. exact Ht.
Qed.

(** [trim] is idempotent. *)
Lemma trim_idem s : trim (trim s) = trim s.
Proof.
  rewrite !trim_trim_end.
  destruct (trim_start s) as [|c t] eqn:Hs; [reflexivity|].
  apply trim_start_head in Hs.
  destruct (trim_end_keeps_head c t Hs) as (t' & Ht'). rewrite Ht'.
  rewrite trim_start_keep by assumption. rewrite <- Ht'. apply trim_end_idem.
Qed.

Lemma nonempty_of_app l1 l2 :
  nonempty_of (l1 ++ l2) = nonempty_of l1 ++ nonempty_of l2.
Proof. apply list.filter_app. Qed.

Lemma nonempty_of_cons_nil l : nonempty_of ([] :: l) = nonempty_of l.
Proof. reflexivity. Qed.

Lemma nonempty_of_cons w l :
  w <> [] -> nonempty_of (w :: l) = w :: nonempty_of l.
Proof. intros Hw. destruct w; [congruence | reflexivity]. Qed.

(** The words found from a scanner state do not depend on whether the
    scanner is inside a run of white space. *)
Lemma split_ws_from_inws s :
  nonempty_of (split_ws_from true [] s)
  = nonempty_of (split_ws_from false [] s).
Proof.
  destruct s as [|c s]; [reflexivity|]. simpl.
  destruct (is_space c); reflexivity.
Qed.

Lemma pieces_space cur c s :
  is_space c = true ->
  nonempty_of (split_ws_from false cur (c :: s))
  = nonempty_of [rev cur] ++ nonempty_of (split_ws_from false [] s).
Proof.
  intros Hc. simpl. rewrite Hc.
  change (rev cur :: split_ws_from true [] s)
    with ([rev cur] ++ split_ws_from true [] s).
  rewrite nonempty_of_app, split_ws_from_inws. reflexivity.
Qed.

Lemma pieces_char cur c s :
  is_space c = false ->
  split_ws_from false cur (c :: s) = split_ws_from false (c :: cur) s.
Proof. intros Hc. simpl. rewrite Hc. reflexivity. Qed.

Lemma pieces_blank_l p s :
  blank p ->
  nonempty_of (split_ws_from false [] (p ++ s))
  = nonempty_of (split_ws_from false [] s).
Proof.
  induction 1 as [|c p Hc _ IH]; [reflexivity|].
  simpl app. rewrite pieces_space by assumption. exact IH.
Qed.

Lemma pieces_blank_r q : blank q -> forall s cur,
  nonempty_of (split_ws_from false cur (s ++ q))
  = nonempty_of (split_ws_from false cur s).
Proof.
  intros Hq. induction s as [|c s IH]; intros cur.
  - simpl app. revert cur. induction Hq as [|c q Hc _ IH]; intros cur;
      [reflexivity|].
    rewrite pieces_space by assumption. rewrite IH.
    simpl. rewrite app_nil_r. reflexivity.
  - simpl app. destruct (is_space c) eqn:Hc.
    + rewrite !pieces_space by assumption. rewrite IH. reflexivity.
    + rewrite !pieces_char by assumption. apply IH.
Qed.

Lemma words_trim s : words (trim s) = words s.
Proof.
  destruct (trim_infix s) as (p & q & Hs & Hp & Hq).
  unfold words, split_ws. fold (nonempty_of (split_ws_from false [] (trim s))).
  fold (nonempty_of (split_ws_from false [] s)).
  rewrite Hs at 2. rewrite pieces_blank_l, pieces_blank_r by assumption.
  reflexivity.
Qed.

Lemma split_ws_from_spaceless s : forall inws cur,
  spaceless cur -> Forall spaceless (split_ws_from inws cur s).
Proof.
  induction s as [|c s IH]; intros inws cur Hcur; simpl.
  - constructor; [|constructor]. apply List.Forall_rev. exact Hcur.
  - destruct (is_space c) eqn:Hc.
    + destruct inws.
      * apply IH. constructor.
      * constructor; [apply List.Forall_rev; exact Hcur|].
        apply IH. constructor.
    + apply IH. constructor; assumption.
Qed.

Lemma words_spaceless s : Forall (fun w => w <> [] /\ spaceless w) (words s).
Proof.
  unfold words. apply list.Forall_forall. intros w Hw.
  apply list_elem_of_filter in Hw as [Ht Hin]. split.
  - intros ->. discriminate.
  - pose proof (split_ws_from_spaceless s false [] (Forall_nil _)) as Hall.
    rewrite list.Forall_forall in Hall. apply Hall. exact Hin.
Qed.

Lemma words_nil_iff s : words s = [] <-> blank s.
Proof.
  unfold words, split_ws.
  fold (nonempty_of (split_ws_from false [] s)). split.
  - assert (Hgen : forall cur,
              nonempty_of (split_ws_from false cur s) = [] ->
              blank s /\ cur = []).
    { induction s as [|c s IH]; intros cur Hn.
      - split; [constructor|]. simpl in Hn.
        destruct (rev cur) eqn:Hr; [|discriminate].
        apply (f_equal (@rev _)) in Hr. rewrite rev_involutive in Hr. exact Hr.
      - destruct (is_space c) eqn:Hc.
        + rewrite pieces_space in Hn by assumption.
          apply app_eq_nil in Hn as [Hcur Hrest].
          destruct (IH [] Hrest) as [Hb _]. split; [constructor; assumption|].
          simpl in Hcur. destruct (rev cur) eqn:Hr; [|discriminate].
          apply (f_equal (@rev _)) in Hr. rewrite rev_involutive in Hr.
          exact Hr.
        + rewrite pieces_char in Hn by assumption.
          destruct (IH _ Hn) as [_ Habs]. discriminate. }
    intros Hn. apply (Hgen [] Hn).
  - intros Hb. rewrite <- (app_nil_r s).
    rewrite pieces_blank_l by assumption. reflexivity.
Qed.

Lemma trim_start_app a b :
  trim_start a <> [] -> trim_start (a ++ b) = trim_start a ++ b.
Proof.
  induction a as [|c a IH]; simpl; [congruence|].
  destruct (is_space c); [exact IH | reflexivity].
Qed.

Lemma trim_blank_l p s : blank p -> trim (p ++ s) = trim s.
Proof.
  intros Hp. rewrite !trim_trim_end, trim_start_blank by assumption.
  reflexivity.
Qed.

Lemma trim_blank_r s q : blank q -> trim (s ++ q) = trim s.
Proof.
  intros Hq. rewrite !trim_trim_end.
  destruct (trim_start s) as [|c t] eqn:Hs.
  - apply trim_start_nil_iff in Hs.
    assert (Hall : blank (s ++ q)) by (apply Forall_app; split; assumption).
    apply trim_start_nil_iff in Hall. rewrite Hall. reflexivity.
  - rewrite trim_start_app by (rewrite Hs; discriminate).
    rewrite Hs. apply trim_end_blank. exact Hq.
Qed.

Lemma collapse_ws_from_true s :
  collapse_ws_from true s = collapse_ws_from false (trim_start s).
Proof.
  induction s as [|c s IH]; [reflexivity|]. simpl.
  destruct (is_space c) eqn:Hc; [exact IH|]. simpl. rewrite Hc. reflexivity.
Qed.

Lemma join_sp_single w : join_sp (nonempty_of [w]) = w.
Proof. destruct w; reflexivity. Qed.

Lemma join_sp_cons w ws :
  ws <> [] -> join_sp (w :: ws) = w ++ 32%N :: join_sp ws.
Proof. destruct ws; [congruence | reflexivity]. Qed.

Lemma length_trim_start s : length (trim_start s) <= length s.
Proof.
  induction s as [|c s IH]; simpl; [lia|].
  destruct (is_space c); simpl; lia.
Qed.

(** Collapsing the white space and trimming gives the words with single
    spaces between them; [cur] is a word under way. *)
Lemma trim_collapse_from n : forall s cur,
  length s <= n -> spaceless cur ->
  trim (rev cur ++ collapse_ws_from false s)
  = join_sp (nonempty_of (split_ws_from false cur s)).
Proof.
  induction n as [|n IH]; intros s cur Hlen Hcur.
  - destruct s; [|simpl in Hlen; lia]. simpl collapse_ws_from.
    rewrite app_nil_r. simpl split_ws_from. rewrite join_sp_single.
    apply trim_spaceless. apply List.Forall_rev. exact Hcur.
  - destruct s as [|c s].
    { simpl collapse_ws_from. rewrite app_nil_r. simpl split_ws_from.
      rewrite join_sp_single. apply trim_spaceless.
      apply List.Forall_rev. exact Hcur. }
    simpl in Hlen. destruct (is_space c) eqn:Hc.
    + rewrite pieces_space by assumption.
      simpl collapse_ws_from. rewrite Hc, collapse_ws_from_true.
      destruct (trim_start_split s) as (p & Hs & Hp).
      rewrite Hs at 2. rewrite pieces_blank_l by assumption.
      pose proof (length_trim_start s) as Hts.
      destruct (trim_start s) as [|d r] eqn:Hr.
      * simpl collapse_ws_from. simpl split_ws_from.
        rewrite nonempty_of_cons_nil. simpl (nonempty_of []).
        rewrite app_nil_r, join_sp_single.
        rewrite trim_blank_r by (repeat constructor).
        apply trim_spaceless. apply List.Forall_rev. exact Hcur.
      * pose proof (trim_start_head _ _ _ Hr) as Hd.
        rewrite pieces_char by assumption.
        assert (Hrec : trim (d :: collapse_ws_from false r)
                       = join_sp (nonempty_of (split_ws_from false [d] r))).
        { apply (IH r [d]); [simpl in Hts; lia|].
          constructor; [assumption | constructor]. }
        simpl collapse_ws_from. rewrite Hd.
        set (X := d :: collapse_ws_from false r) in *.
        set (P := nonempty_of (split_ws_from false [d] r)) in *.
        assert (HX : trim X = trim_end X)
          by (rewrite trim_trim_end; unfold X;
              rewrite trim_start_keep by assumption; reflexivity).
        assert (HXne : trim_end X <> []).
        { destruct (trim_end_keeps_head d (collapse_ws_from false r) Hd)
            as (t & Ht). unfold X. rewrite Ht. discriminate. }
        destruct cur as [|e cur] using rev_ind.
        -- simpl rev. simpl app.
           change (32%N :: X) with ([32%N] ++ X).
           rewrite trim_blank_l by (repeat constructor). exact Hrec.
        -- clear IHcur.
           assert (Hrc : exists a A, rev (cur ++ [e]) = a :: A
                                      /\ is_space a = false).
           { rewrite rev_app_distr. simpl. eexists _, _. split; [reflexivity|].
             apply Forall_app in Hcur as [_ He]. inversion He; assumption. }
           destruct Hrc as (a & A & HA & Ha). rewrite HA.
           rewrite nonempty_of_cons by discriminate.
           simpl (nonempty_of []). simpl app.
           assert (HPne : P <> []).
           { intros HP. rewrite HP in Hrec. simpl in Hrec.
             rewrite HX in Hrec. exact (HXne Hrec). }
           rewrite join_sp_cons by assumption.
           rewrite trim_trim_end, trim_start_keep by assumption.
           replace (a :: A ++ 32%N :: X) with ((a :: A ++ [32%N]) ++ X)
             by (simpl; rewrite <- app_assoc; reflexivity).
           rewrite trim_end_app by assumption.
           rewrite <- HX, Hrec. simpl. rewrite <- app_assoc. reflexivity.
    + rewrite pieces_char by assumption.
      simpl collapse_ws_from. rewrite Hc.
      replace (rev cur ++ c :: collapse_ws_from false s)
        with (rev (c :: cur) ++ collapse_ws_from false s)
        by (simpl; rewrite <- app_assoc; reflexivity).
      apply IH; [lia|]. constructor; assumption.
Qed.

Lemma trim_collapse_words s : trim (collapse_ws s) = join_sp (words s).
Proof.
  unfold collapse_ws, words, split_ws.
  apply (trim_collapse_from (length s) s []); [lia | constructor].
Qed.

(** ** More on the Levenshtein distance *)

Lemma lev_rec_zero_iff x : forall y, lev_rec x y = 0 <-> x = y.
Proof.
  induction x as [|a x IHx]; intros y.
  - simpl. destruct y; simpl; split; congruence.
  - induction y as [|b y IHy].
    + rewrite lev_rec_nil_r. simpl. split; congruence.
    + rewrite lev_rec_cons. destruct (decide (a = b)) as [->|Hab].
      * rewrite IHx. split; congruence.
      * split; [lia | congruence].
Qed.

Lemma lev_rec_bounds x : forall y,
  lev_rec x y <= Nat.max (length x) (length y)
  /\ length x <= length y + lev_rec x y
  /\ length y <= length x + lev_rec x y.
Proof.
  induction x as [|a x IHx]; intros y.
  - simpl. lia.
  - induction y as [|b y IHy].
    + rewrite lev_rec_nil_r. simpl. lia.
    + rewrite lev_rec_cons.
      pose proof (IHx y) as H1. pose proof (IHx (b :: y)) as H2.
      simpl length in *. unfold min3.
      destruct (decide (a = b)); lia.
Qed.

(** The distance is zero exactly on equal strings. *)
Lemma levenshtein_zero_iff a b : levenshtein a b = 0 <-> a = b.
Proof.
  rewrite levenshtein_lev_rec, lev_rec_zero_iff. split.
  - intros Hr. apply (f_equal (@rev _)) in Hr.
    rewrite !rev_involutive in Hr. exact Hr.
  - congruence.
Qed.

Lemma levenshtein_bounds a b :
  levenshtein a b <= Nat.max (length a) (length b)
  /\ length a <= length b + levenshtein a b
  /\ length b <= length a + levenshtein a b.
Proof.
  rewrite levenshtein_lev_rec.
  pose proof (lev_rec_bounds (rev a) (rev b)) as H.
  rewrite !length_rev in H. exact H.
Qed.

(** ** More on the classification of word pairs *)

Section ClassifyFacts.
Context `{StringHost}.

Lemma wordMatchType_exact_iff (u c : jsval) :
  wordMatchType u c = exact
  <-> normalizeWord u = normalizeWord c /\ normalizeWord u <> [].
Proof.
  unfold wordMatchType.
  destruct (truthy (normalizeWord u)) eqn:Hu;
    destruct (truthy (normalizeWord c)) eqn:Hc; cbn [negb orb].
  - assert (normalizeWord u <> []) by (intros E; rewrite E in Hu; discriminate).
    destruct (decide (normalizeWord u = normalizeWord c)) as [E|E].
    + split; [split; assumption | reflexivity].
    + split; [|tauto].
      destruct (threshold_of _ =? 0); [discriminate|].
      destruct (_ <=? _); discriminate.
  - apply truthy_false_iff in Hc. split; [discriminate|].
    intros [E Hn]. congruence.
  - apply truthy_false_iff in Hu. split; [discriminate | tauto].
  - apply truthy_false_iff in Hu. split; [discriminate | tauto].
Qed.

Lemma wordMatchType_near_inv (u c : jsval) :
  wordMatchType u c = near ->
  normalizeWord u <> normalizeWord c
  /\ 4 <= length (normalizeWord c)
  /\ 1 <= levenshtein (normalizeWord u) (normalizeWord c) <= 2
  /\ levenshtein (normalizeWord u) (normalizeWord c)
     <= threshold_of (length (normalizeWord c)).
Proof.
  unfold wordMatchType.
  destruct (negb (truthy (normalizeWord u)) || negb (truthy (normalizeWord c)));
    [discriminate|].
  destruct (decide (normalizeWord u = normalizeWord c)) as [E|E];
    [discriminate|].
  destruct (Nat.eqb_spec (threshold_of (length (normalizeWord c))) 0) as [T|T];
    [discriminate|].
  destruct (Nat.leb_spec (levenshtein (normalizeWord u) (normalizeWord c))
              (threshold_of (length (normalizeWord c)))) as [L|L];
    [|discriminate].
  intros _.
  assert (levenshtein (normalizeWord u) (normalizeWord c) <> 0)
    by (rewrite levenshtein_zero_iff; exact E).
  unfold threshold_of in *.
  destruct (Nat.leb_spec (length (normalizeWord c)) 3);
    destruct (Nat.leb_spec (length (normalizeWord c)) 5);
    repeat split; try assumption; lia.
Qed.
End ClassifyFacts.

(** ** The distance is a metric *)

(** Dropping the first unit of one string moves the distance by one at
    most. *)
Lemma lev_rec_drop_r x : forall y b, lev_rec x y <= 1 + lev_rec x (b :: y).
Proof.
  induction x as [|a x IHx]; intros y b; [simpl; lia|].
  assert (R : forall y, lev_rec (a :: x) y <= 1 + lev_rec x y).
  { intros [|c y']; [rewrite !lev_rec_nil_r; simpl; lia|].
    rewrite lev_rec_cons. destruct (decide (a = c)); [apply IHx|].
    unfold min3. lia. }
  rewrite lev_rec_cons. destruct (decide (a = b)); [apply R|].
  pose proof (R y) as R1. pose proof (IHx y b) as R2.
  unfold min3. lia.
Qed.

Lemma lev_rec_drop_l x y a : lev_rec x y <= 1 + lev_rec (a :: x) y.
Proof.
  rewrite (lev_rec_sym x), (lev_rec_sym (a :: x)). apply lev_rec_drop_r.
Qed.

Lemma lev_rec_cons_le a b x y :
  lev_rec (a :: x) (b :: y) <= 1 + lev_rec x y
  /\ lev_rec (a :: x) (b :: y) <= 1 + lev_rec x (b :: y)
  /\ lev_rec (a :: x) (b :: y) <= 1 + lev_rec (a :: x) y.
Proof.
  rewrite lev_rec_cons. destruct (decide (a = b)).
  - pose proof (lev_rec_drop_r x y b). pose proof (lev_rec_drop_l x y a). lia.
  - unfold min3. lia.
Qed.

Lemma lev_rec_cons_cases a b x y :
  (a = b /\ lev_rec (a :: x) (b :: y) = lev_rec x y)
  \/ lev_rec (a :: x) (b :: y) = 1 + lev_rec x y
  \/ lev_rec (a :: x) (b :: y) = 1 + lev_rec x (b :: y)
  \/ lev_rec (a :: x) (b :: y) = 1 + lev_rec (a :: x) y.
Proof.
  rewrite lev_rec_cons. destruct (decide (a = b)); [left; split; trivial|].
  right. unfold min3. lia.
Qed.

Lemma lev_rec_length_le x y : length x <= length y + lev_rec x y.
Proof.
  revert y. induction x as [|a x IHx]; intros y; [simpl; lia|].
  induction y as [|b y IHy]; [rewrite lev_rec_nil_r; simpl; lia|].
  rewrite lev_rec_cons. pose proof (IHx y). pose proof (IHx (b :: y)).
  simpl length in *. unfold min3. destruct (decide (a = b)); lia.
Qed.

Lemma lev_rec_triangle_by n : forall x y z,
  length x + length y + length z <= n ->
  lev_rec x z <= lev_rec x y + lev_rec y z.
Proof.
  induction n as [|n IH]; intros x y z Hn.
  - destruct x, y, z; simpl in Hn; lia.
  - destruct x as [|a x].
    { change (lev_rec [] z) with (length z).
      change (lev_rec [] y) with (length y).
      pose proof (lev_rec_length_le z y) as L.
      rewrite (lev_rec_sym z y) in L. lia. }
    destruct z as [|c z].
    { rewrite !lev_rec_nil_r.
      pose proof (lev_rec_length_le (a :: x) y). lia. }
    destruct y as [|b y].
    { rewrite lev_rec_nil_r.
      change (lev_rec [] (c :: z)) with (length (c :: z)).
      destruct (lev_rec_cons_le a c x z) as (L & _ & _).
      pose proof (lev_rec_length_le x z) as L1.
      pose proof (lev_rec_length_le z x) as L2.
      rewrite (lev_rec_sym z x) in L2.
      pose proof (lev_rec_bounds x z) as (L3 & _).
      simpl length. lia. }
    simpl length in Hn.
    destruct (lev_rec_cons_le a c x z) as (Z1 & Z2 & Z3).
    destruct (lev_rec_cons_cases a b x y) as [[Eab XY]|[XY|[XY|XY]]];
      destruct (lev_rec_cons_cases b c y z) as [[Ebc YZ]|[YZ|[YZ|YZ]]];
      rewrite XY, YZ;
      try (pose proof (IH x (b :: y) (c :: z) ltac:(simpl; lia)); lia);
      try (pose proof (IH (a :: x) (b :: y) z ltac:(simpl; lia)); lia);
      try (pose proof (IH (a :: x) y (c :: z) ltac:(simpl; lia)); lia);
      try (pose proof (IH (a :: x) y z ltac:(simpl; lia)); lia);
      try (pose proof (IH x y (c :: z) ltac:(simpl; lia)); lia);
      try (pose proof (IH x y z ltac:(simpl; lia)); lia).
    subst. rewrite lev_rec_cons. rewrite decide_True by reflexivity.
    apply IH. lia.
Qed.

(** X1. The distance of [levenshtein] is zero on equal strings only, obeys
    the triangle inequality, is at most the longer length, and at least the
    difference of the lengths. *)
Theorem levenshtein_metric (a b c : jsstring) :
  (levenshtein a b = 0 <-> a = b)
  /\ levenshtein a c <= levenshtein a b + levenshtein b c
  /\ levenshtein a b <= Nat.max (length a) (length b)
  /\ length a <= length b + levenshtein a b
  /\ length b <= length a + levenshtein a b.
Proof.
  split; [apply levenshtein_zero_iff|]. split.
  - rewrite !levenshtein_lev_rec.
    apply (lev_rec_triangle_by _ _ _ _ (Nat.le_refl _)).
  - apply levenshtein_bounds.
Qed.

(** ** Sentence normalization word by word *)

Lemma punct_not_space c : is_punct c = true -> is_space c = false.
Proof.
  unfold is_punct, punct_units. simpl. intros Hp.
  repeat (apply orb_true_iff in Hp as [Hp|Hp];
          [apply N.eqb_eq in Hp; subst; reflexivity|]).
  discriminate.
Qed.

Lemma ascii_host_unitwise : unitwise ascii_host.
Proof.
  exists lower_ascii. split; [reflexivity|].
  intros c. unfold lower_ascii.
  destruct ((65 <=? c) && (c <=? 90))%N eqn:Hr; [|reflexivity].
  apply andb_true_iff in Hr as [Hlo Hhi].
  apply N.leb_le in Hlo, Hhi.
  unfold is_space, space_units. simpl.
  repeat match goal with
         | |- context [N.eqb ?a ?b] =>
             replace (N.eqb a b) with false
               by (symmetry; apply N.eqb_neq; lia)
         end.
  reflexivity.
Qed.

Section Unitwise.
Variable f : char -> char.
Hypothesis f_space : forall c, is_space (f c) = is_space c.

Local Abbreviation g := (fun s : jsstring => strip_punct (map f s)).

Lemma lowered_app s t : g (s ++ t) = g s ++ g t.
Proof. unfold strip_punct. rewrite map_app, list.filter_app. reflexivity. Qed.

Lemma lowered_cons c s : g (c :: s) = g [c] ++ g s.
Proof. apply (lowered_app [c] s). Qed.

Lemma lowered_space c :
  is_space c = true -> g [c] = [f c] /\ is_space (f c) = true.
Proof.
  intros Hc. rewrite <- (f_space c) in Hc. split; [|exact Hc].
  unfold strip_punct. simpl map. rewrite filter_cons.
  destruct (decide (is_punct (f c) = false)) as [_|Hp]; [reflexivity|].
  apply not_false_iff_true, punct_not_space in Hp. congruence.
Qed.

Lemma lowered_char c :
  is_space c = false ->
  g [c] = [] \/ (g [c] = [f c] /\ is_space (f c) = false).
Proof.
  intros Hc. rewrite <- (f_space c) in Hc.
  unfold strip_punct. simpl map. rewrite filter_cons.
  destruct (decide (is_punct (f c) = false)); [right | left]; auto.
Qed.

Lemma lowered_spaceless w : spaceless w -> spaceless (g w).
Proof.
  induction 1 as [|c w Hc _ IH]; [constructor|].
  rewrite lowered_cons.
  destruct (lowered_char c Hc) as [-> | [-> Hfc]]; [exact IH|].
  constructor; assumption.
Qed.

Lemma lowered_split_inws s :
  nonempty_of (map g (split_ws_from true [] s))
  = nonempty_of (map g (split_ws_from false [] s)).
Proof.
  destruct s as [|c s]; [reflexivity|]. simpl.
  destruct (is_space c); reflexivity.
Qed.

Lemma lowered_split s : forall cur,
  nonempty_of (split_ws_from false (rev (g (rev cur))) (g s))
  = nonempty_of (map g (split_ws_from false cur s)).
Proof.
  induction s as [|c s IH]; intros cur.
  - simpl. rewrite rev_involutive. reflexivity.
  - rewrite lowered_cons. destruct (is_space c) eqn:Hc.
    + destruct (lowered_space c Hc) as [-> Hfc]. simpl app.
      rewrite pieces_space by assumption. rewrite rev_involutive.
      simpl split_ws_from. rewrite Hc. simpl map.
      rewrite (nonempty_of_app [_] (map _ _) : nonempty_of (_ :: _) = _).
      rewrite lowered_split_inws. f_equal.
      apply (IH []).
    + rewrite (pieces_char cur c s Hc), <- IH.
      simpl rev. rewrite lowered_app.
      destruct (lowered_char c Hc) as [-> | [-> Hfc]].
      * rewrite app_nil_r. reflexivity.
      * simpl app. rewrite pieces_char by assumption.
        rewrite rev_app_distr. reflexivity.
Qed.

Lemma nonempty_of_map_nonempty l :
  nonempty_of (map g (nonempty_of l)) = nonempty_of (map g l).
Proof.
  induction l as [|w l IH]; [reflexivity|].
  destruct w as [|x w]; [exact IH|].
  rewrite nonempty_of_cons by discriminate. simpl map.
  unfold nonempty_of in *. rewrite !filter_cons, IH. reflexivity.
Qed.

Lemma lowered_words s : words (g s) = nonempty_of (map g (words s)).
Proof.
  unfold words, split_ws.
  fold (nonempty_of (split_ws_from false [] s)).
  fold (nonempty_of (split_ws_from false [] (g s))).
  rewrite nonempty_of_map_nonempty. apply (lowered_split s []).
Qed.
End Unitwise.

Section ByWords.
Context `{StringHost}.

(** For any host, [normalizeForCompare] gives the words of the lowered text
    without its punctuation, single spaces between them. *)
Lemma normalizeForCompare_join (x : jsval) :
  normalizeForCompare x
  = join_sp (words (strip_punct (toLowerCase (or_empty x)))).
Proof. unfold normalizeForCompare. apply trim_collapse_words. Qed.

Lemma normalizeForCompare_words_of (s : jsstring) :
  unitwise H ->
  normalizeForCompare (Str s)
  = join_sp (nonempty_of (map (fun w => normalizeWord (Str w)) (words s))).
Proof.
  intros (f & Hf & Hsp). rewrite normalizeForCompare_join. simpl or_empty.
  rewrite Hf, (lowered_words f Hsp). f_equal. f_equal.
  pose proof (words_spaceless s) as Hw.
  induction Hw as [|w l [_ Hw] _ IH]; [reflexivity|].
  simpl map. rewrite IH. f_equal.
  unfold normalizeWord. simpl or_empty. rewrite Hf.
  symmetry. apply trim_spaceless. apply lowered_spaceless; assumption.
Qed.
End ByWords.

(** ** Joining words and splitting again *)

Lemma pieces_spaceless w : spaceless w -> forall cur s,
  split_ws_from false cur (w ++ s) = split_ws_from false (rev w ++ cur) s.
Proof.
  induction 1 as [|c w Hc _ IH]; intros cur s; [reflexivity|].
  simpl app. rewrite pieces_char by exact Hc. rewrite IH.
  simpl rev. rewrite <- app_assoc. reflexivity.
Qed.

Lemma words_join_sp ws :
  Forall (fun w => w <> [] /\ spaceless w) ws -> words (join_sp ws) = ws.
Proof.
  unfold words, split_ws.
  induction 1 as [|w ws [Hne Hsp] Hws IH]; [reflexivity|].
  fold (nonempty_of (split_ws_from false [] (join_sp (w :: ws)))).
  destruct ws as [|w2 ws].
  - simpl join_sp. rewrite <- (app_nil_r w) at 1.
    rewrite pieces_spaceless by exact Hsp. simpl.
    rewrite app_nil_r, rev_involutive. apply nonempty_of_cons. exact Hne.
  - change (join_sp (w :: w2 :: ws)) with (w ++ 32%N :: join_sp (w2 :: ws)).
    rewrite pieces_spaceless by exact Hsp.
    rewrite pieces_space by reflexivity.
    rewrite app_nil_r, rev_involutive.
    rewrite nonempty_of_cons by exact Hne.
    simpl. f_equal. exact IH.
Qed.

(** X2. For any host, [normalizeForCompare] gives the words of the lowered
    text without its punctuation, joined by single spaces: it is empty
    exactly when that text is all white space, splitting it gives the same
    words back, and it has no white space left to trim. *)
Theorem normalizeForCompare_canonical `{StringHost} (x : jsval) :
  let t := strip_punct (toLowerCase (or_empty x)) in
  normalizeForCompare x = join_sp (words t)
  /\ (normalizeForCompare x = [] <-> blank t)
  /\ words (normalizeForCompare x) = words t
  /\ trim (normalizeForCompare x) = normalizeForCompare x.
Proof.
  intros t. pose proof (normalizeForCompare_join x) as E. fold t in E.
  split; [exact E|]. split; [|split].
  - unfold normalizeForCompare. fold t. rewrite trim_nil_iff.
    rewrite <- (words_nil_iff t). rewrite <- (words_nil_iff (collapse_ws t)).
    rewrite <- (words_trim (collapse_ws t)).
    change (trim (collapse_ws t)) with (normalizeForCompare x).
    rewrite E, words_join_sp by apply words_spaceless. reflexivity.
  - rewrite E. apply words_join_sp, words_spaceless.
  - unfold normalizeForCompare. apply trim_idem.
Qed.

(** X3. With a unit-wise host, the text comparison goes word by word: the
    comparison string of a text is made of the normalized words of the
    text, those that are empty left out, with single spaces between them;
    so two texts whose words normalize alike compare as equal. *)
Theorem comparison_is_word_by_word `{StringHost} (s s' : jsstring) :
  unitwise H ->
  normalizeForCompare (Str s)
  = join_sp (nonempty_of (map (fun w => normalizeWord (Str w)) (words s)))
  /\ (nonempty_of (map (fun w => normalizeWord (Str w)) (words s))
      = nonempty_of (map (fun w => normalizeWord (Str w)) (words s')) ->
      normalizeForCompare (Str s) = normalizeForCompare (Str s')).
Proof.
  intros Hu. split; [apply normalizeForCompare_words_of; exact Hu|].
  intros E. rewrite !normalizeForCompare_words_of by exact Hu.
  rewrite E. reflexivity.
Qed.

Lemma comparison_is_word_by_word_witness :
  @normalizeForCompare ascii_host (Str (js "  The -- quick,  FOX! "))
  = @normalizeForCompare ascii_host (Str (js "the quick fox")).
Proof.
  apply (@comparison_is_word_by_word ascii_host).
  - exact ascii_host_unitwise.
  - reflexivity.
Defined.

(** X4. A [near] match is a small typo in a word of four units or more: the
    normalized words differ, by one or two edits and within the tolerance
    of the reference word, and their lengths differ by two at most. *)
Theorem near_match_is_small_typo `{StringHost} (u c : jsval) :
  wordMatchType u c = near ->
  normalizeWord u <> normalizeWord c
  /\ 4 <= length (normalizeWord c)
  /\ 1 <= levenshtein (normalizeWord u) (normalizeWord c) <= 2
  /\ levenshtein (normalizeWord u) (normalizeWord c)
     <= threshold_of (length (normalizeWord c))
  /\ length (normalizeWord u) <= length (normalizeWord c) + 2
  /\ length (normalizeWord c) <= length (normalizeWord u) + 2.
Proof.
  intros Hn. destruct (wordMatchType_near_inv u c Hn) as (Hne & H4 & Hd & Ht).
  destruct (levenshtein_bounds (normalizeWord u) (normalizeWord c))
    as (_ & H1 & H2).
  repeat split; try assumption; lia.
Qed.

Lemma near_match_is_small_typo_witness :
  @wordMatchType ascii_host (Str (js "quik")) (Str (js "Quick,")) = near
  /\ @levenshtein (@normalizeWord ascii_host (Str (js "quik")))
       (@normalizeWord ascii_host (Str (js "Quick,"))) <= 2.
Proof.
  split; [reflexivity|].
  apply (@near_match_is_small_typo ascii_host (Str (js "quik"))
           (Str (js "Quick,"))).
  reflexivity.
Defined.

(** ** Alignments: counts and optimality *)

Lemma count_type_app t r1 r2 :
  count_type t (r1 ++ r2) = count_type t r1 + count_type t r2.
Proof. unfold count_type. rewrite list.filter_app, length_app. reflexivity. Qed.

Lemma count_type_cons t it r :
  count_type t (it :: r)
  = (if decide (type it = t) then 1 else 0) + count_type t r.
Proof.
  unfold count_type. rewrite filter_cons.
  destruct (decide (type it = t)); reflexivity.
Qed.

Lemma count_type_rev t r : count_type t (rev r) = count_type t r.
Proof.
  induction r as [|it r IH]; [reflexivity|].
  simpl rev. rewrite count_type_app, IH, !count_type_cons.
  unfold count_type at 2. simpl. lia.
Qed.

Lemma matched_app r1 r2 : matched (r1 ++ r2) = matched r1 + matched r2.
Proof. unfold matched. rewrite !count_type_app. lia. Qed.

Lemma matched_rev r : matched (rev r) = matched r.
Proof. unfold matched. rewrite !count_type_rev. reflexivity. Qed.

Section AlignmentFacts.
Context `{StringHost}.

Lemma matchable_tag w v :
  matchable w v ->
  wordMatchType (Str w) (Str v) = exact \/ wordMatchType (Str w) (Str v) = near.
Proof.
  unfold matchable. intros Hm.
  destruct (wordMatchType_tag (Str w) (Str v)) as [E|[E|E]]; tauto.
Qed.

Lemma matched_cons_match w v r :
  matchable w v ->
  matched (Item (wordMatchType (Str w) (Str v)) (Str w) (Str v) :: r)
  = matched r + 1.
Proof.
  intros Hm. unfold matched. rewrite !count_type_cons. simpl.
  destruct (matchable_tag w v Hm) as [-> | ->]; simpl; lia.
Qed.

(** The counts of any alignment: each user word is in one [exact], [near]
    or [extra] item, each reference word in one [exact], [near] or
    [missing] item, and no item is [wrong]. *)
Lemma alignment_counts u c r :
  alignment_of u c r ->
  matched r + count_type extra r = length u
  /\ matched r + count_type missing r = length c
  /\ count_type wrong r = 0
  /\ length r + matched r = length u + length c.
Proof.
  induction 1 as [|w v u c r Hm _ IH|v u c r _ IH|w u c r _ IH].
  - repeat split.
  - rewrite matched_cons_match by assumption. rewrite !count_type_cons.
    simpl type. simpl length.
    destruct (matchable_tag w v Hm) as [-> | ->];
      repeat (destruct (decide _); try discriminate); lia.
  - unfold matched in *. rewrite !count_type_cons. simpl.
    repeat (destruct (decide _); try discriminate); lia.
  - unfold matched in *. rewrite !count_type_cons. simpl.
    repeat (destruct (decide _); try discriminate); lia.
Qed.

Lemma alignment_snoc_missing u c r v :
  alignment_of u c r ->
  alignment_of u (c ++ [v]) (r ++ [Item missing Null (Str v)]).
Proof.
  induction 1; simpl.
  - apply al_missing, al_nil.
  - apply al_match; assumption.
  - apply al_missing; assumption.
  - apply al_extra; assumption.
Qed.

Lemma alignment_snoc_extra u c r w :
  alignment_of u c r ->
  alignment_of (u ++ [w]) c (r ++ [Item extra (Str w) Null]).
Proof.
  induction 1; simpl.
  - apply al_extra, al_nil.
  - apply al_match; assumption.
  - apply al_missing; assumption.
  - apply al_extra; assumption.
Qed.

Lemma alignment_snoc_match u c r w v :
  matchable w v ->
  alignment_of u c r ->
  alignment_of (u ++ [w]) (c ++ [v])
    (r ++ [Item (wordMatchType (Str w) (Str v)) (Str w) (Str v)]).
Proof.
  intros Hm. induction 1; simpl.
  - apply al_match; [assumption | apply al_nil].
  - apply al_match; assumption.
  - apply al_missing; assumption.
  - apply al_extra; assumption.
Qed.

Lemma alignment_rev u c r :
  alignment_of u c r -> alignment_of (rev u) (rev c) (rev r).
Proof.
  induction 1; simpl.
  - apply al_nil.
  - apply alignment_snoc_match; assumption.
  - apply alignment_snoc_missing; assumption.
  - apply alignment_snoc_extra; assumption.
Qed.

Lemma lcs_rec_nil_r x : lcs_rec x [] = 0.
Proof. destruct x; reflexivity. Qed.

Lemma lcs_rec_cons w v x y :
  lcs_rec (w :: x) (v :: y) =
    if decide (wordMatchType (Str w) (Str v) <> wrong)
    then lcs_rec x y + 1
    else Nat.max (lcs_rec x (v :: y)) (lcs_rec (w :: x) y).
Proof. reflexivity. Qed.

(** One more word on either side raises the entry by at most one and never
    lowers it. *)
Lemma lcs_rec_step n : forall x y, length x + length y <= n ->
  (forall w, lcs_rec x y <= lcs_rec (w :: x) y <= lcs_rec x y + 1)
  /\ (forall v, lcs_rec x y <= lcs_rec x (v :: y) <= lcs_rec x y + 1).
Proof.
  induction n as [|n IH]; intros x y Hlen.
  - destruct x; [|simpl in Hlen; lia]. destruct y; [|simpl in Hlen; lia].
    split; intros w; simpl; lia.
  - split.
    + intros w. destruct y as [|v y]; [rewrite !lcs_rec_nil_r; lia|].
      simpl in Hlen.
      destruct (IH x y ltac:(lia)) as [H1 H2].
      rewrite lcs_rec_cons. specialize (H1 w). specialize (H2 v).
      destruct (decide _); lia.
    + intros v. destruct x as [|w x]; [simpl; lia|].
      simpl in Hlen.
      destruct (IH x y ltac:(lia)) as [H1 H2].
      rewrite lcs_rec_cons. specialize (H1 w). specialize (H2 v).
      destruct (decide _); lia.
Qed.

Lemma lcs_rec_mono_l w x y : lcs_rec x y <= lcs_rec (w :: x) y.
Proof. apply (lcs_rec_step (length x + length y)). lia. Qed.

Lemma lcs_rec_mono_r v x y : lcs_rec x y <= lcs_rec x (v :: y).
Proof. apply (lcs_rec_step (length x + length y)). lia. Qed.

(** No alignment links more pairs than the recurrence counts. *)
Lemma alignment_matched_le u c r :
  alignment_of u c r -> matched r <= lcs_rec u c.
Proof.
  induction 1 as [|w v u c r Hm _ IH|v u c r _ IH|w u c r _ IH].
  - reflexivity.
  - rewrite matched_cons_match by assumption. rewrite lcs_rec_cons.
    rewrite decide_True by exact Hm. lia.
  - apply Nat.le_trans with (lcs_rec u c); [|apply lcs_rec_mono_r].
    unfold matched in *. rewrite !count_type_cons. cbn [type].
    repeat (destruct (decide _); try discriminate). exact IH.
  - apply Nat.le_trans with (lcs_rec u c); [|apply lcs_rec_mono_l].
    unfold matched in *. rewrite !count_type_cons. cbn [type].
    repeat (destruct (decide _); try discriminate). exact IH.
Qed.
End AlignmentFacts.

(** ** The tables of the aligner *)

(** Two nested counting loops that write [f i j] to every cell. *)
Lemma fill_table {A} (f : nat -> nat -> A) (d : A) m n (t0 : table A) :
  dims t0 m n ->
  let t := for_lt 0 m (fun i t =>
             for_lt 0 n (fun j t => set2 t i j (f i j)) t) t0 in
  dims t m n /\ forall i j, i < m -> j < n -> get2 d t i j = f i j.
Proof.
  intros Hd t. subst t.
  cut ((fun i t => dims t m n /\
          forall i' j', i' < i -> i' < m -> j' < n ->
            get2 d t i' j' = f i' j') m
         (for_lt 0 m (fun i t =>
            for_lt 0 n (fun j t => set2 t i j (f i j)) t) t0)).
  { intros [Hdt Hrows]. split; [exact Hdt|].
    intros i j Hi Hj. apply Hrows; assumption. }
  apply for_lt_invariant; [lia | |].
  - split; [exact Hd|]. intros; lia.
  - intros i t Hi [Hdt Hrows].
    assert (Hrow : dims (for_lt 0 n (fun j t => set2 t i j (f i j)) t) m n /\
              forall i' j', i' < i \/ (i' = i /\ j' < n) -> i' < m -> j' < n ->
                get2 d (for_lt 0 n (fun j t => set2 t i j (f i j)) t) i' j'
                = f i' j').
    { apply (for_lt_invariant
               (fun k t => dims t m n /\
                  forall i' j', i' < i \/ (i' = i /\ j' < k) ->
                    i' < m -> j' < n -> get2 d t i' j' = f i' j'));
        [lia | |].
      - split; [exact Hdt|]. intros i' j' [Hlt|[_ Hlt]]; [|lia].
        intros. apply Hrows; assumption.
      - intros k t' Hk [Hdt' Hcells]. split; [apply dims_set2; exact Hdt'|].
        intros i' j' Hcell Hi' Hj'.
        destruct (decide (i = i' /\ k = j')) as [[<- <-]|Hne].
        + eapply get2_set2_eq; [exact Hdt' | lia | lia].
        + rewrite get2_set2_ne by lia. apply Hcells; lia. }
    destruct Hrow as [Hd' Hcells]. split; [exact Hd'|].
    intros i' j' Hlt Hi' Hj'. apply Hcells; lia.
Qed.

Section AlignerTables.
Context `{StringHost}.
Variables u c : list jsstring.

Local Abbreviation D := (lcs_entry u c).

Lemma match_table_get i j :
  i < length u -> j < length c ->
  get2 wrong (match_table u c) i j = wordMatchType (index u i) (index c j).
Proof.
  intros Hi Hj. unfold match_table.
  apply (fill_table (fun i j => wordMatchType (index u i) (index c j)));
    [apply dims_make_table | assumption..].
Qed.

Lemma lcs_entry_0_l j : D 0 j = 0.
Proof. reflexivity. Qed.

Lemma lcs_entry_0_r i : D i 0 = 0.
Proof. unfold lcs_entry. rewrite take_0. simpl. apply lcs_rec_nil_r. Qed.

Lemma lcs_entry_pred i j :
  1 <= i <= length u -> 1 <= j <= length c ->
  D i j = if decide (wordMatchType (index u (i - 1)) (index c (j - 1)) <> wrong)
          then D (i - 1) (j - 1) + 1
          else Nat.max (D (i - 1) j) (D i (j - 1)).
Proof.
  intros Hi Hj.
  destruct (index_pred u i Hi) as (w & Hw & Htw).
  destruct (index_pred c j Hj) as (v & Hv & Htv).
  rewrite Hw, Hv. unfold lcs_entry. rewrite Htw, Htv.
  rewrite !rev_app_distr. simpl rev. simpl app.
  rewrite lcs_rec_cons.
  destruct (decide _); [reflexivity|].
  rewrite <- (rev_involutive (take (i - 1) u)) at 1.
  replace (v :: rev (take (j - 1) c)) with (rev (take (j - 1) c ++ [v]))
    by (rewrite rev_app_distr; reflexivity).
  replace (w :: rev (take (i - 1) u)) with (rev (take (i - 1) u ++ [w]))
    by (rewrite rev_app_distr; reflexivity).
  rewrite rev_involutive. reflexivity.
Qed.

Lemma lcs_cell_filled i k dp :
  1 <= i <= length u -> 1 <= k <= length c ->
  lcs_filled u c i k dp ->
  lcs_filled u c i (k + 1) (lcs_cell (match_table u c) i k dp).
Proof.
  intros Hi Hk [Hd Hf]. split; [apply dims_set2; assumption|].
  intros i' j' Hi' Hj' Hcell. unfold lcs_cell.
  destruct (decide (i = i' /\ k = j')) as [[<- <-]|Hne].
  - erewrite get2_set2_eq by (try eassumption; lia).
    rewrite !Hf by lia. rewrite match_table_get by lia.
    symmetry. apply lcs_entry_pred; assumption.
  - rewrite get2_set2_ne by lia. apply Hf; lia.
Qed.

Lemma lcs_table_filled :
  lcs_filled u c (length u + 1) 1 (lcs_table u c (match_table u c)).
Proof.
  unfold lcs_table.
  apply (for_le_invariant (fun i dp => lcs_filled u c i 1 dp)); [lia | |].
  - split; [apply dims_make_table|].
    intros i' j' Hi' Hj' Hcell. rewrite get2_make_table by lia.
    destruct (decide (i' = 0)) as [->|Hi0]; [reflexivity|].
    assert (j' = 0) as -> by lia. symmetry. apply lcs_entry_0_r.
  - intros i dp Hi Hf.
    assert (Hrow : lcs_filled u c i (length c + 1)
              (for_le 1 (length c)
                 (fun j dp => lcs_cell (match_table u c) i j dp) dp)).
    { apply (for_le_invariant (fun k dp => lcs_filled u c i k dp));
        [lia | exact Hf |].
      intros k s Hk Hs. apply lcs_cell_filled; assumption || lia. }
    destruct Hrow as [Hd Hrow]. split; [exact Hd|].
    intros i' j' Hi' Hj' Hcell. apply Hrow; lia.
Qed.

(** Inside the table, [dp[i][j]] is the recurrence on the prefixes. *)
Lemma lcs_table_get i j :
  i <= length u -> j <= length c ->
  get2 0 (lcs_table u c (match_table u c)) i j = D i j.
Proof.
  intros Hi Hj. destruct lcs_table_filled as [_ Hf]. apply Hf; lia.
Qed.

(** From a cursor inside the tables, the loop returns a valid alignment of
    the two prefixes that links as many pairs as the table entry says. *)
Lemma backtrack_alignment fuel : forall i j res,
  i <= length u -> j <= length c -> i + j <= fuel ->
  exists pre,
    backtrack u c (match_table u c) (lcs_table u c (match_table u c)) fuel
      (Cursor i j res) = Some (pre ++ res)
    /\ alignment_of (take i u) (take j c) pre
    /\ matched pre = D i j.
Proof.
  induction fuel as [|fuel IH]; intros i j res Hi Hj Hfuel.
  - assert (i = 0) as -> by lia. assert (j = 0) as -> by lia.
    exists []. simpl. repeat split. apply al_nil.
  - simpl. unfold backtrack_guard; simpl.
    destruct ((0 <? i) || (0 <? j)) eqn:Hguard.
    2:{ apply orb_false_iff in Hguard as [Hi0 Hj0].
        apply Nat.ltb_ge in Hi0, Hj0.
        assert (i = 0) as -> by lia. assert (j = 0) as -> by lia.
        exists []. simpl. repeat split. apply al_nil. }
    apply orb_true_iff in Hguard. rewrite !Nat.ltb_lt in Hguard.
    unfold backtrack_step; simpl.
    set (mt := match_table u c). set (dp := lcs_table u c mt).
    assert (Hwrong : 0 < i -> 0 < j -> via_match mt dp i j = false ->
              D i j = Nat.max (D (i - 1) j) (D i (j - 1))).
    { intros Hi0 Hj0 Hvia. rewrite (lcs_entry_pred i j) by lia.
      destruct (decide _) as [Hm|Hm]; [|reflexivity].
      exfalso. unfold via_match in Hvia.
      apply Nat.ltb_lt in Hi0, Hj0. rewrite Hi0, Hj0 in Hvia.
      apply Nat.ltb_lt in Hi0, Hj0.
      unfold mt, dp in Hvia.
      rewrite match_table_get, !lcs_table_get in Hvia by lia.
      rewrite bool_decide_eq_true_2 in Hvia by exact Hm.
      rewrite (lcs_entry_pred i j) in Hvia by lia.
      rewrite decide_True in Hvia by exact Hm.
      rewrite Nat.eqb_refl in Hvia. discriminate. }
    assert (Hone : forall it, matched [it] =
              (if decide (type it = exact) then 1 else 0)
              + (if decide (type it = near) then 1 else 0)).
    { intros it. unfold matched. rewrite !count_type_cons.
      unfold count_type. simpl. lia. }
    destruct (via_match mt dp i j) eqn:Hvia;
      [|destruct (prefer_missing dp i j) eqn:Hmiss].
    + apply via_match_true in Hvia as (Hi0 & Hj0 & Htag & _);
        [|apply match_table_cells].
      unfold mt in *. rewrite match_table_get in * by lia.
      pose proof (lcs_entry_pred i j ltac:(lia) ltac:(lia)) as Hrec.
      destruct (index_pred u i) as (w & Hw & Htw); [lia|].
      destruct (index_pred c j) as (v & Hv & Htv); [lia|].
      rewrite Hw, Hv in *.
      assert (Hm : matchable w v)
        by (unfold matchable; destruct Htag as [E|E]; rewrite E; discriminate).
      rewrite decide_True in Hrec by exact Hm.
      edestruct (IH (i - 1) (j - 1)) as (pre & Hrun & Hal & Hcount);
        [lia | lia | lia |].
      rewrite Hrun. eexists (pre ++ [_]).
      rewrite <- app_assoc. split; [reflexivity|]. split.
      * rewrite Htw, Htv. apply alignment_snoc_match; assumption.
      * rewrite matched_app, Hcount, Hrec, Hone. simpl type.
        destruct Htag as [E|E]; rewrite E; simpl; lia.
    + apply prefer_missing_true in Hmiss as [Hj0 Hpref].
      destruct (index_pred c j) as (v & Hv & Htv); [lia|].
      rewrite Hv.
      edestruct (IH i (j - 1)) as (pre & Hrun & Hal & Hcount);
        [lia | lia | lia |].
      rewrite Hrun. eexists (pre ++ [_]).
      rewrite <- app_assoc. split; [reflexivity|]. split.
      * rewrite Htv. apply alignment_snoc_missing; assumption.
      * rewrite matched_app, Hcount, Hone. simpl.
        destruct (decide (i = 0)) as [->|Hi0]; [reflexivity|].
        rewrite (Hwrong ltac:(lia) ltac:(lia) eq_refl).
        destruct Hpref as [?|Hle]; [lia|].
        unfold dp in Hle. rewrite !lcs_table_get in Hle by lia. lia.
    + apply prefer_missing_false in Hmiss.
      assert (Hi0 : 0 < i) by lia.
      destruct (index_pred u i) as (w & Hw & Htw); [lia|].
      rewrite Hw.
      edestruct (IH (i - 1) j) as (pre & Hrun & Hal & Hcount);
        [lia | lia | lia |].
      rewrite Hrun. eexists (pre ++ [_]).
      rewrite <- app_assoc. split; [reflexivity|]. split.
      * rewrite Htw. apply alignment_snoc_extra; assumption.
      * rewrite matched_app, Hcount, Hone. simpl.
        destruct (decide (j = 0)) as [->|Hj0].
        { rewrite !lcs_entry_0_r. lia. }
        rewrite (Hwrong ltac:(lia) ltac:(lia) eq_refl).
        destruct Hmiss as [?|[_ Hlt]]; [lia|].
        unfold dp in Hlt. rewrite !lcs_table_get in Hlt by lia. lia.
Qed.

(** [lcsAlign] returns a valid alignment that links as many pairs as the
    last entry of the table. *)
Lemma lcsAlign_alignment :
  exists r,
    lcsAlign u c = Some r
    /\ alignment_of u c r
    /\ matched r = lcs_rec (rev u) (rev c).
Proof.
  unfold lcsAlign.
  destruct (backtrack_alignment (length u + length c)
              (length u) (length c) []) as (pre & Hrun & Hal & Hcount);
    [lia..|].
  exists pre. rewrite app_nil_r in Hrun. unfold lcs_entry in Hcount.
  rewrite !firstn_all in *. repeat split; assumption.
Qed.
End AlignerTables.

(** ** What the alignment guarantees *)

Section AlignerGuarantees.
Context `{StringHost}.

Lemma alignment_links u c r :
  alignment_of u c r ->
  Forall (fun it =>
    type it = exact \/ type it = near ->
    exists w v, userWord it = Str w /\ correctWord it = Str v
                /\ wordMatchType (Str w) (Str v) = type it) r.
Proof.
  induction 1; constructor; try assumption; simpl.
  - intros _. eauto.
  - intros [?|?]; discriminate.
  - intros [?|?]; discriminate.
Qed.

Lemma alignment_no_reference u r :
  alignment_of u [] r -> r = map (fun w => Item extra (Str w) Null) u.
Proof.
  revert r. induction u as [|w u IH]; intros r Hal.
  - inversion Hal. reflexivity.
  - inversion Hal as [| | |w' u' c' r' Hr]; subst. simpl. f_equal.
    apply IH. assumption.
Qed.

Lemma alignment_no_answer c r :
  alignment_of [] c r -> r = map (fun v => Item missing Null (Str v)) c.
Proof.
  revert r. induction c as [|v c IH]; intros r Hal.
  - inversion Hal. reflexivity.
  - inversion Hal as [| |v' u' c' r' Hr|]; subst. simpl. f_equal.
    apply IH. assumption.
Qed.
End AlignerGuarantees.

(** X5. Every [exact] or [near] item of the alignment that [lcsAlign] returns
    pairs a user word with a reference word that [wordMatchType] classifies
    as the type of the item, and no item has the type [wrong]. *)
Theorem lcsAlign_links_classified `{StringHost}
    (userWords correctWords : list jsstring) :
  exists r,
    lcsAlign userWords correctWords = Some r
    /\ Forall (fun it =>
         type it = exact \/ type it = near ->
         exists w v, userWord it = Str w /\ correctWord it = Str v
                     /\ wordMatchType (Str w) (Str v) = type it) r
    /\ count_type wrong r = 0.
Proof.
  destruct (lcsAlign_alignment userWords correctWords) as (r & Hr & Hal & _).
  exists r. split; [exact Hr|]. split.
  - apply alignment_links with userWords correctWords. exact Hal.
  - apply (alignment_counts _ _ _ Hal).
Qed.

(** X6. The counts of the alignment add up: the [exact], [near] and [extra]
    items are as many as the user words, the [exact], [near] and [missing]
    items as many as the reference words, so the linked pairs are at most
    the shorter list and the alignment has [m + n] items less the linked
    pairs. *)
Theorem lcsAlign_counts `{StringHost} (userWords correctWords : list jsstring) :
  exists r,
    lcsAlign userWords correctWords = Some r
    /\ count_type exact r + count_type near r + count_type extra r
       = length userWords
    /\ count_type exact r + count_type near r + count_type missing r
       = length correctWords
    /\ count_type exact r + count_type near r
       <= Nat.min (length userWords) (length correctWords)
    /\ length r + (count_type exact r + count_type near r)
       = length userWords + length correctWords.
Proof.
  destruct (lcsAlign_alignment userWords correctWords) as (r & Hr & Hal & _).
  exists r. split; [exact Hr|].
  destruct (alignment_counts _ _ _ Hal) as (Hu & Hc & _ & Hlen).
  unfold matched in *. repeat split; lia.
Qed.

(** X7. No alignment of the two word lists links more pairs than the one
    [lcsAlign] returns. *)
Theorem lcsAlign_optimal `{StringHost}
    (userWords correctWords : list jsstring) :
  exists r,
    lcsAlign userWords correctWords = Some r
    /\ alignment_of userWords correctWords r
    /\ forall r', alignment_of userWords correctWords r' ->
         count_type exact r' + count_type near r'
         <= count_type exact r + count_type near r.
Proof.
  destruct (lcsAlign_alignment userWords correctWords) as (r & Hr & Hal & Hm).
  exists r. split; [exact Hr|]. split; [exact Hal|].
  intros r' Hal'. fold (matched r') (matched r).
  rewrite Hm, <- matched_rev. apply alignment_matched_le.
  apply alignment_rev. exact Hal'.
Qed.

(** X8. Without reference words every user word is [extra]; without user
    words every reference word is [missing]. *)
Theorem lcsAlign_one_side_empty `{StringHost} (ws : list jsstring) :
  lcsAlign ws [] = Some (map (fun w => Item extra (Str w) Null) ws)
  /\ lcsAlign [] ws = Some (map (fun v => Item missing Null (Str v)) ws).
Proof.
  split.
  - destruct (lcsAlign_alignment ws []) as (r & Hr & Hal & _).
    rewrite Hr. f_equal. apply alignment_no_reference. exact Hal.
  - destruct (lcsAlign_alignment [] ws) as (r & Hr & Hal & _).
    rewrite Hr. f_equal. apply alignment_no_answer. exact Hal.
Qed.

(** ** Scoring and the alignment *)

Section ScoringFacts.
Context `{StringHost}.

Lemma alignment_all_exact u c r :
  alignment_of u c r ->
  count_type missing r = 0 -> count_type extra r = 0 ->
  count_type near r = 0 ->
  map (fun w => normalizeWord (Str w)) u
  = map (fun w => normalizeWord (Str w)) c.
Proof.
  induction 1 as [|w v u c r Hm _ IH|v u c r _ IH|w u c r _ IH];
    rewrite ?count_type_cons; simpl type; intros Hmiss Hext Hnear.
  - reflexivity.
  - destruct (matchable_tag w v Hm) as [E|E]; rewrite E in *.
    + simpl in *. apply wordMatchType_exact_iff in E as [E _].
      rewrite E, IH by assumption. reflexivity.
    + exfalso. destruct (decide (near = near)); [lia | congruence].
  - exfalso. destruct (decide (missing = missing)); [lia | congruence].
  - exfalso. destruct (decide (extra = extra)); [lia | congruence].
Qed.

(** The diff that the feedback shows is the alignment that was scored, and
    the score does not exceed the number of reference words. *)
Lemma checkAnswer_feedback (d : DictationMode) (seg : Segment) :
  let userText := trim (userInput_value (elements d)) in
  let cWords := words (trim (correct_text seg)) in
  isChecked d = false ->
  segment_at (segments d) (currentIndex d) = Some seg ->
  userText <> [] ->
  exists alignment d',
    lcsAlign (words userText) cWords = Some alignment
    /\ alignment_of (words userText) cWords alignment
    /\ checkAnswer d = Some d'
    /\ feedbackContent (elements d')
       = if isExactCorrect userText seg then ExactlyCorrect (correct_text seg)
         else if isNearCorrect alignment
              then NearlyCorrect (count_type near alignment) alignment
              else Incorrect (matched alignment) (length cWords) alignment.
Proof.
  intros userText cWords Hc Hseg Hne.
  destruct (lcsAlign_alignment (words userText) cWords)
    as (al & Hal & Hvalid & _).
  exists al.
  assert (Hdiff : diffString userText (correct_text seg) = Some al).
  { unfold diffString. fold cWords. unfold userText.
    rewrite words_trim. exact Hal. }
  destruct (isExactCorrect userText seg) eqn:He;
    destruct (isNearCorrect al) eqn:Hn;
    eexists; (split; [exact Hal|]); (split; [exact Hvalid|]);
    (split; [unfold checkAnswer; rewrite Hc; fold userText;
             rewrite (truthy_true _ Hne); cbn [negb]; rewrite Hseg;
             cbn [mbind option_bind]; fold cWords; rewrite Hal;
             cbn [mbind option_bind]; rewrite He, Hn, ?Hdiff;
             reflexivity|]);
    reflexivity.
Qed.
End ScoringFacts.

(** X9. On an open segment, an answer with a non-space unit has at least one
    word; the feedback shows the alignment that was scored; and the score of
    a rejected answer counts the linked pairs, which are at most the
    reference words and at most the words typed. *)
Theorem checkAnswer_feedback_consistent `{StringHost}
    (d : DictationMode) (seg : Segment) :
  let userText := trim (userInput_value (elements d)) in
  let cWords := words (trim (correct_text seg)) in
  isChecked d = false ->
  segment_at (segments d) (currentIndex d) = Some seg ->
  userText <> [] ->
  exists alignment d',
    lcsAlign (words userText) cWords = Some alignment
    /\ checkAnswer d = Some d'
    /\ feedbackContent (elements d')
       = (if isExactCorrect userText seg then ExactlyCorrect (correct_text seg)
          else if isNearCorrect alignment
               then NearlyCorrect (count_type near alignment) alignment
               else Incorrect
                      (count_type exact alignment + count_type near alignment)
                      (length cWords) alignment)
    /\ count_type exact alignment + count_type near alignment <= length cWords
    /\ count_type exact alignment + count_type near alignment
       <= length (words userText)
    /\ 1 <= length (words userText).
Proof.
  intros userText cWords Hc Hseg Hne.
  destruct (checkAnswer_feedback d seg Hc Hseg Hne)
    as (al & d' & Hal & Hvalid & Hd & Hfb).
  fold userText cWords in Hal, Hvalid, Hd, Hfb.
  exists al, d'. split; [exact Hal|]. split; [exact Hd|].
  split; [exact Hfb|].
  destruct (alignment_counts _ _ _ Hvalid) as (Hu & Hcw & _ & _).
  unfold matched in *. split; [lia|]. split; [lia|].
  destruct (words userText) eqn:Hw; [|simpl; lia].
  apply words_nil_iff, trim_nil_iff in Hw.
  unfold userText in Hw, Hne. rewrite trim_idem in Hw. contradiction.
Qed.

Lemma checkAnswer_feedback_consistent_witness :
  exists d',
    @checkAnswer ascii_host (type_answer (js "the fox") (fox_session true))
    = Some d'
    /\ exists k n diff,
         feedbackContent (elements d') = Incorrect k n diff /\ k <= n.
Proof.
  destruct (@checkAnswer_feedback_consistent ascii_host
              (type_answer (js "the fox") (fox_session true)) fox)
    as (al & d' & Hal & Hd & Hfb & Hle & _).
  - reflexivity.
  - reflexivity.
  - vm_compute. discriminate.
  - exists d'. split; [exact Hd|].
    vm_compute in Hal. injection Hal as <-.
    eexists _, _, _. split; [exact Hfb | exact Hle].
Defined.

(** X10. An alignment that passes as near-correct has no unlinked word: the
    answer and the reference have the same number of words and every item
    is a linked pair. *)
Theorem near_correct_same_word_count `{StringHost}
    (userWords correctWords : list jsstring) (alignment : list item) :
  lcsAlign userWords correctWords = Some alignment ->
  isNearCorrect alignment = true ->
  length userWords = length correctWords
  /\ length alignment = length userWords
  /\ count_type exact alignment + count_type near alignment
     = length alignment
  /\ 1 <= count_type near alignment.
Proof.
  intros Hal Hnear.
  destruct (lcsAlign_alignment userWords correctWords) as (r & Hr & Hvalid & _).
  assert (r = alignment) as -> by congruence.
  destruct (alignment_counts _ _ _ Hvalid) as (Hu & Hc & _ & Hlen).
  unfold isNearCorrect in Hnear.
  rewrite !andb_true_iff, !Nat.eqb_eq, Nat.ltb_lt in Hnear.
  unfold matched in *. lia.
Qed.

Lemma near_correct_same_word_count_witness :
  length (words (js "the quik fox")) = length (words (js "The quick fox")).
Proof.
  eapply (@near_correct_same_word_count ascii_host).
  - vm_compute. reflexivity.
  - vm_compute. reflexivity.
Defined.

(** X11. With a unit-wise host, an answer whose alignment has neither a
    [missing] nor an [extra] item is always accepted; so the diff of a
    rejected answer shows at least one missing or extra word. *)
Theorem fully_aligned_answer_accepted `{StringHost}
    (d : DictationMode) (seg : Segment) :
  let userText := trim (userInput_value (elements d)) in
  let cWords := words (trim (correct_text seg)) in
  unitwise H ->
  isChecked d = false ->
  segment_at (segments d) (currentIndex d) = Some seg ->
  userText <> [] ->
  exists alignment d',
    lcsAlign (words userText) cWords = Some alignment
    /\ checkAnswer d = Some d'
    /\ (count_type missing alignment = 0 ->
        count_type extra alignment = 0 ->
        isChecked d' = true /\ correctCount d' = correctCount d + 1)
    /\ (isChecked d' = false ->
        1 <= count_type missing alignment + count_type extra alignment).
Proof.
  intros userText cWords Hunit Hc Hseg Hne.
  destruct (checkAnswer_unchecked d seg Hc Hseg Hne) as (al & diff & Hal & Hd).
  fold userText cWords in Hal, Hd.
  destruct (lcsAlign_alignment (words userText) cWords)
    as (r & Hr & Hvalid & _).
  assert (r = al) as -> by congruence.
  assert (Hfull : count_type missing al = 0 -> count_type extra al = 0 ->
            isExactCorrect userText seg || isNearCorrect al = true).
  { intros Hm He. unfold isNearCorrect. rewrite Hm, He. simpl.
    destruct (Nat.ltb_spec 0 (count_type near al)) as [|Hn];
      [apply orb_true_r|].
    rewrite orb_false_r. unfold isExactCorrect. apply bool_decide_eq_true.
    rewrite !normalizeForCompare_words_of by exact Hunit.
    rewrite <- (words_trim (correct_text seg)). fold cWords.
    rewrite (alignment_all_exact _ _ _ Hvalid Hm He ltac:(lia)).
    reflexivity. }
  exists al. eexists. split; [exact Hal|]. split; [exact Hd|].
  destruct (isExactCorrect userText seg || isNearCorrect al); simpl.
  - split; [intros; split; reflexivity | discriminate].
  - split.
    + intros Hm He. specialize (Hfull Hm He). discriminate.
    + intros _.
      destruct (count_type missing al) eqn:Hm; [|lia].
      destruct (count_type extra al) eqn:He; [|lia].
      specialize (Hfull eq_refl eq_refl). discriminate.
Qed.

Lemma fully_aligned_answer_accepted_witness :
  exists d',
    @checkAnswer ascii_host
      (type_answer (js "The, quick; fox!") (fox_session true)) = Some d'
    /\ isChecked d' = true.
Proof.
  destruct (@fully_aligned_answer_accepted ascii_host
              (type_answer (js "The, quick; fox!") (fox_session true)) fox)
    as (al & d' & Hal & Hd & Hfull & _).
  - exact ascii_host_unitwise.
  - reflexivity.
  - reflexivity.
  - vm_compute. discriminate.
  - exists d'. split; [exact Hd|].
    vm_compute in Hal. injection Hal as <-.
    apply Hfull; reflexivity.
Defined.

(** ** The session under any sequence of actions *)

Lemma constructor_start_in_range segs els initialIndex :
  length segs <> 0 ->
  (0 <= currentIndex (new_DictationMode segs els initialIndex))%Z
  /\ (currentIndex (new_DictationMode segs els initialIndex)
      < Z.of_nat (length segs))%Z.
Proof.
  intros Hne. unfold new_DictationMode, or_zero. simpl.
  destruct initialIndex; lia.
Qed.

Section SessionInvariant.
Context `{StringHost}.

Lemma segment_at_Some segs k seg :
  segment_at segs k = Some seg -> (0 <= k < Z.of_nat (length segs))%Z.
Proof.
  unfold segment_at. destruct (Z.ltb_spec k 0); [discriminate|].
  intros Hs. apply lookup_lt_Some in Hs. lia.
Qed.

Lemma segment_at_None segs k :
  (0 <= k)%Z -> segment_at segs k = None -> (Z.of_nat (length segs) <= k)%Z.
Proof.
  unfold segment_at. destruct (Z.ltb_spec k 0); [lia|].
  intros _ Hs. apply lookup_ge_None in Hs. lia.
Qed.

(** The ways a call of [checkAnswer] can end. *)
Lemma checkAnswer_cases (d : DictationMode) :
  checkAnswer d = None /\ segment_at (segments d) (currentIndex d) = None
  \/ (exists d', checkAnswer d = Some d'
        /\ segments d' = segments d /\ currentIndex d' = currentIndex d
        /\ isChecked d' = isChecked d /\ correctCount d' = correctCount d
        /\ attempts d' = attempts d
        /\ btnReveal_hidden (elements d') = btnReveal_hidden (elements d)
        /\ finalScore (elements d') = finalScore (elements d)
        /\ summaryScreen_hidden (elements d')
           = summaryScreen_hidden (elements d))
  \/ (exists d' seg, checkAnswer d = Some d'
        /\ segment_at (segments d) (currentIndex d) = Some seg
        /\ isChecked d = false
        /\ segments d' = segments d /\ currentIndex d' = currentIndex d
        /\ ((isChecked d' = true /\ correctCount d' = correctCount d + 1
             /\ attempts d' = attempts d
             /\ btnReveal_hidden (elements d')
                = set_reveal_hidden true (btnReveal_hidden (elements d)))
            \/ (isChecked d' = false /\ correctCount d' = correctCount d
                /\ attempts d' = attempts d + 1
                /\ btnReveal_hidden (elements d')
                   = if MAX_ATTEMPTS <=? attempts d + 1
                     then set_reveal_hidden false (btnReveal_hidden (elements d))
                     else btnReveal_hidden (elements d)))).
Proof.
  destruct (isChecked d) eqn:Hc.
  { right; left. exists d. unfold checkAnswer. rewrite Hc.
    repeat split; reflexivity || assumption. }
  destruct (trim (userInput_value (elements d))) as [|x t] eqn:Ht.
  { right; left. unfold checkAnswer. rewrite Hc, Ht. simpl.
    eexists. split; [reflexivity|]. simpl. repeat split; assumption. }
  destruct (segment_at (segments d) (currentIndex d)) as [seg|] eqn:Hseg.
  - right; right.
    destruct (checkAnswer_unchecked d seg Hc Hseg) as (al & diff & Hal & Hd).
    { rewrite Ht. discriminate. }
    eexists. exists seg. split; [exact Hd|].
    split; [reflexivity|]. split; [reflexivity|].
    destruct (isExactCorrect _ seg || isNearCorrect al); simpl.
    + split; [reflexivity|]. split; [reflexivity|]. left.
      repeat split.
    + split; [reflexivity|]. split; [reflexivity|]. right.
      repeat split.
  - left. split; [|reflexivity].
    unfold checkAnswer. rewrite Hc, Ht, Hseg. reflexivity.
Qed.

Lemma at_end_false_iff d :
  at_end d = false <-> (currentIndex d < Z.of_nat (length (segments d)))%Z.
Proof. unfold at_end. rewrite Z.leb_gt. reflexivity. Qed.

Lemma session_inv_after_check d :
  session_inv d ->
  session_inv (after_checkAnswer d)
  /\ segments (after_checkAnswer d) = segments d.
Proof.
  intros Hinv. pose proof Hinv as (Hidx & Hscore & Hsum & Hrev).
  unfold after_checkAnswer.
  destruct (checkAnswer_cases d)
    as [[-> _] | [(d' & -> & Hs & Hi & Hc & Hn & Ha & Hr & Hf & Hh)
      | (d' & seg & -> & Hseg & Hc0 & Hs & Hi & Hcase)]].
  - split; [exact Hinv | reflexivity].
  - split; [|exact Hs]. unfold session_inv, at_end in *.
    rewrite Hs, Hi, Hc, Hn, Ha, Hr, Hf, Hh. exact Hinv.
  - split; [|exact Hs].
    pose proof (segment_at_Some _ _ _ Hseg) as Hrange.
    assert (Hend : at_end d = false) by (apply at_end_false_iff; lia).
    unfold session_inv, at_end in *. rewrite Hs, Hi.
    rewrite Hend in *. rewrite Hc0 in Hscore.
    destruct Hcase as [(Hc' & Hn' & Ha' & Hr') | (Hc' & Hn' & Ha' & Hr')];
      rewrite Hc', Hn', Ha', Hr';
      (split; [exact Hidx|]); (split; [lia|]); (split; [discriminate|]).
    + destruct (btnReveal_hidden (elements d)); discriminate.
    + destruct (Nat.leb_spec MAX_ATTEMPTS (attempts d + 1)); [intros _; lia|].
      intros Hvis. specialize (Hrev Hvis). lia.
Qed.

Lemma session_inv_after_reveal d :
  session_inv d ->
  session_inv (after_revealAnswer d)
  /\ segments (after_revealAnswer d) = segments d.
Proof.
  intros (Hidx & Hscore & Hsum & Hrev).
  unfold after_revealAnswer, revealAnswer.
  destruct (segment_at (segments d) (currentIndex d)) as [seg|] eqn:Hseg;
    simpl; (split; [|reflexivity]).
  - pose proof (segment_at_Some _ _ _ Hseg) as Hrange.
    assert (Hend : at_end d = false) by (apply at_end_false_iff; lia).
    unfold session_inv, at_end in *. simpl. rewrite Hend in *.
    split; [exact Hidx|]. split; [destruct (isChecked d); lia|].
    split; [discriminate|].
    destruct (btnReveal_hidden (elements d)); discriminate.
  - pose proof (segment_at_None _ _ Hidx Hseg) as Hrange.
    assert (Hend : at_end d = true) by (apply Z.leb_le; lia).
    unfold session_inv, at_end in *. simpl. rewrite Hend in *.
    split; [exact Hidx|]. split; [exact Hscore|].
    split; [exact Hsum | exact Hrev].
Qed.

Lemma session_inv_next d :
  session_inv d ->
  session_inv (nextSegment d) /\ segments (nextSegment d) = segments d.
Proof.
  intros (Hidx & Hscore & Hsum & Hrev).
  unfold nextSegment, render.
  match goal with |- context [if at_end ?x then _ else _] =>
    destruct (at_end x) eqn:Hend end.
  - split; [|reflexivity].
    unfold session_inv, showSummary, with_elements, at_end in *. simpl in *.
    rewrite Hend. apply Z.leb_le in Hend.
    split; [lia|]. split.
    { destruct (Z.leb_spec (Z.of_nat (length (segments d))) (currentIndex d));
        [assumption|]. destruct (isChecked d); lia. }
    split; [intros _; split; reflexivity | exact Hrev].
  - split; [|reflexivity].
    unfold session_inv, at_end in *. simpl in *.
    rewrite Hend. apply Z.leb_gt in Hend.
    split; [lia|]. split.
    { destruct (Z.leb_spec (Z.of_nat (length (segments d))) (currentIndex d));
        [lia|]. destruct (isChecked d); lia. }
    split; [discriminate|].
    destruct (btnReveal_hidden (elements d)); discriminate.
Qed.

Lemma session_inv_action a d :
  session_inv d ->
  session_inv (do_action a d) /\ segments (do_action a d) = segments d.
Proof.
  intros Hinv. destruct a; simpl.
  - split; [|reflexivity]. exact Hinv.
  - apply session_inv_after_check. exact Hinv.
  - destruct (btnReveal_hidden (elements d));
      [apply session_inv_after_reveal; exact Hinv
      |split; [exact Hinv | reflexivity]].
  - apply session_inv_next. exact Hinv.
  - destruct (isChecked d);
      [apply session_inv_next | apply session_inv_after_check]; exact Hinv.
Qed.

Lemma session_inv_run actions : forall d,
  session_inv d ->
  session_inv (session_run actions d)
  /\ segments (session_run actions d) = segments d.
Proof.
  induction actions as [|a actions IH]; intros d Hinv.
  - split; [exact Hinv | reflexivity].
  - destruct (session_inv_action a d Hinv) as [Hinv' Hs].
    destruct (IH _ Hinv') as [Hinv'' Hs'].
    split; [exact Hinv''|]. unfold session_run in *. simpl.
    rewrite Hs'. exact Hs.
Qed.

Lemma session_inv_start rawSegments els initialIndex d :
  start_session rawSegments els initialIndex = Some d -> session_inv d.
Proof.
  unfold start_session.
  destruct (Nat.eqb_spec (length (load_segments rawSegments)) 0) as [|Hne];
    [discriminate|].
  intros [= <-].
  set (segs := load_segments rawSegments) in *.
  destruct (constructor_start_in_range segs els (Some initialIndex))
    as [Hlo Hhi]; [exact Hne|].
  unfold render.
  assert (Hend : at_end (new_DictationMode segs els (Some initialIndex)) = false)
    by (apply at_end_false_iff; simpl; lia).
  rewrite Hend. unfold session_inv, at_end. simpl.
  change (currentIndex (new_DictationMode segs els (Some initialIndex)))
    with (Z.max 0 (Z.min initialIndex (Z.max 0 (Z.of_nat (length segs) - 1)))).
  simpl in Hlo, Hhi.
  destruct (Z.leb_spec (Z.of_nat (length segs))
              (Z.max 0 (Z.min initialIndex (Z.max 0 (Z.of_nat (length segs) - 1)))));
    [lia|].
  split; [lia|]. split; [lia|]. split; [discriminate|].
  destruct (btnReveal_hidden els); discriminate.
Qed.
End SessionInvariant.

(** X12. In a session that the page has started, whatever the user does, the
    number of correct answers never exceeds the number of segments, the
    segments stay the same, and past the last segment the summary shows that
    number over the number of segments. *)
Theorem score_never_exceeds_segments `{StringHost}
    (rawSegments : list RawSegment) (els : Elements) (initialIndex : Z)
    (d0 : DictationMode) (actions : list action) :
  start_session rawSegments els initialIndex = Some d0 ->
  let d := session_run actions d0 in
  segments d = segments d0
  /\ correctCount d <= length (segments d)
  /\ (at_end d = true ->
      finalScore (elements d) = Some (correctCount d, length (segments d))
      /\ summaryScreen_hidden (elements d) = false).
Proof.
  intros Hstart d. apply session_inv_start in Hstart.
  destruct (session_inv_run actions d0 Hstart)
    as [(Hidx & Hscore & Hsum & _) Hs].
  fold d in Hidx, Hscore, Hsum, Hs.
  split; [exact Hs|]. split; [|exact Hsum].
  destruct (at_end d) eqn:Hend; [exact Hscore|].
  apply at_end_false_iff in Hend. destruct (isChecked d); lia.
Qed.

Lemma score_never_exceeds_segments_witness :
  correctCount
    (@session_run ascii_host
       [TypeText (js "the quick fox"); PressEnter; ClickCheck; PressEnter;
        ClickCheck; ClickNext]
       (fox_session true))
  <= 1.
Proof.
  apply (@score_never_exceeds_segments ascii_host [sound_raw] (blank_page true)
           0 (fox_session true)).
  vm_compute. reflexivity.
Defined.

(** X13. In a session that the page has started, whatever the user does, the
    reveal button is shown only when at least [MAX_ATTEMPTS] answers have
    been rejected on the current segment. *)
Theorem reveal_only_after_max_attempts `{StringHost}
    (rawSegments : list RawSegment) (els : Elements) (initialIndex : Z)
    (d0 : DictationMode) (actions : list action) :
  start_session rawSegments els initialIndex = Some d0 ->
  let d := session_run actions d0 in
  btnReveal_hidden (elements d) = Some false ->
  MAX_ATTEMPTS <= attempts d.
Proof.
  intros Hstart d. apply session_inv_start in Hstart.
  destruct (session_inv_run actions d0 Hstart) as [(_ & _ & _ & Hrev) _].
  exact Hrev.
Qed.

Lemma reveal_only_after_max_attempts_witness :
  let d := @session_run ascii_host
             [TypeText (js "a dog"); ClickCheck; PressEnter; PressEnter]
             (fox_session true) in
  btnReveal_hidden (elements d) = Some false /\ 3 <= attempts d.
Proof.
  intros d. assert (Hvis : btnReveal_hidden (elements d) = Some false)
    by (vm_compute; reflexivity).
  split; [exact Hvis|].
  apply (@reveal_only_after_max_attempts ascii_host [sound_raw]
           (blank_page true) 0 (fox_session true)
           [TypeText (js "a dog"); ClickCheck; PressEnter; PressEnter]).
  - vm_compute. reflexivity.
  - exact Hvis.
Defined.

(** ** The transcript view *)

Lemma highlightItem_active idx t : activeIndex (highlightItem idx t) = idx.
Proof.
  unfold highlightItem. destruct (Z.eqb_spec (activeIndex t) idx); trivial.
Qed.

Lemma highlightItem_segments idx t :
  tr_segments (highlightItem idx t) = tr_segments t.
Proof. unfold highlightItem. destruct (_ =? _)%Z; reflexivity. Qed.

Lemma playSegment_segments idx t :
  tr_segments (playSegment idx t) = tr_segments t.
Proof.
  unfold playSegment. destruct (_ || _); [reflexivity|].
  apply highlightItem_segments.
Qed.

Lemma playSegment_active idx t :
  activeIndex (playSegment idx t)
  = if decide (0 <= idx < Z.of_nat (length (tr_segments t)))%Z
    then idx else activeIndex t.
Proof.
  unfold playSegment.
  destruct (Z.ltb_spec idx 0);
    destruct (Z.leb_spec (Z.of_nat (length (tr_segments t))) idx);
    simpl; destruct (decide _); try lia; try reflexivity;
    apply highlightItem_active.
Qed.

Lemma findIndex_from_spec p segs : forall k,
  (findIndex_from k p segs = (-1)%Z /\ Forall (fun s => p s = false) segs)
  \/ exists i s,
       findIndex_from k p segs = Z.of_nat (k + i)
       /\ segs !! i = Some s /\ p s = true
       /\ Forall (fun s => p s = false) (take i segs).
Proof.
  induction segs as [|s segs IH]; intros k; simpl.
  - left. split; [reflexivity | constructor].
  - destruct (p s) eqn:Hs.
    + right. exists 0, s. rewrite Nat.add_0_r.
      repeat split; [exact Hs | constructor].
    + destruct (IH (S k)) as [[E F]|(i & s' & E & L & P & F)].
      * left. split; [exact E | constructor; assumption].
      * right. exists (S i), s'. rewrite E.
        split; [f_equal; lia|]. split; [exact L|]. split; [exact P|].
        simpl. constructor; assumption.
Qed.

Lemma on_timeupdate_segments h cur t :
  tr_segments (on_timeupdate h cur t) = tr_segments t.
Proof.
  unfold on_timeupdate. destruct h; [reflexivity|].
  destruct (_ && _); [apply highlightItem_segments | reflexivity].
Qed.

Lemma nav_step_segments e t : tr_segments (nav_step e t) = tr_segments t.
Proof.
  destruct e; simpl; try apply playSegment_segments.
  - destruct (_ <=? _)%Z; [apply playSegment_segments | reflexivity].
  - destruct (_ <? _)%Z; apply playSegment_segments.
  - apply on_timeupdate_segments.
Qed.

Lemma playSegment_valid idx t :
  active_valid t -> active_valid (playSegment idx t).
Proof.
  intros Hv. unfold active_valid.
  rewrite playSegment_segments, playSegment_active.
  destruct (decide _); [right; assumption | exact Hv].
Qed.

Lemma on_timeupdate_valid h cur t :
  active_valid t -> active_valid (on_timeupdate h cur t).
Proof.
  intros Hv. unfold on_timeupdate. destruct h; [exact Hv|].
  destruct (findIndex_from_spec (contains_time cur) (tr_segments t) 0)
    as [[E _]|(i & s & E & L & _ & _)]; unfold findIndex; rewrite E.
  - exact Hv.
  - destruct (_ && _); [|exact Hv].
    unfold active_valid. rewrite highlightItem_segments, highlightItem_active.
    right. apply lookup_lt_Some in L. lia.
Qed.

Lemma nav_step_valid e t : active_valid t -> active_valid (nav_step e t).
Proof.
  intros Hv. destruct e; simpl; try (apply playSegment_valid; exact Hv).
  - destruct (_ <=? _)%Z; [apply playSegment_valid|]; exact Hv.
  - destruct (_ <? _)%Z; apply playSegment_valid; exact Hv.
  - apply on_timeupdate_valid. exact Hv.
Qed.

Lemma playSegment_keeps_active idx t :
  (0 <= activeIndex t)%Z -> (0 <= activeIndex (playSegment idx t))%Z.
Proof. rewrite playSegment_active. destruct (decide _); lia. Qed.

Lemma nav_step_keeps_active e t :
  (0 <= activeIndex t)%Z -> (0 <= activeIndex (nav_step e t))%Z.
Proof.
  intros Ha. destruct e; simpl; try (apply playSegment_keeps_active; exact Ha).
  - destruct (_ <=? _)%Z; [apply playSegment_keeps_active|]; exact Ha.
  - destruct (_ <? _)%Z; apply playSegment_keeps_active; exact Ha.
  - unfold on_timeupdate. destruct hidden; [exact Ha|].
    destruct (findIndex_from_spec (contains_time cur) (tr_segments t) 0)
      as [[E _]|(i & s & E & _)]; unfold findIndex; rewrite E.
    + exact Ha.
    + destruct (_ && _); [|exact Ha]. rewrite highlightItem_active. lia.
Qed.

(** X14. Whatever the user does in the transcript view, the active index is
    [-1] or the index of a segment, the segments stay as they were, and
    once a segment is active some segment stays active. *)
Theorem activeIndex_stays_valid (segs : list Segment) (es es' : list nav) :
  let t := nav_run es (new_TranscriptMode segs) in
  let t' := nav_run es' t in
  tr_segments t = segs
  /\ (activeIndex t = (-1)%Z \/ (0 <= activeIndex t < Z.of_nat (length segs))%Z)
  /\ ((0 <= activeIndex t)%Z -> (0 <= activeIndex t')%Z).
Proof.
  intros t t'.
  assert (Hrun : forall es t0, active_valid t0 ->
            tr_segments (nav_run es t0) = tr_segments t0
            /\ active_valid (nav_run es t0)
            /\ ((0 <= activeIndex t0)%Z ->
                (0 <= activeIndex (nav_run es t0))%Z)).
  { clear. induction es as [|e es IH]; intros t0 Hv; [tauto|].
    simpl. destruct (IH (nav_step e t0) (nav_step_valid e t0 Hv))
      as (Hs & Hv' & Ha).
    rewrite Hs, nav_step_segments. split; [reflexivity|].
    split; [exact Hv'|]. intros H0. apply Ha, nav_step_keeps_active, H0. }
  destruct (Hrun es (new_TranscriptMode segs) (or_introl eq_refl))
    as (Hs & Hv & _).
  fold t in Hs, Hv. simpl in Hs.
  split; [exact Hs|]. split.
  - unfold active_valid in Hv. rewrite Hs in Hv. exact Hv.
  - apply (Hrun es' t Hv).
Qed.

(** X15. At the last segment the Next button wraps around to the first
    segment while the right arrow key stays on the last one; elsewhere both
    go one segment on. The Previous button and the left arrow key go one
    segment back and stay on the first one. *)
Theorem next_wraps_arrow_clamps (t : TranscriptMode) :
  let n := Z.of_nat (length (tr_segments t)) in
  (0 < n)%Z ->
  (-1 <= activeIndex t < n)%Z ->
  activeIndex (nav_step NavNext t) = ((activeIndex t + 1) mod n)%Z
  /\ activeIndex (nav_step NavArrowRight t)
     = Z.min (activeIndex t + 1) (n - 1)
  /\ activeIndex (nav_step NavPrev t) = Z.max (activeIndex t - 1) 0
  /\ activeIndex (nav_step NavArrowLeft t) = Z.max (activeIndex t - 1) 0.
Proof.
  intros n Hn Ha. unfold nav_step. fold n. cbv zeta.
  rewrite !playSegment_active. fold n.
  destruct (Z.leb_spec n (activeIndex t + 1)) as [Hl|Hl];
    destruct (Z.ltb_spec (activeIndex t - 1) 0) as [Hp|Hp];
    repeat destruct (decide _); try lia;
    repeat split; try lia.
  - replace (activeIndex t + 1)%Z with n by lia. rewrite Z.mod_same; lia.
  - replace (activeIndex t + 1)%Z with n by lia. rewrite Z.mod_same; lia.
  - rewrite Z.mod_small; lia.
  - rewrite Z.mod_small; lia.
Qed.

Lemma next_wraps_arrow_clamps_witness :
  let t := {| tr_segments := [fox; fox]; activeIndex := 1 |} in
  activeIndex (nav_step NavNext t) = 0%Z
  /\ activeIndex (nav_step NavArrowRight t) = 1%Z.
Proof.
  destruct (next_wraps_arrow_clamps
              {| tr_segments := [fox; fox]; activeIndex := 1 |})
    as (Hn & Ha & _).
  - reflexivity.
  - simpl. lia.
  - split; [exact Hn | exact Ha].
Defined.

Lemma contains_time_iff cur s :
  contains_time cur s = true
  <-> (start_time s <= cur)%Q /\ (cur < end_time s)%Q.
Proof.
  unfold contains_time. rewrite andb_true_iff, negb_true_iff, Qle_bool_iff.
  split; intros [Hs He]; (split; [exact Hs|]).
  - apply Qnot_le_lt. intros Hle. apply Qle_bool_iff in Hle. congruence.
  - destruct (Qle_bool (end_time s) cur) eqn:E; [|reflexivity].
    apply Qle_bool_iff in E. exfalso. apply (Qlt_not_le _ _ He E).
Qed.

(** X16. While the transcript view is visible, a [timeupdate] at a position
    inside some segment makes the first segment that contains the position
    the active one; that segment starts before it ends, so a segment whose
    end is not after its start is never highlighted this way. *)
Theorem timeupdate_highlights_first
    (t : TranscriptMode) (cur : Q) (s : Segment) :
  s ∈ tr_segments t ->
  (start_time s <= cur)%Q -> (cur < end_time s)%Q ->
  exists i s',
    activeIndex (on_timeupdate false cur t) = Z.of_nat i
    /\ tr_segments t !! i = Some s'
    /\ (start_time s' <= cur)%Q /\ (cur < end_time s')%Q
    /\ (start_time s' < end_time s')%Q
    /\ forall j s'', j < i -> tr_segments t !! j = Some s'' ->
         ~ ((start_time s'' <= cur)%Q /\ (cur < end_time s'')%Q).
Proof.
  intros Hin Hs He. unfold on_timeupdate, findIndex.
  destruct (findIndex_from_spec (contains_time cur) (tr_segments t) 0)
    as [[_ F]|(i & s' & E & L & P & F)].
  - rewrite list.Forall_forall in F. specialize (F _ Hin).
    assert (contains_time cur s = true)
      by (apply contains_time_iff; split; assumption).
    congruence.
  - rewrite E. simpl Nat.add. exists i, s'.
    apply contains_time_iff in P as [Ps Pe].
    split.
    + destruct (Z.eqb_spec (Z.of_nat i) (-1)) as [|_]; [lia|].
      destruct (Z.eqb_spec (Z.of_nat i) (activeIndex t)) as [Ea|_]; simpl.
      * symmetry. exact Ea.
      * apply highlightItem_active.
    + split; [exact L|]. split; [exact Ps|]. split; [exact Pe|].
      split; [apply (Qle_lt_trans _ cur); assumption|].
      intros j s'' Hj Lj Hc. apply contains_time_iff in Hc.
      rewrite list.Forall_forall in F.
      assert (Hin' : s'' ∈ take i (tr_segments t)).
      { apply list_elem_of_lookup_2 with j. rewrite lookup_take_lt by exact Hj.
        exact Lj. }
      specialize (F _ Hin'). congruence.
Qed.

Lemma timeupdate_highlights_first_witness :
  let late := {| start_time := 5; end_time := 3; correct_text := [];
                 hint := []; order := 1 |} in
  let t := new_TranscriptMode [late; fox] in
  activeIndex (on_timeupdate false 1 t) = 1%Z
  /\ exists i, activeIndex (on_timeupdate false 1 t) = Z.of_nat i.
Proof.
  destruct (timeupdate_highlights_first
              (new_TranscriptMode
                 [ {| start_time := 5; end_time := 3; correct_text := [];
                      hint := []; order := 1 |}; fox ]) 1 fox)
    as (i & s' & Ha & _).
  - right. left.
  - vm_compute. discriminate.
  - reflexivity.
  - split; [reflexivity|]. exists i. exact Ha.
Defined.

(** ** Hints *)

(** X17. The hint of a word shows at most its first unit and its length
    without punctuation: two words that agree on both get the same hint,
    which has one unit for each unit of the cleaned word, and one unit at
    least. *)
Theorem hintWord_shows_first_unit_and_length (w v : jsstring) :
  length (strip_punct w) = length (strip_punct v) ->
  head (strip_punct w) = head (strip_punct v) ->
  hintWord w = hintWord v
  /\ length (hintWord w) = Nat.max 1 (length (strip_punct w))
  /\ Forall (fun c => c = 183%N) (drop 1 (hintWord w)).
Proof.
  intros Hl Hh. unfold hintWord.
  destruct (strip_punct w) as [|a [|a' x]];
    destruct (strip_punct v) as [|b [|b' y]]; try discriminate.
  - repeat split. constructor.
  - repeat split. constructor.
  - simpl in Hl, Hh. injection Hh as ->. injection Hl as Hl.
    split; [simpl; rewrite Hl; reflexivity|]. split.
    + simpl. rewrite length_replicate. lia.
    + simpl. constructor; [reflexivity|]. apply Forall_replicate. reflexivity.
Qed.

Lemma hintWord_shows_first_unit_and_length_witness :
  hintWord (js "quick,") = hintWord (js "queen")
  /\ length (hintWord (js "quick,")) = 5.
Proof.
  destruct (hintWord_shows_first_unit_and_length (js "quick,") (js "queen"))
    as (He & Hl & _).
  - reflexivity.
  - reflexivity.
  - split; [exact He | exact Hl].
Defined.

(** ** Numbering of the loaded segments *)


(** ** The seeker under any sequence of events *)

Lemma count_if_app {A} (p : A -> bool) l1 l2 :
  count_if p (l1 ++ l2) = count_if p l1 + count_if p l2.
Proof. induction l1 as [|x l1 IH]; simpl; [reflexivity|]. rewrite IH. lia. Qed.

Lemma count_if_snoc {A} (p : A -> bool) l x :
  count_if p (l ++ [x]) = count_if p l + (if p x then 1 else 0).
Proof. rewrite count_if_app. simpl. lia. Qed.

Lemma count_if_insert {A} (p : A -> bool) l k x y :
  l !! k = Some x ->
  count_if p (<[k := y]> l) + (if p x then 1 else 0)
  = count_if p l + (if p y then 1 else 0).
Proof.
  revert k. induction l as [|z l IH]; intros k Hk; [discriminate|].
  destruct k as [|k]; simpl in *.
  - injection Hk as ->. lia.
  - specialize (IH k Hk). lia.
Qed.

Lemma prefix_snoc_cases {A} (p l : list A) x :
  p `prefix_of` (l ++ [x]) -> p `prefix_of` l \/ p = l ++ [x].
Proof.
  intros [k Hk]. destruct k as [|y k _] using rev_ind.
  - right. rewrite app_nil_r in Hk. congruence.
  - left. rewrite app_assoc in Hk. apply app_inj_tail in Hk as [-> _].
    apply prefix_app_r. reflexivity.
Qed.

Lemma ends_follow_starts_snoc id l x :
  ends_follow_starts id l ->
  count_cb (Ended id) (l ++ [x]) <= count_cb (Started id) (l ++ [x]) ->
  ends_follow_starts id (l ++ [x]).
Proof.
  intros Hl Hx p Hp. apply prefix_snoc_cases in Hp as [Hp | ->].
  - apply Hl. exact Hp.
  - exact Hx.
Qed.

Lemma ends_follow_starts_whole id l :
  ends_follow_starts id l -> count_cb (Ended id) l <= count_cb (Started id) l.
Proof. intros Hl. apply Hl. reflexivity. Qed.

Section SeekerMoves.
Variable q : Request -> bool.

Local Abbreviation hit r := (if q r then 1 else 0).

Lemma moves_refl s : moves_pending q 0 0 s s.
Proof. repeat split; auto. Qed.

Lemma moves_trans u1 d1 u2 d2 s1 s2 s3 :
  moves_pending q u1 d1 s1 s2 -> moves_pending q u2 d2 s2 s3 ->
  moves_pending q (u1 + u2) (d1 + d2) s1 s3.
Proof.
  intros (Hp1 & Hl1 & Hc1 & Hj1) (Hp2 & Hl2 & Hc2 & Hj2).
  repeat split; [lia | congruence | congruence | auto].
Qed.

Lemma moves_with_audio s a : moves_pending q 0 0 s (with_audio s a).
Proof. repeat split; auto. Qed.

Lemma moves_add_timeout t s :
  moves_pending q (hit (timeout_request t)) 0 s (add_timeout t s).
Proof.
  repeat split; auto. unfold pending_starts, add_timeout. simpl.
  rewrite count_if_snoc. simpl. lia.
Qed.

Lemma moves_play_with k s :
  moves_pending q (hit (reaction_request k)) 0 s (play_with k s).
Proof.
  repeat split; auto. unfold pending_starts, play_with. simpl.
  rewrite count_if_snoc. simpl. lia.
Qed.

Lemma moves_seekAndPlayInternal r s :
  moves_pending q (hit r) 0 s (seekAndPlayInternal r s).
Proof.
  unfold seekAndPlayInternal.
  destruct (checkAudioReady (audio s) (targetTime r)) as [[|] a].
  - repeat split; auto.
    + unfold pending_starts. simpl. rewrite count_if_snoc. simpl. lia.
    + unfold jobs_ok. simpl. intros Hj. apply Forall_app. split; [exact Hj|].
      constructor; [|constructor]. reflexivity.
  - repeat split; auto.
    unfold pending_starts. simpl. rewrite count_if_snoc. lia.
Qed.

Lemma moves_set_job k j j' s :
  jobs s !! k = Some j ->
  (listening j' = true -> seekCompleted j' = false) ->
  job_req j' = job_req j ->
  moves_pending q
    (if negb (seekCompleted j') then hit (job_req j) else 0)
    (if negb (seekCompleted j) then hit (job_req j) else 0)
    s (with_jobs s (<[k := j']> (jobs s))).
Proof.
  intros Hk Hok Hreq. repeat split; auto.
  - unfold pending_starts, with_jobs. simpl.
    pose proof (count_if_insert
      (fun j => negb (seekCompleted j) && q (job_req j))
      (jobs s) k j j' Hk) as Hc.
    cbv beta in Hc. rewrite Hreq in Hc.
    destruct (seekCompleted j), (seekCompleted j'),
      (q (job_req j)); simpl in *; lia.
  - unfold jobs_ok, with_jobs. simpl. intros Hj.
    apply Forall_insert; assumption.
Qed.

Lemma moves_onSeeked k s :
  jobs_ok s -> moves_pending q 0 0 s (onSeeked k s).
Proof.
  intros Hok. unfold onSeeked.
  destruct (jobs s !! k) as [j|] eqn:Hk; [|apply moves_refl].
  destruct (listening j) eqn:Hl; [|apply moves_refl].
  assert (Hj : seekCompleted j = false).
  { unfold jobs_ok in Hok. rewrite list.Forall_forall in Hok.
    apply Hok; [eapply list_elem_of_lookup_2; exact Hk | exact Hl]. }
  match goal with
  | |- context [with_jobs s (<[k := ?j']> (jobs s))] =>
      pose proof (moves_set_job k j j' s Hk ltac:(discriminate) eq_refl) as Hset
  end.
  simpl in Hset. rewrite Hj in Hset. simpl in Hset.
  match goal with
  | |- moves_pending _ _ _ _ (if ?b then _ else _) => destruct b
  end.
  - pose proof (moves_trans _ _ _ _ _ _ _ Hset
                  (moves_play_with (ThenStarted (job_req j)) _)) as Ht.
    simpl in Ht. unfold startPlayback.
    destruct Ht as (Hp & Hlog & Hc & Hjobs).
    repeat split; auto. lia.
  - pose proof (moves_trans _ _ _ _ _ _ _ Hset
                  (moves_play_with (AwaitInPlayThenSeek (job_req j)) _)) as Ht.
    simpl in Ht. unfold playThenSeek.
    destruct Ht as (Hp & Hlog & Hc & Hjobs).
    repeat split; auto. lia.
Qed.

Lemma moves_poll k s :
  jobs_ok s -> moves_pending q 0 0 s (poll k s).
Proof.
  intros Hok. unfold poll.
  destruct (jobs s !! k) as [j|] eqn:Hk; [|apply moves_refl].
  assert (Hinv : listening j = true -> seekCompleted j = false).
  { unfold jobs_ok in Hok. rewrite list.Forall_forall in Hok.
    apply Hok. eapply list_elem_of_lookup_2; exact Hk. }
  destruct (polling j); simpl; [|apply moves_refl].
  destruct (seekCompleted j) eqn:Hc.
  - match goal with
    | |- context [with_jobs s (<[k := ?j']> (jobs s))] =>
        pose proof (moves_set_job k j j' s Hk) as Hset
    end.
    simpl in Hset. rewrite Hc in Hset. simpl in Hset. apply Hset.
    + intros Hl. specialize (Hinv Hl). congruence.
    + reflexivity.
  - match goal with
    | |- moves_pending _ _ _ _ (if ?b then _ else _) => destruct b
    end.
    + match goal with
      | |- context [with_jobs s (<[k := ?j']> (jobs s))] =>
          pose proof (moves_set_job k j j' s Hk ltac:(discriminate) eq_refl)
            as Hset
      end.
      simpl in Hset. rewrite Hc in Hset. simpl in Hset.
      pose proof (moves_trans _ _ _ _ _ _ _ Hset
                    (moves_play_with (ThenStarted (job_req j)) _)) as Ht.
      simpl in Ht. unfold startPlayback.
      destruct Ht as (Hp & Hlog & Hcs & Hjobs).
      repeat split; auto. lia.
    + match goal with
      | |- context [with_jobs s (<[k := ?j']> (jobs s))] =>
          pose proof (moves_set_job k j j' s Hk ltac:(reflexivity) eq_refl)
            as Hset
      end.
      simpl in Hset. rewrite Hc in Hset. simpl in Hset.
      destruct Hset as (Hp & Hlog & Hcs & Hjobs).
      repeat split; auto. lia.
Qed.
Lemma moves_clear_timeout k t s :
  timeouts s !! k = Some (Some t) ->
  moves_pending q 0 (hit (timeout_request t)) s
    (with_timeouts s (<[k := None]> (timeouts s))).
Proof.
  intros Hk. repeat split; auto.
  unfold pending_starts, with_timeouts. simpl.
  pose proof (count_if_insert (slot_for timeout_request q)
                (timeouts s) k (Some t) None Hk) as Hc.
  simpl in Hc. lia.
Qed.

Lemma moves_clear_play k c s :
  plays s !! k = Some (Some c) ->
  moves_pending q 0 (hit (reaction_request c)) s
    (with_plays s (<[k := None]> (plays s))).
Proof.
  intros Hk. repeat split; auto.
  unfold pending_starts, with_plays. simpl.
  pose proof (count_if_insert (slot_for reaction_request q)
                (plays s) k (Some c) None Hk) as Hc.
  simpl in Hc. lia.
Qed.

Lemma moves_run_timeout t s :
  moves_pending q (hit (timeout_request t)) 0 s (run_timeout t s).
Proof.
  destruct t as [r|r|r]; simpl.
  - apply moves_seekAndPlayInternal.
  - apply (moves_trans 0 0 _ 0 _ _ _ (moves_with_audio s _)
             (moves_add_timeout (StartLater r) _)).
  - apply (moves_play_with (ThenStarted r)).
Qed.

Lemma moves_canplay_timeouts l : forall s,
  moves_pending q (count_if q l) 0 s
    (foldl (fun s r => add_timeout (RetryInternal r) s) s l).
Proof.
  induction l as [|r l IH]; intros s; [apply moves_refl|].
  simpl foldl.
  pose proof (moves_trans _ _ _ _ _ _ _
                (moves_add_timeout (RetryInternal r) s) (IH _)) as Ht.
  simpl in *. exact Ht.
Qed.

Lemma moves_seeked ks : forall s,
  jobs_ok s ->
  moves_pending q 0 0 s (foldl (fun s k => onSeeked k s) s ks).
Proof.
  induction ks as [|k ks IH]; intros s Hok; [apply moves_refl|].
  simpl foldl. pose proof (moves_onSeeked k s Hok) as H1.
  apply (moves_trans 0 0 0 0 _ _ _ H1). apply IH. apply H1. exact Hok.
Qed.

End SeekerMoves.

Section SeekerSteps.
Variable id : nat.

Local Abbreviation q := (has_id id).
Local Abbreviation hit r := (if has_id id r then 1 else 0).

Lemma inv_moves n m u d s s' :
  seeker_inv id n s -> moves_pending q u d s s' -> n + u <= m + d ->
  seeker_inv id m s'.
Proof.
  intros (Hok & Hp & Ha & Hb) (Hpm & Hlog & Hc & Hj) Hle.
  unfold seeker_inv, active_checks. rewrite Hlog, Hc.
  split; [auto|]. split; [lia|]. split; assumption.
Qed.

Lemma count_cb_snoc c l x :
  count_cb c (l ++ [x]) = count_cb c l + (if bool_decide (x = c) then 1 else 0).
Proof. unfold count_cb. rewrite count_if_snoc. reflexivity. Qed.

Lemma started_hit r :
  (if bool_decide (Started (rid r) = Started id) then 1 else 0) = hit r.
Proof.
  unfold has_id. destruct (Nat.eqb_spec (rid r) id) as [->|Hne].
  - rewrite bool_decide_eq_true_2; reflexivity.
  - rewrite bool_decide_eq_false_2; [reflexivity | congruence].
Qed.

Lemma ended_hit r :
  (if bool_decide (Ended (rid r) = Ended id) then 1 else 0) = hit r.
Proof.
  unfold has_id. destruct (Nat.eqb_spec (rid r) id) as [->|Hne].
  - rewrite bool_decide_eq_true_2; reflexivity.
  - rewrite bool_decide_eq_false_2; [reflexivity | congruence].
Qed.

Lemma inv_run_reaction n k c ok s :
  plays s !! k = Some (Some c) ->
  seeker_inv id n s ->
  seeker_inv id n (run_reaction c ok (with_plays s (<[k := None]> (plays s)))).
Proof.
  intros Hk Hinv. pose proof (moves_clear_play q k c s Hk) as Hclear.
  destruct c as [r|r]; destruct ok; simpl run_reaction.
  - (* onPlay runs *)
    destruct Hinv as (Hok & Hp & Ha & Hb).
    destruct Hclear as (Hpm & _ & _ & _). simpl in Hpm.
    unfold seeker_inv, pending_starts, active_checks in *. simpl in *.
    rewrite !count_cb_snoc.
    rewrite (bool_decide_eq_false_2 (Started (rid r) = Ended id))
      by discriminate.
    rewrite started_hit.
    assert (Hchk :
      count_if (slot_for (fun r0 : Request => r0) q)
        (if negb (continuous r) && negb (Qeq_bool (endTime r) 0)
         then checks s ++ [Some r] else checks s)
      <= count_if (slot_for (fun r0 : Request => r0) q) (checks s) + hit r).
    { destruct (negb (continuous r) && negb (Qeq_bool (endTime r) 0));
        [rewrite count_if_snoc; simpl|]; lia. }
    split; [exact Hok|]. split; [lia|]. split; [lia|].
    apply ends_follow_starts_snoc; [exact Hb|].
    rewrite !count_cb_snoc, started_hit.
    rewrite (bool_decide_eq_false_2 (Started (rid r) = Ended id))
      by discriminate.
    lia.
  - apply (inv_moves n n _ _ _ _ Hinv Hclear). lia.
  - eapply (inv_moves n n); [exact Hinv | |].
    + eapply (moves_trans q); [exact Hclear|].
      eapply (moves_trans q);
        [apply (moves_with_audio q) | apply (moves_add_timeout q)].
    + simpl. lia.
  - pose proof (moves_trans q _ _ _ _ _ _ _ Hclear
       (moves_play_with q (ThenStarted r) _)) as Ht.
    apply (inv_moves n n _ _ _ _ Hinv Ht). simpl. lia.
Qed.

Lemma inv_check_end n k s :
  seeker_inv id n s -> seeker_inv id n (check_end k s).
Proof.
  intros Hinv. unfold check_end.
  destruct (checks s !! k) as [[r|]|] eqn:Hk; try exact Hinv.
  destruct (negb (paused (audio s)) && _); [|exact Hinv].
  destruct Hinv as (Hok & Hp & Ha & Hb).
  pose proof (count_if_insert (slot_for (fun r0 : Request => r0) q)
                (checks s) k (Some r) None Hk) as Hc.
  simpl in Hc.
  unfold seeker_inv, pending_starts, active_checks in *. simpl in *.
  rewrite !count_cb_snoc, ended_hit.
  rewrite (bool_decide_eq_false_2 (Ended (rid r) = Started id))
    by discriminate.
  split; [exact Hok|]. split; [lia|]. split; [lia|].
  apply ends_follow_starts_snoc; [exact Hb|].
  rewrite !count_cb_snoc, ended_hit.
  rewrite (bool_decide_eq_false_2 (Ended (rid r) = Started id))
    by discriminate.
  lia.
Qed.

(** One turn of the event loop keeps the invariant; a request of number
    [id] raises the bound by one. *)
Lemma inv_step n e s :
  seeker_inv id n s ->
  seeker_inv id
    (n + match e with PlaySegment r => hit r | _ => 0 end) (step e s).
Proof.
  intros Hinv. destruct e as [r| | | |k|k|k ok|k|t]; simpl step.
  - unfold playCurrentSegment.
    pose proof (moves_trans q _ _ _ _ _ _ _
                  (moves_with_audio q s (set_paused (audio s) true))
                  (moves_seekAndPlayInternal q r _)) as Ht.
    apply (inv_moves n _ _ _ _ _ Hinv Ht). simpl. lia.
  - apply (inv_moves n _ _ _ _ _ Hinv (moves_with_audio q s _)). lia.
  - apply (inv_moves n _ _ _ _ _ Hinv (moves_seeked q _ s (proj1 Hinv))). lia.
  - assert (Hclear : moves_pending q 0
              (count_if q (canplay_listeners s)) s
              {| audio := audio s; canplay_listeners := []; jobs := jobs s;
                 timeouts := timeouts s; plays := plays s; checks := checks s;
                 log := log s |}).
    { repeat split; auto. unfold pending_starts. simpl. lia. }
    pose proof (moves_trans q _ _ _ _ _ _ _ Hclear
                  (moves_canplay_timeouts q (canplay_listeners s) _)) as Ht.
    apply (inv_moves n _ _ _ _ _ Hinv Ht). simpl. lia.
  - destruct (timeouts s !! k) as [[t|]|] eqn:Hk;
      try (rewrite Nat.add_0_r; exact Hinv).
    pose proof (moves_trans q _ _ _ _ _ _ _ (moves_clear_timeout q k t s Hk)
                  (moves_run_timeout q t _)) as Ht.
    apply (inv_moves n _ _ _ _ _ Hinv Ht). simpl. lia.
  - apply (inv_moves n _ _ _ _ _ Hinv (moves_poll q k s (proj1 Hinv))). lia.
  - destruct (plays s !! k) as [[c|]|] eqn:Hk;
      try (rewrite Nat.add_0_r; exact Hinv).
    rewrite Nat.add_0_r. apply inv_run_reaction; assumption.
  - rewrite Nat.add_0_r. apply inv_check_end. exact Hinv.
  - rewrite Nat.add_0_r. destruct (paused (audio s)); [exact Hinv|].
    apply (inv_moves n _ _ _ _ _ Hinv (moves_with_audio q s _)). lia.
Qed.

Lemma inv_run es : forall n s,
  seeker_inv id n s ->
  seeker_inv id (n + requests_for id es) (run es s).
Proof.
  induction es as [|e es IH]; intros n s Hinv.
  - simpl. rewrite Nat.add_0_r. exact Hinv.
  - unfold run in *. simpl foldl.
    pose proof (IH _ _ (inv_step n e s Hinv)) as Hrun.
    assert (E : n + requests_for id (e :: es)
                = n + match e with PlaySegment r => hit r | _ => 0 end
                  + requests_for id es)
      by (unfold requests_for; destruct e; simpl; lia).
    rewrite E. exact Hrun.
Qed.

Lemma inv_idle dur : seeker_inv id 0 (idle_seeker dur).
Proof.
  unfold seeker_inv, jobs_ok, pending_starts, active_checks, count_cb,
    idle_seeker. simpl.
  split; [constructor|]. split; [lia|]. split; [lia|].
  intros p Hp. apply prefix_nil_inv in Hp. subst p. reflexivity.
Qed.
End SeekerSteps.

(** X19. Whatever the order of the events, the seeker calls [onPlay] of a
    request number at most as often as that request was issued, calls
    [onEnd] at most as often as [onPlay], and at no moment has [onEnd] been
    called more often than [onPlay]. *)
Theorem callbacks_at_most_once_per_request
    (dur : Q) (es : list event) (id : nat) :
  let s := run es (idle_seeker dur) in
  count_cb (Started id) (log s) <= requests_for id es
  /\ count_cb (Ended id) (log s) <= count_cb (Started id) (log s)
  /\ forall p, p `prefix_of` log s ->
       count_cb (Ended id) p <= count_cb (Started id) p.
Proof.
  intros s.
  destruct (inv_run id es 0 (idle_seeker dur) (inv_idle id dur))
    as (_ & Hp & Ha & Hb).
  fold s in Hp, Ha, Hb. simpl in Hp.
  split; [lia|]. split; [lia | exact Hb].
Qed.

Lemma unbounded_moves u d s s' :
  unbounded_inv s -> moves_pending bounded u d s s' -> u <= d ->
  unbounded_inv s'.
Proof.
  intros (Hok & Hp & Hc & Hl) (Hpm & Hlog & Hcs & Hj) Hle.
  unfold unbounded_inv. rewrite Hlog, Hcs.
  split; [auto|]. split; [lia|]. split; assumption.
Qed.

Lemma unbounded_step e s :
  match e with PlaySegment r => bounded r = false | _ => True end ->
  unbounded_inv s -> unbounded_inv (step e s).
Proof.
  intros He Hinv. destruct e as [r| | | |k|k|k ok|k|t]; simpl step.
  - unfold playCurrentSegment.
    eapply unbounded_moves; [exact Hinv | |].
    + eapply (moves_trans bounded);
        [apply moves_with_audio | apply moves_seekAndPlayInternal].
    + rewrite He. simpl. lia.
  - eapply unbounded_moves; [exact Hinv | apply moves_with_audio | lia].
  - eapply unbounded_moves;
      [exact Hinv | apply moves_seeked; apply Hinv | lia].
  - eapply unbounded_moves; [exact Hinv | |].
    + eapply (moves_trans bounded _ _ _ _ s
                {| audio := audio s; canplay_listeners := []; jobs := jobs s;
                   timeouts := timeouts s; plays := plays s;
                   checks := checks s; log := log s |});
        [|apply moves_canplay_timeouts].
      instantiate (1 := count_if bounded (canplay_listeners s)).
      instantiate (1 := 0).
      repeat split; auto. unfold pending_starts. simpl. lia.
    + simpl. lia.
  - destruct (timeouts s !! k) as [[t|]|] eqn:Hk; try exact Hinv.
    eapply unbounded_moves; [exact Hinv | |].
    + eapply (moves_trans bounded);
        [apply moves_clear_timeout; exact Hk | apply moves_run_timeout].
    + simpl. lia.
  - eapply unbounded_moves;
      [exact Hinv | apply moves_poll; apply Hinv | lia].
  - destruct (plays s !! k) as [[c|]|] eqn:Hk; try exact Hinv.
    pose proof (moves_clear_play bounded k c s Hk) as Hclear.
    destruct c as [r|r]; destruct ok; simpl run_reaction.
    + destruct Hinv as (Hok & Hp & Hc & Hl).
      destruct Hclear as (Hpm & _ & _ & _). simpl in Hpm.
      assert (Hb : bounded r = false)
        by (destruct (bounded r); [lia | reflexivity]).
      unfold bounded in Hb. rewrite Hb.
      unfold unbounded_inv, pending_starts in *. simpl in *.
      split; [exact Hok|]. split; [lia|]. split; [exact Hc|].
      apply Forall_app. split; [exact Hl|]. repeat constructor.
    + eapply unbounded_moves; [exact Hinv | exact Hclear | lia].
    + eapply unbounded_moves; [exact Hinv | |].
      * eapply (moves_trans bounded); [exact Hclear|].
        eapply (moves_trans bounded);
          [apply moves_with_audio | apply moves_add_timeout].
      * simpl. lia.
    + eapply unbounded_moves; [exact Hinv | |].
      * eapply (moves_trans bounded);
          [exact Hclear | apply (moves_play_with bounded (ThenStarted r))].
      * simpl. lia.
  - unfold check_end. destruct Hinv as (Hok & Hp & Hc & Hl).
    rewrite Hc. simpl. repeat split; assumption.
  - destruct (paused (audio s)); [exact Hinv|].
    eapply unbounded_moves; [exact Hinv | apply moves_with_audio | lia].
Qed.

Lemma unbounded_run es s :
  (forall r, PlaySegment r ∈ es -> bounded r = false) ->
  unbounded_inv s -> unbounded_inv (run es s).
Proof.
  revert s. induction es as [|e es IH]; intros s Hes Hinv; [exact Hinv|].
  simpl. apply IH.
  - intros r Hr. apply Hes. right. exact Hr.
  - apply unbounded_step; [|exact Hinv].
    destruct e; try exact I. apply Hes. left.
Qed.

Lemma bounded_false_iff r :
  bounded r = false <-> continuous r = true \/ (endTime r == 0)%Q.
Proof.
  unfold bounded. destruct (continuous r); simpl.
  - split; [left; reflexivity | reflexivity].
  - rewrite negb_false_iff, Qeq_bool_iff. split; [right; assumption|].
    intros [Hc|Hq]; [discriminate | exact Hq].
Qed.

(** X20. When every request is continuous or has an end time of zero, no end
    check is ever installed and [onEnd] is never called, whatever the
    events. *)
Theorem unbounded_requests_never_end (dur : Q) (es : list event) :
  (forall r, PlaySegment r ∈ es ->
     continuous r = true \/ (endTime r == 0)%Q) ->
  let s := run es (idle_seeker dur) in
  checks s = [] /\ forall id, Ended id ∉ log s.
Proof.
  intros Hes s.
  assert (Hinv : unbounded_inv s).
  { apply unbounded_run.
    - intros r Hr. apply bounded_false_iff, Hes, Hr.
    - unfold unbounded_inv, jobs_ok, pending_starts, idle_seeker. simpl.
      repeat split; constructor. }
  destruct Hinv as (_ & _ & Hc & Hl). split; [exact Hc|].
  intros id Hin. rewrite list.Forall_forall in Hl.
  specialize (Hl _ Hin). discriminate.
Qed.

Lemma unbounded_requests_never_end_witness :
  let es := [PlaySegment {| rid := 1; targetTime := 10; endTime := 13;
                            continuous := true |};
             SeekedEvent; PlaySettles 0 true; Position 14; CheckFires 0] in
  let s := run es (idle_seeker 60) in
  log s = [Started 1] /\ checks s = [] /\ forall id, Ended id ∉ log s.
Proof.
  split; [reflexivity|].
  apply (unbounded_requests_never_end 60).
  intros r Hr. left.
  repeat (apply elem_of_cons in Hr; destruct Hr as [Hr|Hr];
          [try discriminate; injection Hr as ->; reflexivity|]).
  apply elem_of_nil in Hr. destruct Hr.
Defined.

Lemma checkAudioReady_negative a t :
  (t < 0)%Q -> fst (checkAudioReady a t) = false
               /\ paused (snd (checkAudioReady a t)) = paused a
               /\ currentTime (snd (checkAudioReady a t)) = currentTime a.
Proof.
  intros Ht. unfold checkAudioReady.
  assert (Hneg : Qle_bool 0 t = false).
  { destruct (Qle_bool 0 t) eqn:E; [|reflexivity].
    apply Qle_bool_iff in E. exfalso. apply (Qlt_not_le _ _ Ht E). }
  rewrite Hneg.
  destruct (has_url a), (src_set a), (Qeq_bool (duration a) 0);
    simpl; repeat split; reflexivity.
Qed.

Lemma waiting_seekAndPlayInternal r s :
  (targetTime r < 0)%Q -> waiting_inv s ->
  waiting_inv (seekAndPlayInternal r s).
Proof.
  intros Ht (Hj & Hp & Hc & Hl & Hpa & Hcl & Hto).
  unfold seekAndPlayInternal.
  destruct Hpa as [Hpa Hct].
  destruct (checkAudioReady_negative (audio s) _ Ht) as (Hr & Hpaused & Htime).
  destruct (checkAudioReady (audio s) (targetTime r)) as [ready a].
  simpl in Hr, Hpaused, Htime. subst ready.
  unfold waiting_inv. simpl.
  split; [exact Hj|]. split; [exact Hp|]. split; [exact Hc|].
  split; [exact Hl|]. split.
  - destruct ((networkState a =? 0) || (networkState a =? 3));
      [split; reflexivity | split; congruence].
  - split; [|exact Hto]. apply Forall_app. split; [exact Hcl|].
    constructor; [exact Ht | constructor].
Qed.

Lemma waiting_canplay l s :
  Forall (fun r => (targetTime r < 0)%Q) l -> waiting_inv s ->
  waiting_inv (foldl (fun s r => add_timeout (RetryInternal r) s) s l).
Proof.
  revert s. induction l as [|r l IH]; intros s Hl Hinv; [exact Hinv|].
  simpl. inversion Hl as [|? ? Hr Hl']; subst. apply IH; [exact Hl'|].
  destruct Hinv as (Hj & Hp & Hc & Hlg & Hpa & Hcl & Hto).
  unfold waiting_inv, add_timeout. simpl.
  split; [exact Hj|]. split; [exact Hp|]. split; [exact Hc|].
  split; [exact Hlg|]. split; [exact Hpa|]. split; [exact Hcl|].
  apply Forall_app. split; [exact Hto|]. constructor; [exact Hr | constructor].
Qed.

Lemma waiting_step e s :
  match e with PlaySegment r => (targetTime r < 0)%Q | _ => True end ->
  waiting_inv s -> waiting_inv (step e s).
Proof.
  intros He Hinv. destruct e as [r| | | |k|k|k ok|k|t]; simpl step.
  - unfold playCurrentSegment. apply waiting_seekAndPlayInternal; [exact He|].
    destruct Hinv as (Hj & Hp & Hc & Hl & Hpa & Hcl & Hto).
    unfold waiting_inv. simpl. repeat split; tauto.
  - destruct Hinv as (Hj & Hp & Hc & Hl & Hpa & Hcl & Hto).
    unfold waiting_inv, stop. simpl. repeat split; tauto.
  - destruct Hinv as (Hj & Hp & Hc & Hl & Hpa & Hcl & Hto).
    rewrite Hj. simpl. unfold waiting_inv. repeat split; tauto.
  - apply waiting_canplay; [apply Hinv|].
    destruct Hinv as (Hj & Hp & Hc & Hl & Hpa & Hcl & Hto).
    unfold waiting_inv. simpl.
    repeat split; try tauto. constructor.
  - destruct (timeouts s !! k) as [[t|]|] eqn:Hk; try exact Hinv.
    destruct Hinv as (Hj & Hp & Hc & Hl & Hpa & Hcl & Hto).
    pose proof (Hto' := Hto). rewrite list.Forall_forall in Hto'.
    specialize (Hto' (Some t) (list_elem_of_lookup_2 _ _ _ Hk)).
    destruct t as [r|r|r]; try contradiction. simpl.
    apply waiting_seekAndPlayInternal; [exact Hto'|].
    unfold waiting_inv. simpl.
    split; [exact Hj|]. split; [exact Hp|]. split; [exact Hc|].
    split; [exact Hl|]. split; [exact Hpa|]. split; [exact Hcl|].
    apply Forall_insert; [exact Hto | exact I].
  - unfold poll. destruct Hinv as (Hj & Hp & Hc & Hl & Hpa & Hcl & Hto).
    rewrite Hj. simpl. unfold waiting_inv. repeat split; tauto.
  - destruct Hinv as (Hj & Hp & Hc & Hl & Hpa & Hcl & Hto).
    rewrite Hp. simpl. unfold waiting_inv. repeat split; tauto.
  - unfold check_end. destruct Hinv as (Hj & Hp & Hc & Hl & Hpa & Hcl & Hto).
    rewrite Hc. simpl. unfold waiting_inv. repeat split; tauto.
  - destruct Hinv as (Hj & Hp & Hc & Hl & Hpa & Hcl & Hto).
    rewrite (proj1 Hpa). unfold waiting_inv. repeat split; tauto.
Qed.

Lemma waiting_run es s :
  (forall r, PlaySegment r ∈ es -> (targetTime r < 0)%Q) ->
  waiting_inv s -> waiting_inv (run es s).
Proof.
  revert s. induction es as [|e es IH]; intros s Hes Hinv; [exact Hinv|].
  simpl. apply IH.
  - intros r Hr. apply Hes. right. exact Hr.
  - apply waiting_step; [|exact Hinv].
    destruct e; try exact I. apply Hes. left.
Qed.

(** X21. Requests with a negative start time never play: the readiness test
    rejects them at every attempt, so whatever the events, [play()] is never
    called, the position is never set, and no callback runs. *)
Theorem negative_start_never_plays (dur : Q) (es : list event) :
  (forall r, PlaySegment r ∈ es -> (targetTime r < 0)%Q) ->
  let s := run es (idle_seeker dur) in
  plays s = [] /\ jobs s = [] /\ log s = []
  /\ paused (audio s) = true /\ currentTime (audio s) = 0%Q.
Proof.
  intros Hes s.
  assert (Hinv : waiting_inv s).
  { apply waiting_run; [exact Hes|].
    unfold waiting_inv, idle_seeker. simpl. repeat split; constructor. }
  destruct Hinv as (Hj & Hp & Hc & Hl & [Hpa Hct] & _).
  repeat split; assumption.
Qed.

Lemma negative_start_never_plays_witness :
  let es := [PlaySegment {| rid := 1; targetTime := -1; endTime := 3;
                            continuous := false |};
             CanPlayEvent; TimeoutFires 0; CanPlayEvent; SeekedEvent] in
  let s := run es (idle_seeker 60) in
  length (timeouts s) = 2 /\
  (plays s = [] /\ jobs s = [] /\ log s = []
   /\ paused (audio s) = true /\ currentTime (audio s) = 0%Q).
Proof.
  split; [reflexivity|].
  apply (negative_start_never_plays 60).
  intros r Hr.
  repeat (apply elem_of_cons in Hr; destruct Hr as [Hr|Hr];
          [try discriminate; injection Hr as ->; reflexivity|]).
  apply elem_of_nil in Hr. destruct Hr.
Defined.
